(** * A shallow embedding of the depgraph visualization state engine

    Sources: [src/src/graph.ts] (createGraph, runForceLayout),
    [src/src/interactions.ts] (selection, subgraph filter, cycles mode),
    [src/src/particles.ts] (particle animation, scenario matching and
    validation), types from [src/unnamed/part_003].

    Modelling conventions.
    - JS [number]s are modelled by rationals [Q]: every size, progress and
      time value below is computed by the same expression as in the source,
      in exact arithmetic.
    - The graphology [Graph] is a record of node and edge lists in
      insertion order.  Only the part of graphology's behaviour that the
      source relies on is written out: [addNode] refuses a duplicate key,
      [addEdge] generates a fresh key and (the default graph is not a multi
      graph) refuses a second edge on an existing ordered pair, and
      [outNeighbors]/[inNeighbors] refuse an unknown node; an edge key is
      never reused.  Those refusals
      are JS exceptions: a [Result] carrying the error.
    - The handlers run once [state.graph] and [state.sigma] are set: the
      event wiring of [setupInteractions] only exists from then on, so the
      [null] guards are not modelled.  DOM output ([refresh], badges, the
      package list) is not modelled; an [alert] is the handler's returned
      message. *)

From Stdlib Require Import List String Ascii Bool Arith QArith Qround Lia ZArith Lqa.
Import ListNotations.
Open Scope string_scope.

(** ** Errors *)

Inductive GraphError :=
| NotFoundGraphError (what : string)
| UsageGraphError (what : string).

Inductive Result (A : Type) :=
| Ok (a : A)
| Err (e : GraphError).
Arguments Ok {A} a.
Arguments Err {A} e.

Definition bindR {A B} (r : Result A) (f : A -> Result B) : Result B :=
  match r with Ok a => f a | Err e => Err e end.

(** ** Color palette ([ColorPalette] of [types.ts]) *)

Record ColorPalette := {
  nodeDefault : string;
  nodeHighlight : string;
  nodePath : string;
  nodeDimmed : string;
  nodeQueried : string;
  nodeIntermediate : string;
  edgeDefault : string;
  edgeHighlight : string;
  edgePath : string;
  edgeDimmed : string
}.

(** The [COLORS] constant of [graph.ts].  That file defines only eight
    entries; [nodeQueried] and [nodeIntermediate] are read by
    [applyCycleVisualization] but absent there.  The handlers below take
    the palette as an argument, so every theorem holds for any entries;
    this value only feeds the concrete examples. *)
Definition COLORS_graph : ColorPalette := {|
  nodeDefault := "#4a5568";
  nodeHighlight := "#22d3ee";
  nodePath := "#fb923c";
  nodeDimmed := "#1e2830";
  nodeQueried := "queried";
  nodeIntermediate := "intermediate";
  edgeDefault := "#2d3748";
  edgeHighlight := "#22d3ee";
  edgePath := "#fb923c";
  edgeDimmed := "#141a20"
|}.

(** ** Graph model *)

(** [NodeAttributes]; the layout coordinates [x], [y] are not modelled.
    [hidden?: boolean] is an optional field: [None] is [undefined]. *)
Record NodeAttributes := {
  nkey : string;
  label : string;
  isBase : bool;
  size : Q;
  color : string;
  originalColor : string;
  originalSize : Q;
  hidden : option bool
}.

(** [EdgeAttributes], with the graphology edge key, source and target. *)
Record Edge := {
  ekey : string;
  source : string;
  target : string;
  eid : string;
  ecolor : string;
  esize : Q;
  eoriginalColor : string;
  ehidden : option bool
}.

Record Graph := {
  gnodes : list NodeAttributes;
  gedges : list Edge;
  gnextEdge : nat  (* graphology's edge key counter *)
}.

Definition emptyGraph : Graph := {| gnodes := []; gedges := []; gnextEdge := 0 |}.

Definition hasNode (g : Graph) (n : string) : bool :=
  existsb (fun a => String.eqb (nkey a) n) (gnodes g).

(** [graph.hasEdge(key)] with one argument: is [key] an edge key. *)
Definition hasEdge (g : Graph) (k : string) : bool :=
  existsb (fun e => String.eqb (ekey e) k) (gedges g).

Definition hasPair (g : Graph) (s t : string) : bool :=
  existsb (fun e => String.eqb (source e) s && String.eqb (target e) t) (gedges g).

(** Decimal rendering of a counter, for generated keys. *)
Fixpoint digits_aux (fuel n : nat) (acc : string) : string :=
  match fuel with
  | O => acc
  | S f =>
      let d := String (ascii_of_nat (48 + Nat.modulo n 10)) acc in
      if Nat.ltb n 10 then d else digits_aux f (Nat.div n 10) d
  end.
Definition string_of_nat (n : nat) : string := digits_aux (S n) n "".

(** graphology's generated edge keys are ["geid_<prefix>_<i>"]. *)
Definition generatedEdgeKey (i : nat) : string := "geid_0_" ++ string_of_nat i.

Definition addNode (g : Graph) (a : NodeAttributes) : Result Graph :=
  if hasNode g (nkey a)
  then Err (UsageGraphError "addNode: the node already exist")
  else Ok {| gnodes := (gnodes g ++ [a])%list; gedges := gedges g; gnextEdge := gnextEdge g |}.

(** [graph.addEdge(source, target, attrs)] on a simple (non-multi) graph. *)
Definition addEdge (g : Graph) (s t eid' col : string) (sz : Q) (ocol : string)
  : Result Graph :=
  if negb (hasNode g s) then Err (NotFoundGraphError "addEdge: source not found")
  else if negb (hasNode g t) then Err (NotFoundGraphError "addEdge: target not found")
  else if hasPair g s t then Err (UsageGraphError "addEdge: an edge linking those nodes already exists")
  else if hasEdge g (generatedEdgeKey (gnextEdge g)) then Err (UsageGraphError "addEdge: the edge already exists")
  else Ok {| gnodes := gnodes g;
             gedges := List.app (gedges g)
               [{| ekey := generatedEdgeKey (gnextEdge g); source := s; target := t;
                   eid := eid'; ecolor := col; esize := sz; eoriginalColor := ocol;
                   ehidden := None |}];
             gnextEdge := S (gnextEdge g) |}.

Definition outNeighbors (g : Graph) (n : string) : Result (list string) :=
  if hasNode g n
  then Ok (map target (filter (fun e => String.eqb (source e) n) (gedges g)))
  else Err (NotFoundGraphError "outNeighbors: node not found").

Definition inNeighbors (g : Graph) (n : string) : Result (list string) :=
  if hasNode g n
  then Ok (map source (filter (fun e => String.eqb (target e) n) (gedges g)))
  else Err (NotFoundGraphError "inNeighbors: node not found").

(** [forEachNode] / [forEachEdge] with attribute setters: each callback
    only touches its own element, so the iteration is a [map]. *)
Definition forEachNode (g : Graph) (f : NodeAttributes -> NodeAttributes) : Graph :=
  {| gnodes := map f (gnodes g); gedges := gedges g; gnextEdge := gnextEdge g |}.

Definition forEachEdge (g : Graph) (f : Edge -> Edge) : Graph :=
  {| gnodes := gnodes g; gedges := map f (gedges g); gnextEdge := gnextEdge g |}.

(** Attribute setters. *)
Definition setColor (c : string) (a : NodeAttributes) : NodeAttributes :=
  {| nkey := nkey a; label := label a; isBase := isBase a; size := size a; color := c;
     originalColor := originalColor a; originalSize := originalSize a; hidden := hidden a |}.
Definition setSize (s : Q) (a : NodeAttributes) : NodeAttributes :=
  {| nkey := nkey a; label := label a; isBase := isBase a; size := s; color := color a;
     originalColor := originalColor a; originalSize := originalSize a; hidden := hidden a |}.
Definition setHidden (h : bool) (a : NodeAttributes) : NodeAttributes :=
  {| nkey := nkey a; label := label a; isBase := isBase a; size := size a; color := color a;
     originalColor := originalColor a; originalSize := originalSize a; hidden := Some h |}.

Definition setEColor (c : string) (e : Edge) : Edge :=
  {| ekey := ekey e; source := source e; target := target e; eid := eid e; ecolor := c;
     esize := esize e; eoriginalColor := eoriginalColor e; ehidden := ehidden e |}.
Definition setESize (s : Q) (e : Edge) : Edge :=
  {| ekey := ekey e; source := source e; target := target e; eid := eid e; ecolor := ecolor e;
     esize := s; eoriginalColor := eoriginalColor e; ehidden := ehidden e |}.
Definition setEHidden (h : bool) (e : Edge) : Edge :=
  {| ekey := ekey e; source := source e; target := target e; eid := eid e; ecolor := ecolor e;
     esize := esize e; eoriginalColor := eoriginalColor e; ehidden := Some h |}.

(** ** [createGraph] *)

Record InputNode := { in_id : string; in_isBase : option bool }.
Record InputEdge := { in_source : string; in_target : string }.
Record GraphData := { data_nodes : list InputNode; data_edges : list InputEdge }.

Definition baseSize (b : option bool) : Q :=
  match b with Some true => 8 | _ => 4 end.

Definition createNodeAttrs (C : ColorPalette) (n : InputNode) : NodeAttributes :=
  {| nkey := in_id n; label := in_id n;
     isBase := match in_isBase n with Some b => b | None => false end;
     size := baseSize (in_isBase n); color := nodeDefault C;
     originalColor := nodeDefault C; originalSize := baseSize (in_isBase n);
     hidden := None |}.

Fixpoint addNodes (C : ColorPalette) (g : Graph) (ns : list InputNode) : Result Graph :=
  match ns with
  | [] => Ok g
  | n :: ns' => bindR (addNode g (createNodeAttrs C n)) (fun g' => addNodes C g' ns')
  end.

(** [data.edges.forEach((edge, i) => ...)]: [i] is the index in the input. *)
Definition edgeIdOf (i : nat) : string := "e" ++ string_of_nat i.

Fixpoint addEdges (C : ColorPalette) (g : Graph) (i : nat) (es : list InputEdge)
  : Result Graph :=
  match es with
  | [] => Ok g
  | e :: es' =>
      let r :=
        if hasNode g (in_source e) && hasNode g (in_target e) then
          let edgeId := edgeIdOf i in
          if negb (hasEdge g edgeId) then
            addEdge g (in_source e) (in_target e) edgeId (edgeDefault C) (1#2) (edgeDefault C)
          else Ok g
        else Ok g in
      bindR r (fun g' => addEdges C g' (S i) es')
  end.

Definition createGraph (C : ColorPalette) (data : GraphData) : Result Graph :=
  bindR (addNodes C emptyGraph (data_nodes data)) (fun g => addEdges C g 0 (data_edges data)).

(** ** Cycle scenarios and the particle system ([types.ts]) *)

Record CycleEdge := { cfrom : string; cto : string }.
Record Cycle := { cid : string; cnodes : list string; cedges : list CycleEdge; ccolor : string }.
Record CycleScenario := {
  scid : string;
  queriedPackages : list string;
  cycles : list Cycle;
  intermediateNodes : list string
}.
Record CyclesData := { scenarios : list CycleScenario }.

Record Particle := { cycleId : string; edgeIndex : nat; progress : Q; pcolor : string }.
Record ParticleSystem := {
  particles : list Particle;
  lastFrame : Q;
  animationId : option nat
}.

(** ** Application state ([AppState]) *)

Record AppState := {
  graph : Graph;
  allPackages : list string;
  highlightedNodes : list string;
  selectedNode : option string;
  isSubgraphMode : bool;
  isCyclesMode : bool;
  currentCycleScenario : option CycleScenario;
  visibleCycles : list string;
  waveSystem : option ParticleSystem
}.

Definition set_graph (g : Graph) (s : AppState) : AppState :=
  {| graph := g; allPackages := allPackages s; highlightedNodes := highlightedNodes s;
     selectedNode := selectedNode s; isSubgraphMode := isSubgraphMode s;
     isCyclesMode := isCyclesMode s; currentCycleScenario := currentCycleScenario s;
     visibleCycles := visibleCycles s; waveSystem := waveSystem s |}.
Definition set_selectedNode (v : option string) (s : AppState) : AppState :=
  {| graph := graph s; allPackages := allPackages s; highlightedNodes := highlightedNodes s;
     selectedNode := v; isSubgraphMode := isSubgraphMode s;
     isCyclesMode := isCyclesMode s; currentCycleScenario := currentCycleScenario s;
     visibleCycles := visibleCycles s; waveSystem := waveSystem s |}.
Definition set_subgraph (b : bool) (hl : list string) (s : AppState) : AppState :=
  {| graph := graph s; allPackages := allPackages s; highlightedNodes := hl;
     selectedNode := selectedNode s; isSubgraphMode := b;
     isCyclesMode := isCyclesMode s; currentCycleScenario := currentCycleScenario s;
     visibleCycles := visibleCycles s; waveSystem := waveSystem s |}.
Definition set_cycles (b : bool) (sc : option CycleScenario) (vis : list string)
  (s : AppState) : AppState :=
  {| graph := graph s; allPackages := allPackages s; highlightedNodes := highlightedNodes s;
     selectedNode := selectedNode s; isSubgraphMode := isSubgraphMode s;
     isCyclesMode := b; currentCycleScenario := sc;
     visibleCycles := vis; waveSystem := waveSystem s |}.
Definition set_waveSystem (w : option ParticleSystem) (s : AppState) : AppState :=
  {| graph := graph s; allPackages := allPackages s; highlightedNodes := highlightedNodes s;
     selectedNode := selectedNode s; isSubgraphMode := isSubgraphMode s;
     isCyclesMode := isCyclesMode s; currentCycleScenario := currentCycleScenario s;
     visibleCycles := visibleCycles s; waveSystem := w |}.

(** How a handler call ended: normally, with an [alert], or by an
    exception escaping it (the state mutated before the throw is kept). *)
Inductive Outcome :=
| Done
| Alerted (msg : string)
| Raised (e : GraphError).

(** ** JS [Set] of strings: insertion-ordered, no duplicates *)

Definition mem (x : string) (l : list string) : bool := existsb (String.eqb x) l.
Definition setAdd (l : list string) (x : string) : list string :=
  if mem x l then l else (l ++ [x])%list.
Definition setOf (l : list string) : list string := fold_left setAdd l [].

(** ** [String.prototype.trim] and [split('\n')] *)

(** The ASCII white-space and line-terminator characters. *)
Definition isWS (c : ascii) : bool :=
  existsb (Nat.eqb (nat_of_ascii c)) [9; 10; 11; 12; 13; 32]%nat.

Fixpoint trimStart (s : string) : string :=
  match s with
  | EmptyString => EmptyString
  | String c r => if isWS c then trimStart r else s
  end.

Fixpoint trimEnd (s : string) : string :=
  match s with
  | EmptyString => EmptyString
  | String c r =>
      let r' := trimEnd r in
      if isWS c && String.eqb r' "" then "" else String c r'
  end.

Definition trim (s : string) : string := trimEnd (trimStart s).

Definition newline : ascii := ascii_of_nat 10.

Fixpoint splitNL (s : string) : list string :=
  match s with
  | EmptyString => [""]
  | String c r =>
      let rest := splitNL r in
      if Ascii.eqb c newline then "" :: rest
      else match rest with
           | h :: t => String c h :: t
           | [] => [String c ""]
           end
  end.

(** ** Selection ([selectNode], [clearSelection], [focusOnNode]) *)

Definition selectNodeColors (C : ColorPalette) (nodeId : string) (deps rdeps : list string)
  (a : NodeAttributes) : NodeAttributes :=
  if String.eqb (nkey a) nodeId then
    setSize (originalSize a * (3#2)) (setColor (nodeHighlight C) a)
  else if mem (nkey a) deps then
    setSize (originalSize a * (6#5)) (setColor (nodePath C) a)
  else if mem (nkey a) rdeps then
    setSize (originalSize a * (11#10)) (setColor (nodeHighlight C) a)
  else setSize (originalSize a) (setColor (nodeDimmed C) a).

Definition selectEdgeColors (C : ColorPalette) (nodeId : string) (e : Edge) : Edge :=
  if String.eqb (source e) nodeId || String.eqb (target e) nodeId then
    setESize (3#2) (setEColor (if String.eqb (source e) nodeId then edgePath C else edgeHighlight C) e)
  else setESize (3#10) (setEColor (edgeDimmed C) e).

Definition selectNode (C : ColorPalette) (s : AppState) (nodeId : string)
  : AppState * Outcome :=
  let s1 := set_selectedNode (Some nodeId) s in
  match outNeighbors (graph s1) nodeId with
  | Err e => (s1, Raised e)
  | Ok deps =>
      match inNeighbors (graph s1) nodeId with
      | Err e => (s1, Raised e)
      | Ok rdeps =>
          let g1 := forEachNode (graph s1) (selectNodeColors C nodeId deps rdeps) in
          let g2 := forEachEdge g1 (selectEdgeColors C nodeId) in
          (set_graph g2 s1, Done)
      end
  end.

Definition clearSelection (s : AppState) : AppState :=
  if isSubgraphMode s then s
  else
    let s1 := set_selectedNode None s in
    let g1 := forEachNode (graph s1) (fun a => setSize (originalSize a) (setColor (originalColor a) a)) in
    let g2 := forEachEdge g1 (fun e => setESize (1#2) (setEColor (eoriginalColor e) e)) in
    set_graph g2 s1.

(** [focusOnNode]: the camera animation is not modelled. *)
Definition focusOnNode (C : ColorPalette) (s : AppState) (nodeId : string)
  : AppState * Outcome :=
  if negb (hasNode (graph s) nodeId) then (s, Done) else selectNode C s nodeId.

(** ** Restoring baseline attributes *)

Definition restoreNode (a : NodeAttributes) : NodeAttributes :=
  setHidden false (setSize (originalSize a) (setColor (originalColor a) a)).
Definition restoreEdge (e : Edge) : Edge :=
  setEHidden false (setESize (1#2) (setEColor (eoriginalColor e) e)).

Definition clearSubgraphMode (s : AppState) : AppState :=
  let s1 := set_subgraph false [] s in
  set_graph (forEachEdge (forEachNode (graph s1) restoreNode) restoreEdge) s1.

(** [clearCyclesMode]: cancelling the animation frame and hiding the
    canvas are DOM effects, not modelled. *)
Definition clearCyclesMode (s : AppState) : AppState :=
  let s1 := set_waveSystem None (set_cycles false None [] s) in
  set_graph (forEachEdge (forEachNode (graph s1) restoreNode) restoreEdge) s1.

(** ** Subgraph filter ([applySubgraphFilter]) *)

(** The 1-hop expansion: [expandedNodes] starts as [new Set(packages)] and
    each package adds its out- then its in-neighbours. *)
Fixpoint expandNeighbors (g : Graph) (pkgs acc : list string) : Result (list string) :=
  match pkgs with
  | [] => Ok acc
  | p :: r =>
      bindR (outNeighbors g p) (fun outs =>
      bindR (inNeighbors g p) (fun ins =>
      expandNeighbors g r (fold_left setAdd ins (fold_left setAdd outs acc))))
  end.

Definition filterPackages (g : Graph) (text : string) : list string :=
  filter (fun x => negb (String.eqb x "") && hasNode g x) (map trim (splitNL text)).

Definition subgraphNode (C : ColorPalette) (expanded : list string) (a : NodeAttributes)
  : NodeAttributes :=
  if mem (nkey a) expanded then setHidden false (setColor (nodeHighlight C) a)
  else setHidden true (setColor (nodeDimmed C) a).

Definition subgraphEdge (C : ColorPalette) (subgraphEdges : list string) (e : Edge) : Edge :=
  if mem (ekey e) subgraphEdges then setEHidden false (setESize 1 (setEColor (edgeHighlight C) e))
  else setEHidden true e.

Definition applySubgraphFilter (C : ColorPalette) (s : AppState) (filterInput : string)
  : AppState * Outcome :=
  let s1 := if isCyclesMode s then clearCyclesMode s else s in
  let text := trim filterInput in
  if String.eqb text "" then (clearSubgraphMode s1, Done)
  else
    let packages := filterPackages (graph s1) text in
    match packages with
    | [] => (s1, Alerted "No valid packages found. Check the names match exactly.")
    | _ =>
        match expandNeighbors (graph s1) packages (setOf packages) with
        | Err e => (s1, Raised e)
        | Ok expandedNodes =>
            let s2 := set_subgraph true expandedNodes s1 in
            let subgraphEdges :=
              map ekey (filter (fun e => mem (source e) expandedNodes && mem (target e) expandedNodes)
                          (gedges (graph s2))) in
            let g1 := forEachNode (graph s2) (subgraphNode C expandedNodes) in
            let g2 := forEachEdge g1 (subgraphEdge C subgraphEdges) in
            (set_graph g2 s2, Done)
        end
    end.

(** ** Cycle scenarios ([findMatchingScenario], [validateScenario],
    [classifyNodes]) *)

Definition setEqual (q sc : list string) : bool :=
  let queriedSet := setOf q in
  let scenarioSet := setOf sc in
  Nat.eqb (List.length queriedSet) (List.length scenarioSet) &&
  forallb (fun p => mem p scenarioSet) queriedSet.

Fixpoint findMatchingScenario_aux (l : list CycleScenario) (queried : list string)
  : option CycleScenario :=
  match l with
  | [] => None
  | sc :: r => if setEqual queried (queriedPackages sc) then Some sc
               else findMatchingScenario_aux r queried
  end.
Definition findMatchingScenario (data : CyclesData) (queried : list string)
  : option CycleScenario := findMatchingScenario_aux (scenarios data) queried.

Definition validateScenario (sc : CycleScenario) (allPkgs : list string)
  : bool * list string :=
  let missing :=
    (filter (fun p => negb (mem p allPkgs)) (queriedPackages sc) ++
    filter (fun p => negb (mem p allPkgs)) (intermediateNodes sc) ++
    flat_map (fun c => filter (fun p => negb (mem p allPkgs)) (cnodes c)) (cycles sc))%list in
  (Nat.eqb (List.length missing) 0, setOf missing).

Definition classifyNodes (sc : CycleScenario) : list string * list string * list string :=
  (setOf (queriedPackages sc), setOf (intermediateNodes sc),
   setOf (flat_map cnodes (cycles sc))).

(** ** Cycle visualization ([applyCycleVisualization]) *)

(** [Map<string,string>] as an association list in insertion order. *)
Fixpoint lookup (k : string) (m : list (string * string)) : option string :=
  match m with
  | [] => None
  | (k', v) :: r => if String.eqb k k' then Some v else lookup k r
  end.

Definition mapSetIfAbsent (m : list (string * string)) (k v : string) : list (string * string) :=
  match lookup k m with Some _ => m | None => (m ++ [(k, v)])%list end.

Definition cycleMemberColors (sc : CycleScenario) (visible : list string)
  : list (string * string) :=
  fold_left (fun m c =>
    if negb (mem (cid c) visible) then m
    else fold_left (fun m' n => mapSetIfAbsent m' n (ccolor c)) (cnodes c) m)
    (cycles sc) [].

Definition edgeKeyOf (f t : string) : string := f ++ "->" ++ t.

Definition visibleCycleEdges (sc : CycleScenario) (visible : list string) : list string :=
  fold_left (fun acc c =>
    if negb (mem (cid c) visible) then acc
    else fold_left (fun acc' e => setAdd acc' (edgeKeyOf (cfrom e) (cto e))) (cedges c) acc)
    (cycles sc) [].

Definition cycleNode (C : ColorPalette) (colors : list (string * string))
  (queried intermediate : list string) (a : NodeAttributes) : NodeAttributes :=
  match lookup (nkey a) colors with
  | Some col => setHidden false (setSize (originalSize a * (13#10)) (setColor col a))
  | None =>
      if mem (nkey a) queried then
        setHidden false (setSize (originalSize a * (6#5)) (setColor (nodeQueried C) a))
      else if mem (nkey a) intermediate then
        setHidden false (setSize (originalSize a * (11#10)) (setColor (nodeIntermediate C) a))
      else setHidden true (setColor (nodeDimmed C) a)
  end.

(** The colour of a visible cycle edge: the first visible cycle listing it. *)
Fixpoint cycleEdgeColor (C : ColorPalette) (cs : list Cycle) (visible : list string)
  (s t : string) : string :=
  match cs with
  | [] => edgeHighlight C
  | c :: r =>
      if mem (cid c) visible &&
         existsb (fun e => String.eqb (cfrom e) s && String.eqb (cto e) t) (cedges c)
      then ccolor c
      else cycleEdgeColor C r visible s t
  end.

Definition cycleEdge (C : ColorPalette) (sc : CycleScenario) (visible vedges : list string)
  (e : Edge) : Edge :=
  if mem (edgeKeyOf (source e) (target e)) vedges then
    setEHidden false (setESize (3#2)
      (setEColor (cycleEdgeColor C (cycles sc) visible (source e) (target e)) e))
  else setEHidden true e.

Definition applyCycleVisualization (C : ColorPalette) (s : AppState) : AppState :=
  match currentCycleScenario s with
  | None => s
  | Some sc =>
      let '(queried, intermediate, _) := classifyNodes sc in
      let colors := cycleMemberColors sc (visibleCycles s) in
      let vedges := visibleCycleEdges sc (visibleCycles s) in
      let g1 := forEachNode (graph s) (cycleNode C colors queried intermediate) in
      let g2 := forEachEdge g1 (cycleEdge C sc (visibleCycles s) vedges) in
      set_graph g2 s
  end.

(** ** Particle animation ([particles.ts]) *)

Definition PARTICLE_SPEED : Q := 3#10.
Definition PARTICLES_PER_CYCLE : nat := 3.

Definition initializeParticleSystem (sc : CycleScenario) (visible : list string) (now : Q)
  : ParticleSystem :=
  {| particles :=
       flat_map (fun c =>
         if negb (mem (cid c) visible) then []
         else map (fun i => {| cycleId := cid c; edgeIndex := 0;
                               progress := inject_Z (Z.of_nat i) / inject_Z (Z.of_nat PARTICLES_PER_CYCLE);
                               pcolor := ccolor c |})
                  (seq 0 PARTICLES_PER_CYCLE))
         (cycles sc);
     lastFrame := now;
     animationId := None |}.

Definition findCycle (sc : CycleScenario) (id : string) : option Cycle :=
  find (fun c => String.eqb (cid c) id) (cycles sc).

(** [while (particle.progress >= 1) { progress -= 1; edgeIndex = (edgeIndex + 1) % n }].
    The loop is given [fuel]; [wrapFuel] is enough fuel for it to exit
    through its condition (lemma [wrapLoop_exits] below). *)
Fixpoint wrapLoop (fuel : nat) (n : nat) (p : Q) (idx : nat) : Q * nat :=
  match fuel with
  | O => (p, idx)
  | S f => if Qle_bool 1 p then wrapLoop f n (p - 1) (Nat.modulo (idx + 1) n) else (p, idx)
  end.

Definition wrapFuel (p : Q) : nat := S (Z.to_nat (Qfloor p)).

Definition stepParticle (sc : CycleScenario) (delta : Q) (pt : Particle) : Particle :=
  match findCycle sc (cycleId pt) with
  | None => pt
  | Some c =>
      match cedges c with
      | [] => pt
      | _ =>
          let p := progress pt + PARTICLE_SPEED * delta in
          let '(p', idx') := wrapLoop (wrapFuel p) (List.length (cedges c)) p (edgeIndex pt) in
          {| cycleId := cycleId pt; edgeIndex := idx'; progress := p'; pcolor := pcolor pt |}
      end
  end.

(** [updateParticles(system, scenario)] called at time [now] (the value of
    [performance.now()]). *)
Definition updateParticles (sys : ParticleSystem) (sc : CycleScenario) (now : Q)
  : ParticleSystem :=
  let delta := (now - lastFrame sys) / 1000 in
  {| particles := map (stepParticle sc delta) (particles sys);
     lastFrame := now;
     animationId := animationId sys |}.

Fixpoint runUpdates (sys : ParticleSystem) (sc : CycleScenario) (nows : list Q)
  : ParticleSystem :=
  match nows with
  | [] => sys
  | t :: r => runUpdates (updateParticles sys sc t) sc r
  end.

(** ** Cycles mode ([detectCycles], [toggleCycleVisibility]) *)

Fixpoint join (sep : string) (l : list string) : string :=
  match l with
  | [] => ""
  | [x] => x
  | x :: r => x ++ sep ++ join sep r
  end.

(** [startParticleAnimation] reads [state.particleSystem], a field that
    [AppState] does not have (the handlers store the system in
    [state.waveSystem]); it returns at its first guard. *)
Definition startParticleAnimation (s : AppState) : AppState := s.

(** [detectCycles] with the text of [cyclesInput], the catalog that
    [loadCyclesMockData] resolves to, and the value of [performance.now()]
    when the particle system is created. *)
Definition detectCycles (C : ColorPalette) (s : AppState) (cyclesInput : string)
  (cyclesData : CyclesData) (now : Q) : AppState * Outcome :=
  let s1 := if isSubgraphMode s then clearSubgraphMode s else s in
  let text := trim cyclesInput in
  if String.eqb text "" then (s1, Alerted "Please enter package names to detect cycles.")
  else
    let queried := filter (fun x => negb (String.eqb x "")) (map trim (splitNL text)) in
    match queried with
    | [] => (s1, Alerted "No valid packages entered.")
    | _ =>
        match findMatchingScenario cyclesData queried with
        | None => (s1, Alerted ("No matching cycle scenario found for: " ++ join ", " queried))
        | Some sc =>
            let '(valid, missing) := validateScenario sc (setOf (allPackages s1)) in
            if negb valid then
              (s1, Alerted ("Scenario validation failed. Missing packages: " ++ join ", " missing))
            else
              let s2 := set_cycles true (Some sc) (setOf (map cid (cycles sc))) s1 in
              let s3 := applyCycleVisualization C s2 in
              let s4 := set_waveSystem (Some (initializeParticleSystem sc (visibleCycles s3) now)) s3 in
              (startParticleAnimation s4, Done)
        end
    end.

Definition listRemove (x : string) (l : list string) : list string :=
  filter (fun y => negb (String.eqb y x)) l.

Definition toggleCycleVisibility (C : ColorPalette) (s : AppState) (cycleId' : string) (now : Q)
  : AppState :=
  match currentCycleScenario s with
  | None => s
  | Some sc =>
      let vis := if mem cycleId' (visibleCycles s) then listRemove cycleId' (visibleCycles s)
                 else setAdd (visibleCycles s) cycleId' in
      let s1 := applyCycleVisualization C (set_cycles (isCyclesMode s) (Some sc) vis s) in
      match waveSystem s1 with
      | None => s1
      | Some _ => startParticleAnimation
                    (set_waveSystem (Some (initializeParticleSystem sc (visibleCycles s1) now)) s1)
      end
  end.

(** ** Repulsion sampling of [runForceLayout] *)

(** The random source: the [k]-th call of [Math.random()] returns [rand k]. *)
Definition RandomSource := nat -> Q.

(** [nodes.filter(() => Math.random() < sampleSize / nodes.length)], one
    call per node in order, starting at call number [k]. *)
Fixpoint filterRandom (rand : RandomSource) (k : nat) (bound : Q) (l : list string)
  : list string * nat :=
  match l with
  | [] => ([], k)
  | x :: r =>
      let '(rest, k') := filterRandom rand (S k) bound r in
      (if Qlt_le_dec (rand k) bound then x :: rest else rest, k')
  end.

Definition repulsionSample (rand : RandomSource) (k : nat) (nodes : list string)
  : list string * nat :=
  let sampleSize := Nat.min 50 (List.length nodes) in
  if Nat.leb (List.length nodes) sampleSize then (nodes, k)
  else filterRandom rand k (inject_Z (Z.of_nat sampleSize) / inject_Z (Z.of_nat (List.length nodes))) nodes.

(** The samples drawn in one relaxation iteration: one per node [n1], in
    node order, each consuming fresh calls of the random source. *)
Fixpoint iterationSamples (rand : RandomSource) (k : nat) (nodes n1s : list string)
  : list (list string) * nat :=
  match n1s with
  | [] => ([], k)
  | _ :: r =>
      let '(smp, k1) := repulsionSample rand k nodes in
      let '(rest, k2) := iterationSamples rand k1 nodes r in
      (smp :: rest, k2)
  end.

(** A random source returns values in [[0, 1)]. *)
Definition validRandom (rand : RandomSource) : Prop := forall k, 0 <= rand k /\ rand k < 1.

(** ** Initial state and reachable states *)

(** The state [initGraph] builds from the input ([main.ts]).  [allPackages]
    is only read as a set here, so its sorting is not modelled. *)
Definition initState (g : Graph) (data : GraphData) : AppState :=
  {| graph := g; allPackages := map in_id (data_nodes data); highlightedNodes := [];
     selectedNode := None; isSubgraphMode := false; isCyclesMode := false;
     currentCycleScenario := None; visibleCycles := []; waveSystem := None |}.

Section Reachable.
Variable C : ColorPalette.

(** The states the wired handlers of [setupInteractions] can produce:
    node clicks and search hits ([focusOnNode]), background clicks, the
    filter and the cycle buttons, and cycle toggles. *)
Inductive reachable : AppState -> Prop :=
| r_init : forall data g, createGraph C data = Ok g -> reachable (initState g data)
| r_clickNode : forall s n, reachable s -> hasNode (graph s) n = true ->
    reachable (fst (selectNode C s n))
| r_focus : forall s n, reachable s -> reachable (fst (focusOnNode C s n))
| r_clickStage : forall s, reachable s -> isSubgraphMode s = false ->
    reachable (clearSelection s)
| r_zoomReset : forall s, reachable s -> reachable (clearSubgraphMode (clearSelection s))
| r_apply : forall s t, reachable s -> reachable (fst (applySubgraphFilter C s t))
| r_clearFilter : forall s, reachable s -> reachable (clearSubgraphMode s)
| r_detect : forall s t d now, reachable s -> reachable (fst (detectCycles C s t d now))
| r_toggle : forall s c now, reachable s -> reachable (toggleCycleVisibility C s c now)
| r_clearCycles : forall s, reachable s -> reachable (clearCyclesMode s).

End Reachable.

(** ** Concrete inputs *)

Definition nd (id : string) : InputNode := {| in_id := id; in_isBase := None |}.
Definition ed (s t : string) : InputEdge := {| in_source := s; in_target := t |}.

(** The end-to-end graph of the spec: A -> B -> C. *)
Definition abcData : GraphData :=
  {| data_nodes := [nd "A"; nd "B"; nd "C"]; data_edges := [ed "A" "B"; ed "B" "C"] |}.

Definition fromOk {A} (d : A) (r : Result A) : A := match r with Ok a => a | Err _ => d end.

Definition abcGraph : Graph := fromOk emptyGraph (createGraph COLORS_graph abcData).
Definition abcState : AppState := initState abcGraph abcData.

Definition nodeView (a : NodeAttributes) : string * string * Q * option bool :=
  (nkey a, color a, size a, hidden a).
Definition edgeView (e : Edge) : string * string * string * Q * option bool :=
  (source e, target e, ecolor e, esize e, ehidden e).

Definition abcScenario : CycleScenario :=
  {| scid := "s1"; queriedPackages := ["A"];
     cycles := [{| cid := "c1"; cnodes := ["B"; "C"];
                   cedges := [{| cfrom := "B"; cto := "C" |}; {| cfrom := "C"; cto := "B" |}];
                   ccolor := "#ff0000" |}];
     intermediateNodes := [] |}.
Definition abcCatalog : CyclesData := {| scenarios := [abcScenario] |}.

Example createGraph_abc_edges :
  map edgeView (gedges abcGraph) =
  [("A", "B", "#2d3748", 1#2, None); ("B", "C", "#2d3748", 1#2, None)].
Proof. reflexivity. Qed.

Example selectNode_B :
  map nodeView (gnodes (graph (fst (selectNode COLORS_graph abcState "B")))) =
  [("A", "#22d3ee", 4 * (11#10), None); ("B", "#22d3ee", 4 * (3#2), None);
   ("C", "#fb923c", 4 * (6#5), None)].
Proof. reflexivity. Qed.

Example applyFilter_A :
  (map nodeView (gnodes (graph (fst (applySubgraphFilter COLORS_graph abcState "A")))),
   map edgeView (gedges (graph (fst (applySubgraphFilter COLORS_graph abcState "A"))))) =
  ([("A", "#22d3ee", 4, Some false); ("B", "#22d3ee", 4, Some false);
    ("C", "#1e2830", 4, Some true)],
   [("A", "B", "#22d3ee", 1, Some false); ("B", "C", "#2d3748", 1#2, Some true)]).
Proof. reflexivity. Qed.

Definition nl : string := String newline "".

Example detectCycles_A :
  map nodeView (gnodes (graph (fst (detectCycles COLORS_graph abcState (" A " ++ nl) abcCatalog 0)))) =
  [("A", "queried", 4 * (6#5), Some false); ("B", "#ff0000", 4 * (13#10), Some false);
   ("C", "#ff0000", 4 * (13#10), Some false)].
Proof. reflexivity. Qed.

Example createGraph_duplicate :
  createGraph COLORS_graph {| data_nodes := [nd "A"; nd "B"]; data_edges := [ed "A" "B"; ed "A" "B"] |}
  = Err (UsageGraphError "addEdge: an edge linking those nodes already exists").
Proof. reflexivity. Qed.

(** ** Auxiliary views of the state and scenarios *)

Definition scenarioPackages (sc : CycleScenario) : list string :=
  (queriedPackages sc ++ intermediateNodes sc ++ flat_map cnodes (cycles sc))%list.

Definition toggledVisible (c : string) (vis : list string) : list string :=
  if mem c vis then listRemove c vis else setAdd vis c.

Definition queriedOf (cyclesInput : string) : list string :=
  filter (fun x => negb (String.eqb x "")) (map trim (splitNL (trim cyclesInput))).

(** Reachable-state invariants. *)

Definition modeFields (s : AppState) :=
  (allPackages s, highlightedNodes s, isSubgraphMode s, isCyclesMode s,
   currentCycleScenario s, visibleCycles s, waveSystem s, map nkey (gnodes (graph s))).

Definition modeInv (s : AppState) : Prop :=
  (isSubgraphMode s = true -> isCyclesMode s = false) /\
  (isCyclesMode s = true <-> currentCycleScenario s <> None) /\
  (isCyclesMode s = true <-> waveSystem s <> None) /\
  (isSubgraphMode s = false -> highlightedNodes s = []) /\
  (forall sc w pt, currentCycleScenario s = Some sc -> waveSystem s = Some w -> In pt (particles w) ->
     In (cycleId pt) (visibleCycles s) /\ findCycle sc (cycleId pt) <> None) /\
  (forall p, In p (allPackages s) -> In p (map nkey (gnodes (graph s)))).

(** ** Decimal read-back and the edges [createGraph] keeps *)

(** Reading back a decimal rendering. *)
Fixpoint decimalValue_aux (v : nat) (s : string) : nat :=
  match s with
  | EmptyString => v
  | String c r => decimalValue_aux (10 * v + (nat_of_ascii c - 48))%nat r
  end.
Definition decimalValue (s : string) : nat := decimalValue_aux 0 s.

(** The edges [createGraph] inserts, as (source, target, id) triples:
    the input edges whose two endpoints are [present], with their input
    index. *)
Fixpoint createdEdges (present : string -> bool) (i : nat) (es : list InputEdge)
  : list (string * string * string) :=
  match es with
  | [] => []
  | e :: es' =>
      if present (in_source e) && present (in_target e)
      then (in_source e, in_target e, edgeIdOf i) :: createdEdges present (S i) es'
      else createdEdges present (S i) es'
  end.

Definition edgeTriple (e : Edge) : string * string * string := (source e, target e, eid e).

(** Every edge key is a generated key below the graph's counter. *)
Definition keysBelow (g : Graph) : Prop :=
  forall e, In e (gedges g) -> exists j, (j < gnextEdge g)%nat /\ ekey e = generatedEdgeKey j.

(** ** Search and the package list ([handleSearch], [renderPackageList]) *)

(** [String.prototype.toLowerCase] on ASCII text (the text convention of
    [trim] above): [A]-[Z] become [a]-[z], every other character is kept. *)
Definition toLowerChar (c : ascii) : ascii :=
  let n := nat_of_ascii c in
  if Nat.leb 65 n && Nat.leb n 90 then ascii_of_nat (n + 32) else c.

Fixpoint toLower (s : string) : string :=
  match s with
  | EmptyString => EmptyString
  | String c r => String (toLowerChar c) (toLower r)
  end.

Fixpoint startsWith (s p : string) : bool :=
  match p, s with
  | EmptyString, _ => true
  | String c p', String d s' => Ascii.eqb c d && startsWith s' p'
  | String _ _, EmptyString => false
  end.

(** [s.includes(q)]: [q] occurs in [s] at some position. *)
Fixpoint includes (s q : string) : bool :=
  startsWith s q ||
  match s with
  | EmptyString => false
  | String _ r => includes r q
  end.

(** graphology's [outDegree] (self loops included); an unknown node throws. *)
Definition outDegree (g : Graph) (n : string) : Result nat :=
  if hasNode g n
  then Ok (List.length (filter (fun e => String.eqb (source e) n) (gedges g)))
  else Err (NotFoundGraphError "outDegree: node not found").

(** [xs.map(f)] where [f] may throw: the first exception escapes. *)
Fixpoint mapR {A B} (f : A -> Result B) (l : list A) : Result (list B) :=
  match l with
  | [] => Ok []
  | x :: r => bindR (f x) (fun y => bindR (mapR f r) (fun ys => Ok (y :: ys)))
  end.

(** The search dropdown after [handleSearch]: closed, or open with one
    item (package, out-degree) per match. *)
Inductive SearchResults :=
| SearchClosed
| SearchOpen (items : list (string * nat)).

Definition handleSearch (s : AppState) (input : string) : Result SearchResults :=
  let query := trim (toLower input) in
  if Nat.ltb (String.length query) 2 then Ok SearchClosed
  else
    let matches := firstn 15 (filter (fun pkg => includes (toLower pkg) query) (allPackages s)) in
    match matches with
    | [] => Ok SearchClosed
    | _ => bindR (mapR (fun pkg => bindR (outDegree (graph s) pkg) (fun deps => Ok (pkg, deps))) matches)
                 (fun items => Ok (SearchOpen items))
    end.

(** [renderPackageList]: the list items (package, out-degree) of the
    first 500 packages, then the ["<n> total"] counter text. *)
Definition renderPackageList (allPkgs : list string) (g : Graph)
  : Result (list (string * nat) * string) :=
  bindR (mapR (fun pkg => bindR (outDegree g pkg) (fun deps => Ok (pkg, deps))) (firstn 500 allPkgs))
        (fun items => Ok (items, string_of_nat (List.length allPkgs) ++ " total")).

(** The out-degree as a count of the edge list. *)
Definition outDegreeCount (g : Graph) (n : string) : nat :=
  List.length (filter (fun e => String.eqb (source e) n) (gedges g)).

(** ** The sample generator of [loadGraphData] (node list) *)

Definition basePackages : list string :=
  ["glibc"; "gcc"; "binutils"; "coreutils"; "bash"; "perl"; "python";
   "openssl"; "zlib"; "ncurses"; "readline"; "sqlite"; "libxml2";
   "curl"; "git"; "cmake"; "make"; "autoconf"; "automake"; "libtool";
   "pkg-config"; "gettext"; "glib"; "dbus"; "systemd"; "util-linux";
   "shadow"; "pam"; "acl"; "attr"; "libcap"; "audit"; "selinux"].

Definition prefixes : list string := ["lib"; "python-"; "perl-"; "go-"; "rust-"; "node-"; ""].
Definition names : list string :=
  ["utils"; "core"; "tools"; "common"; "extra"; "data"; "net";
   "web"; "crypto"; "db"; "gui"; "cli"; "api"; "sdk"; "auth"].

(** [l[Math.floor(r * l.length)]], rendered by a template literal:
    an index out of range reads [undefined]. *)
Definition pickAt (l : list string) (r : Q) : string :=
  let z := Qfloor (r * inject_Z (Z.of_nat (List.length l))) in
  if Z.ltb z 0 then "undefined"
  else match nth_error l (Z.to_nat z) with Some x => x | None => "undefined" end.

Definition string_of_Z (z : Z) : string :=
  if Z.ltb z 0 then "-" ++ string_of_nat (Z.to_nat (- z)) else string_of_nat (Z.to_nat z).

(** The generation loop, [n] iterations from random call number [k]: per
    node a prefix, a name, the suffix test [Math.random() > 0.5] and, when
    it passes, [Math.floor(Math.random() * 99)]. *)
Fixpoint genNodes (rand : RandomSource) (k : nat) (n : nat) : list InputNode * nat :=
  match n with
  | O => ([], k)
  | S n' =>
      let prefix := pickAt prefixes (rand k) in
      let name := pickAt names (rand (S k)) in
      let '(suffix, k1) :=
        if Qlt_le_dec (1#2) (rand (k + 2)%nat)
        then (string_of_Z (Qfloor (rand (k + 3)%nat * 99)), (k + 4)%nat)
        else ("", (k + 3)%nat) in
      let '(rest, k2) := genNodes rand k1 n' in
      ({| in_id := prefix ++ name ++ suffix; in_isBase := None |} :: rest, k2)
  end.

(** The [nodes] array [loadGraphData] returns: the base packages, then
    generated packages up to [count = 800].  The edge generator that
    follows only reads [nodes]. *)
Definition loadGraphDataNodes (rand : RandomSource) : list InputNode :=
  (map (fun id => {| in_id := id; in_isBase := Some true |}) basePackages ++
   fst (genNodes rand 0 (800 - List.length basePackages)))%list.

(** How many generated nodes take the no-suffix branch. *)
Fixpoint noSuffixCount (rand : RandomSource) (k : nat) (n : nat) : nat :=
  match n with
  | O => O
  | S n' =>
      if Qlt_le_dec (1#2) (rand (k + 2)%nat) then noSuffixCount rand (k + 4) n'
      else S (noSuffixCount rand (k + 3) n')
  end.

(** ** Particle drawing ([renderParticles]) *)

(** The graph-space point a particle is drawn at, with its colour;
    node coordinates are read through [pos] ([getNodeAttribute(n, 'x'/'y')]).
    The viewport transform and the canvas calls are not modelled. *)
Definition renderParticle (pos : string -> Q * Q) (g : Graph) (sc : CycleScenario) (pt : Particle)
  : list (Q * Q * string) :=
  match findCycle sc (cycleId pt) with
  | None => []
  | Some c =>
      match cedges c with
      | [] => []
      | _ =>
          match nth_error (cedges c) (edgeIndex pt) with
          | None => []
          | Some e =>
              if negb (hasNode g (cfrom e)) || negb (hasNode g (cto e)) then []
              else
                let '(fromX, fromY) := pos (cfrom e) in
                let '(toX, toY) := pos (cto e) in
                [(fromX + (toX - fromX) * progress pt, fromY + (toY - fromY) * progress pt, pcolor pt)]
          end
      end
  end.

Definition renderParticles (pos : string -> Q * Q) (g : Graph) (sc : CycleScenario)
  (sys : ParticleSystem) : list (Q * Q * string) :=
  flat_map (renderParticle pos g sc) (particles sys).

Definition between (a b x : Q) : Prop := (a <= x /\ x <= b) \/ (b <= x /\ x <= a).

(** ** What the exit operations read of a state *)

(** The graph as [clearSubgraphMode] / [clearCyclesMode] leave it. *)
Definition restoredGraph (g : Graph) :=
  (map restoreNode (gnodes g), map restoreEdge (gedges g), gnextEdge g).

(** What [clearCyclesMode] reads of a state. *)
Definition cyclesView (s : AppState) :=
  (allPackages s, highlightedNodes s, selectedNode s, isSubgraphMode s, restoredGraph (graph s)).

(** What [clearSubgraphMode] reads of a state. *)
Definition subgraphView (s : AppState) :=
  (allPackages s, selectedNode s, isCyclesMode s, currentCycleScenario s, visibleCycles s,
   waveSystem s, restoredGraph (graph s)).

(** The node and edge attributes [clearSelection] writes back. *)
Definition unselectNode (a : NodeAttributes) : NodeAttributes :=
  setSize (originalSize a) (setColor (originalColor a) a).
Definition unselectEdge (e : Edge) : Edge :=
  setESize (1#2) (setEColor (eoriginalColor e) e).

(** What [clearSelection] reads of a state outside subgraph mode. *)
Definition selectionView (s : AppState) :=
  (allPackages s, highlightedNodes s, isSubgraphMode s, isCyclesMode s, currentCycleScenario s,
   visibleCycles s, waveSystem s,
   (map unselectNode (gnodes (graph s)), map unselectEdge (gedges (graph s)), gnextEdge (graph s))).

(** * Properties *)

(** ** Basic facts on the model *)

Lemma mem_In : forall x l, mem x l = true <-> In x l.
Proof.
  intros x l. unfold mem. rewrite existsb_exists. split.
  - intros [y [Hy Heq]]. apply String.eqb_eq in Heq. subst. exact Hy.
  - intros H. exists x. split; [exact H | apply String.eqb_refl].
Qed.

Lemma mem_false_In : forall x l, mem x l = false <-> ~ In x l.
Proof.
  intros x l. rewrite <- mem_In. destruct (mem x l); split; congruence.
Qed.

Lemma nth_forEachNode : forall g f i,
  nth_error (gnodes (forEachNode g f)) i = option_map f (nth_error (gnodes g) i).
Proof. intros. unfold forEachNode. simpl. apply nth_error_map. Qed.

Lemma nth_forEachEdge : forall g f i,
  nth_error (gedges (forEachEdge g f)) i = option_map f (nth_error (gedges g) i).
Proof. intros. unfold forEachEdge. simpl. apply nth_error_map. Qed.

Lemma in_forEachNode : forall g f a,
  In a (gnodes (forEachNode g f)) <-> exists a0, f a0 = a /\ In a0 (gnodes g).
Proof. intros. unfold forEachNode. simpl. apply in_map_iff. Qed.

Lemma in_forEachEdge : forall g f e,
  In e (gedges (forEachEdge g f)) <-> exists e0, f e0 = e /\ In e0 (gedges g).
Proof. intros. unfold forEachEdge. simpl. apply in_map_iff. Qed.

(** Restoring from any state gives the baseline attributes. *)
Lemma restoreGraph_nodes : forall g a,
  In a (gnodes (forEachEdge (forEachNode g restoreNode) restoreEdge)) ->
  color a = originalColor a /\ size a = originalSize a /\ hidden a = Some false.
Proof.
  intros g a H. apply in_forEachNode in H. destruct H as [a0 [<- _]].
  repeat split.
Qed.

Lemma restoreGraph_edges : forall g e,
  In e (gedges (forEachEdge (forEachNode g restoreNode) restoreEdge)) ->
  ecolor e = eoriginalColor e /\ esize e = 1#2 /\ ehidden e = Some false.
Proof.
  intros g e H. apply in_forEachEdge in H. destruct H as [e0 [<- _]].
  repeat split.
Qed.

(** ** Restoring baseline attributes *)

(** A scenario on the A -> B -> C graph that leaves C out. *)
Definition abScenario : CycleScenario :=
  {| scid := "s2"; queriedPackages := ["A"];
     cycles := [{| cid := "c1"; cnodes := ["A"; "B"];
                   cedges := [{| cfrom := "A"; cto := "B" |}; {| cfrom := "B"; cto := "A" |}];
                   ccolor := "#ff0000" |}];
     intermediateNodes := [] |}.
Definition abCatalog : CyclesData := {| scenarios := [abScenario] |}.

(** The A -> B -> C graph in cycles mode with scenario [abScenario]. *)
Definition abcCycles : AppState := fst (detectCycles COLORS_graph abcState "A" abCatalog 0).

Lemma abcState_reachable : reachable COLORS_graph abcState.
Proof. apply (r_init COLORS_graph abcData abcGraph). reflexivity. Qed.

Lemma abcCycles_reachable : reachable COLORS_graph abcCycles.
Proof. apply r_detect. exact abcState_reachable. Qed.

(** C4 (amended). [clearSubgraphMode] and [clearCyclesMode] put every
    node back to (originalColor, originalSize, hidden = false) and every
    edge to (originalColor, 0.5, hidden = false), from any state.
    [clearSelection] (when not suppressed by subgraph mode) restores the
    node colours and sizes and the edge colours and sizes, but leaves every
    [hidden] flag as it was. *)
Theorem clear_restores_baseline : forall s,
  (forall a, In a (gnodes (graph (clearSubgraphMode s))) ->
     color a = originalColor a /\ size a = originalSize a /\ hidden a = Some false) /\
  (forall e, In e (gedges (graph (clearSubgraphMode s))) ->
     ecolor e = eoriginalColor e /\ esize e = 1#2 /\ ehidden e = Some false) /\
  (forall a, In a (gnodes (graph (clearCyclesMode s))) ->
     color a = originalColor a /\ size a = originalSize a /\ hidden a = Some false) /\
  (forall e, In e (gedges (graph (clearCyclesMode s))) ->
     ecolor e = eoriginalColor e /\ esize e = 1#2 /\ ehidden e = Some false) /\
  (isSubgraphMode s = false ->
     (forall i a, nth_error (gnodes (graph s)) i = Some a ->
        exists a', nth_error (gnodes (graph (clearSelection s))) i = Some a' /\
          nkey a' = nkey a /\ color a' = originalColor a' /\ size a' = originalSize a' /\
          originalColor a' = originalColor a /\ originalSize a' = originalSize a /\
          hidden a' = hidden a) /\
     (forall i e, nth_error (gedges (graph s)) i = Some e ->
        exists e', nth_error (gedges (graph (clearSelection s))) i = Some e' /\
          ekey e' = ekey e /\ ecolor e' = eoriginalColor e' /\ esize e' = 1#2 /\
          eoriginalColor e' = eoriginalColor e /\ ehidden e' = ehidden e)).
Proof.
  intros s. split; [|split; [|split; [|split]]].
  - apply restoreGraph_nodes.
  - apply restoreGraph_edges.
  - apply restoreGraph_nodes.
  - apply restoreGraph_edges.
  - intros Hsub. unfold clearSelection. rewrite Hsub. simpl. split.
    + intros i a Ha. unfold forEachEdge. simpl.
      rewrite nth_error_map. simpl. rewrite Ha. simpl.
      eexists. split; [reflexivity|]. repeat split.
    + intros i e He. unfold forEachEdge. simpl.
      rewrite nth_error_map. simpl. rewrite He. simpl.
      eexists. split; [reflexivity|]. repeat split.
Qed.

Lemma clear_restores_baseline_witness :
  isSubgraphMode abcCycles = false /\
  nth_error (gnodes (graph (clearSelection abcCycles))) 2 <> None.
Proof.
  split; [reflexivity|].
  destruct (proj2 (proj2 (proj2 (proj2 (clear_restores_baseline abcCycles)))) eq_refl) as [Hn _].
  destruct (Hn 2%nat {| nkey := "C"; label := "C"; isBase := false; size := 4;
                        color := "#1e2830"; originalColor := "#4a5568"; originalSize := 4;
                        hidden := Some true |} eq_refl) as [a' [Ha' _]].
  rewrite Ha'. discriminate.
Defined.

(** C4 counterexample: in a reachable cycles-mode state node C is hidden;
    [clearSelection] runs (subgraph mode is off) and C stays hidden. *)
Lemma clearSelection_keeps_hidden :
  reachable COLORS_graph abcCycles /\ isSubgraphMode abcCycles = false /\
  exists a, In a (gnodes (graph (clearSelection abcCycles))) /\ nkey a = "C" /\
            hidden a = Some true.
Proof.
  split; [exact abcCycles_reachable|]. split; [reflexivity|].
  eexists. split.
  - simpl. right. right. left. reflexivity.
  - split; reflexivity.
Qed.

(** ** Failing mode switches *)

(** C1 (amended). A call of [applySubgraphFilter] or [detectCycles] that
    ends in an alert (no valid package, empty query, no matching scenario,
    failed validation) has already torn down the other mode when it was
    active: the resulting state is [clearCyclesMode s] (resp.
    [clearSubgraphMode s]) if that mode was on, and [s] itself otherwise. *)
Theorem failed_switch_tears_down_other_mode : forall C s input d now msg,
  (snd (applySubgraphFilter C s input) = Alerted msg ->
   fst (applySubgraphFilter C s input) = if isCyclesMode s then clearCyclesMode s else s) /\
  (snd (detectCycles C s input d now) = Alerted msg ->
   fst (detectCycles C s input d now) = if isSubgraphMode s then clearSubgraphMode s else s).
Proof.
  intros C s input d now msg. split.
  - unfold applySubgraphFilter.
    set (s1 := if isCyclesMode s then clearCyclesMode s else s).
    destruct (String.eqb (trim input) "") eqn:E; [simpl; discriminate|].
    destruct (filterPackages (graph s1) (trim input)) as [|p ps] eqn:P; [simpl; reflexivity|].
    destruct (expandNeighbors (graph s1) (p :: ps) (setOf (p :: ps))); simpl; discriminate.
  - unfold detectCycles.
    set (s1 := if isSubgraphMode s then clearSubgraphMode s else s).
    destruct (String.eqb (trim input) "") eqn:E; [simpl; reflexivity|].
    destruct (filter (fun x => negb (String.eqb x "")) (map trim (splitNL (trim input))))
      as [|q qs]; [simpl; reflexivity|].
    destruct (findMatchingScenario d (q :: qs)) as [sc|]; [|simpl; reflexivity].
    destruct (validateScenario sc (setOf (allPackages s1))) as [valid missing].
    destruct valid; simpl; [discriminate|reflexivity].
Qed.

(** The A -> B -> C graph filtered to the neighbourhood of A. *)
Definition abcSub : AppState := fst (applySubgraphFilter COLORS_graph abcState "A").

Lemma abcSub_reachable : reachable COLORS_graph abcSub.
Proof. apply r_apply. exact abcState_reachable. Qed.

Lemma failed_switch_tears_down_other_mode_witness :
  snd (detectCycles COLORS_graph abcSub "" abCatalog 0) =
    Alerted "Please enter package names to detect cycles." /\
  fst (detectCycles COLORS_graph abcSub "" abCatalog 0) = clearSubgraphMode abcSub.
Proof.
  split; [reflexivity|].
  apply (proj2 (failed_switch_tears_down_other_mode COLORS_graph abcSub "" abCatalog 0
                  "Please enter package names to detect cycles.")).
  reflexivity.
Defined.

(** C1 counterexample: from a reachable subgraph-mode state, a
    [detectCycles] call with an empty query fails with an alert and yet
    turns subgraph mode off. *)
Lemma failed_detect_changes_state :
  reachable COLORS_graph abcSub /\ isSubgraphMode abcSub = true /\
  snd (detectCycles COLORS_graph abcSub "" abCatalog 0) =
    Alerted "Please enter package names to detect cycles." /\
  isSubgraphMode (fst (detectCycles COLORS_graph abcSub "" abCatalog 0)) = false /\
  fst (detectCycles COLORS_graph abcSub "" abCatalog 0) <> abcSub.
Proof.
  split; [exact abcSub_reachable|].
  split; [reflexivity|]. split; [reflexivity|]. split; [reflexivity|].
  intros H. assert (Hm : isSubgraphMode (fst (detectCycles COLORS_graph abcSub "" abCatalog 0))
                         = isSubgraphMode abcSub) by (rewrite H; reflexivity).
  vm_compute in Hm. discriminate.
Qed.

(** ** Empty filter input *)

(** C10 (amended). On an empty or white-space filter input
    [applySubgraphFilter] raises no alert: it tears down cycles mode if it
    is active and then behaves as [clearSubgraphMode], so subgraph mode is
    off and every node and edge has its baseline attributes; when cycles
    mode is off the result is exactly [clearSubgraphMode s]. *)
Theorem empty_filter_clears_subgraph : forall C s input,
  trim input = "" ->
  applySubgraphFilter C s input =
    (clearSubgraphMode (if isCyclesMode s then clearCyclesMode s else s), Done) /\
  (isCyclesMode s = false -> applySubgraphFilter C s input = (clearSubgraphMode s, Done)) /\
  isSubgraphMode (fst (applySubgraphFilter C s input)) = false /\
  (forall a, In a (gnodes (graph (fst (applySubgraphFilter C s input)))) ->
     color a = originalColor a /\ size a = originalSize a /\ hidden a = Some false) /\
  (forall e, In e (gedges (graph (fst (applySubgraphFilter C s input)))) ->
     ecolor e = eoriginalColor e /\ esize e = 1#2 /\ ehidden e = Some false).
Proof.
  intros C s input Ht.
  assert (Heq : applySubgraphFilter C s input =
    (clearSubgraphMode (if isCyclesMode s then clearCyclesMode s else s), Done)).
  { unfold applySubgraphFilter. rewrite Ht. reflexivity. }
  split; [exact Heq|]. split.
  - intros Hc. rewrite Heq, Hc. reflexivity.
  - rewrite Heq. simpl. split; [reflexivity|]. split.
    + apply restoreGraph_nodes.
    + apply restoreGraph_edges.
Qed.

Lemma empty_filter_clears_subgraph_witness :
  trim " " = "" /\
  isSubgraphMode (fst (applySubgraphFilter COLORS_graph abcSub " ")) = false.
Proof.
  split; [reflexivity|].
  apply (empty_filter_clears_subgraph COLORS_graph abcSub " "). reflexivity.
Defined.

(** C10 counterexample: in the reachable cycles-mode state, an empty
    filter input also ends cycles mode, which [clearSubgraphMode] alone
    does not. *)
Lemma empty_filter_differs_from_clear :
  reachable COLORS_graph abcCycles /\
  isCyclesMode (fst (applySubgraphFilter COLORS_graph abcCycles "")) = false /\
  isCyclesMode (clearSubgraphMode abcCycles) = true /\
  applySubgraphFilter COLORS_graph abcCycles "" <> (clearSubgraphMode abcCycles, Done).
Proof.
  split; [exact abcCycles_reachable|]. split; [reflexivity|]. split; [reflexivity|].
  intros H. assert (Hm : isCyclesMode (fst (applySubgraphFilter COLORS_graph abcCycles ""))
                         = isCyclesMode (clearSubgraphMode abcCycles)) by (rewrite H; reflexivity).
  vm_compute in Hm. discriminate.
Qed.

(** ** Selecting an absent node *)

(** C2 (amended). [selectNode] has no presence check: for an id absent
    from the graph it records the id as the selected node and then the
    neighbour query throws graphology's not-found error; node and edge
    attributes are untouched.  The silent no-op on an absent id is
    [focusOnNode]'s guard. *)
Theorem selectNode_absent : forall C s nodeId,
  hasNode (graph s) nodeId = false ->
  selectNode C s nodeId =
    (set_selectedNode (Some nodeId) s, Raised (NotFoundGraphError "outNeighbors: node not found")) /\
  graph (fst (selectNode C s nodeId)) = graph s /\
  focusOnNode C s nodeId = (s, Done).
Proof.
  intros C s nodeId H. unfold selectNode, outNeighbors. simpl. rewrite H.
  split; [reflexivity|]. split; [reflexivity|].
  unfold focusOnNode. rewrite H. reflexivity.
Qed.

Lemma selectNode_absent_witness :
  hasNode (graph abcState) "Z" = false /\ focusOnNode COLORS_graph abcState "Z" = (abcState, Done).
Proof.
  split; [reflexivity|].
  apply (selectNode_absent COLORS_graph abcState "Z"). reflexivity.
Defined.

(** C2 counterexample: selecting an absent id raises and changes the
    selected node. *)
Lemma selectNode_absent_not_noop :
  hasNode (graph abcState) "Z" = false /\
  snd (selectNode COLORS_graph abcState "Z") = Raised (NotFoundGraphError "outNeighbors: node not found") /\
  selectedNode (fst (selectNode COLORS_graph abcState "Z")) = Some "Z" /\
  selectedNode abcState = None.
Proof. repeat split. Qed.

(** ** Edge insertion at construction *)

Definition keysGenerated (g : Graph) : Prop :=
  forall e, In e (gedges g) -> exists i, ekey e = generatedEdgeKey i.

Lemma hasEdge_edgeId_false : forall g i, keysGenerated g -> hasEdge g (edgeIdOf i) = false.
Proof.
  intros g i H. unfold hasEdge.
  destruct (existsb (fun e => String.eqb (ekey e) (edgeIdOf i)) (gedges g)) eqn:X; [|reflexivity].
  apply existsb_exists in X. destruct X as [e [Hin Heq]].
  destruct (H e Hin) as [j Hj]. rewrite Hj in Heq. discriminate Heq.
Qed.

Lemma hasNode_same_nodes : forall g g' n, gnodes g' = gnodes g -> hasNode g' n = hasNode g n.
Proof. intros g g' n H. unfold hasNode. rewrite H. reflexivity. Qed.

Lemma hasPair_app : forall l1 l2 s t,
  existsb (fun e => String.eqb (source e) s && String.eqb (target e) t) l1 = true ->
  existsb (fun e => String.eqb (source e) s && String.eqb (target e) t) (l1 ++ l2) = true.
Proof. intros. rewrite existsb_app, H. reflexivity. Qed.

Lemma addEdge_ok : forall g s t i c sz oc g',
  addEdge g s t i c sz oc = Ok g' ->
  gnodes g' = gnodes g /\ (forall a b, hasPair g a b = true -> hasPair g' a b = true) /\
  hasPair g' s t = true /\ (keysGenerated g -> keysGenerated g').
Proof.
  intros g s t i c sz oc g' H. unfold addEdge in H.
  destruct (hasNode g s), (hasNode g t), (hasPair g s t), (hasEdge g (generatedEdgeKey (gnextEdge g)));
    simpl in H; try discriminate.
  injection H as <-. simpl. split; [reflexivity|]. split; [|split].
  - intros a b Hab. unfold hasPair in *. simpl. apply hasPair_app. exact Hab.
  - unfold hasPair. simpl. rewrite existsb_app. simpl.
    rewrite !String.eqb_refl. simpl. apply orb_true_r.
  - intros K e Hin. apply in_app_or in Hin. destruct Hin as [Hin | [<- | []]].
    + apply K. exact Hin.
    + exists (gnextEdge g). reflexivity.
Qed.

Lemma addEdges_cons : forall C g i e es,
  addEdges C g i (e :: es) =
  bindR (if hasNode g (in_source e) && hasNode g (in_target e) then
           if negb (hasEdge g (edgeIdOf i)) then
             addEdge g (in_source e) (in_target e) (edgeIdOf i) (edgeDefault C) (1#2) (edgeDefault C)
           else Ok g
         else Ok g) (fun g' => addEdges C g' (S i) es).
Proof. reflexivity. Qed.

Lemma addEdges_ok : forall C es g i g',
  addEdges C g i es = Ok g' ->
  gnodes g' = gnodes g /\ (forall a b, hasPair g a b = true -> hasPair g' a b = true) /\
  (keysGenerated g -> keysGenerated g').
Proof.
  intros C es. induction es as [|e es IH]; intros g i g' H.
  - injection H as <-. split; [reflexivity|]. split; auto.
  - rewrite addEdges_cons in H.
    destruct (hasNode g (in_source e) && hasNode g (in_target e)).
    + destruct (negb (hasEdge g (edgeIdOf i))).
      * destruct (addEdge g _ _ _ _ _ _) as [g1|] eqn:A; simpl in H; [|discriminate].
        apply addEdge_ok in A. destruct A as [N1 [P1 [_ K1]]].
        apply IH in H. destruct H as [N2 [P2 K2]].
        split; [congruence|]. split; auto.
      * simpl in H. apply IH in H. exact H.
    + simpl in H. apply IH in H. exact H.
Qed.

Lemma addEdges_app : forall C (l1 l2 : list InputEdge) g i,
  addEdges C g i (l1 ++ l2)%list =
  bindR (addEdges C g i l1) (fun g' => addEdges C g' (i + List.length l1) l2).
Proof.
  intros C l1. induction l1 as [|e l1 IH]; intros l2 g i.
  - simpl. rewrite Nat.add_0_r. reflexivity.
  - simpl app. rewrite !addEdges_cons.
    destruct (if hasNode g (in_source e) && hasNode g (in_target e) then _ else Ok g) as [g1|err];
      simpl; [|reflexivity].
    rewrite IH. rewrite Nat.add_succ_r. reflexivity.
Qed.

Lemma addNodes_edges : forall C ns g g', addNodes C g ns = Ok g' -> gedges g' = gedges g.
Proof.
  intros C ns. induction ns as [|n ns IH]; intros g g' H.
  - injection H as <-. reflexivity.
  - simpl in H. unfold addNode in H. destruct (hasNode g (nkey (createNodeAttrs C n)));
      simpl in H; [discriminate|].
    apply IH in H. rewrite H. reflexivity.
Qed.

(** A second input edge on an already inserted, existing pair. *)
Lemma addEdges_dup_raises : forall C g i e es,
  keysGenerated g -> hasNode g (in_source e) = true -> hasNode g (in_target e) = true ->
  hasPair g (in_source e) (in_target e) = true ->
  exists err, addEdges C g i (e :: es) = Err err.
Proof.
  intros C g i e es K Hs Ht P. rewrite addEdges_cons, Hs, Ht, hasEdge_edgeId_false by exact K.
  simpl. unfold addEdge. rewrite Hs, Ht, P. simpl. eexists. reflexivity.
Qed.

(** C3 (code bug). Whenever two input edges name the same ordered pair of
    existing nodes, [createGraph] raises: the duplicate check looks up the
    edge key [e<i>], a key graphology never assigns, so the second pair
    reaches graphology's [addEdge], which refuses it on a simple graph. *)
Theorem createGraph_duplicate_pair_raises : forall C data g0 pre mid post e e',
  addNodes C emptyGraph (data_nodes data) = Ok g0 ->
  hasNode g0 (in_source e) = true -> hasNode g0 (in_target e) = true ->
  in_source e' = in_source e -> in_target e' = in_target e ->
  data_edges data = (pre ++ e :: mid ++ e' :: post)%list ->
  exists err, createGraph C data = Err err.
Proof.
  intros C data g0 pre mid post e e' HN Hs Ht Es Et HE.
  assert (K0 : keysGenerated g0).
  { intros x Hx. apply addNodes_edges in HN. rewrite HN in Hx. destruct Hx. }
  unfold createGraph. rewrite HN. cbn [bindR]. rewrite HE, addEdges_app.
  destruct (addEdges C g0 0 pre) as [g1|err] eqn:A1; cbn [bindR]; [|eexists; reflexivity].
  apply addEdges_ok in A1. destruct A1 as [N1 [_ K1]]. specialize (K1 K0).
  rewrite addEdges_cons.
  rewrite (hasNode_same_nodes g0 g1) by exact N1. rewrite (hasNode_same_nodes g0 g1) by exact N1.
  rewrite Hs, Ht, hasEdge_edgeId_false by exact K1. cbn [andb negb].
  destruct (addEdge g1 _ _ _ _ _ _) as [g2|err] eqn:A2; cbn [bindR]; [|eexists; reflexivity].
  apply addEdge_ok in A2. destruct A2 as [N2 [_ [P2 K2]]]. specialize (K2 K1).
  rewrite addEdges_app.
  destruct (addEdges C g2 _ mid) as [g3|err] eqn:A3; cbn [bindR]; [|eexists; reflexivity].
  apply addEdges_ok in A3. destruct A3 as [N3 [P3 K3]]. specialize (K3 K2).
  apply addEdges_dup_raises; [exact K3 | | | ].
  - rewrite Es, (hasNode_same_nodes g0 g3) by congruence. exact Hs.
  - rewrite Et, (hasNode_same_nodes g0 g3) by congruence. exact Ht.
  - rewrite Es, Et. apply P3. exact P2.
Qed.

Lemma createGraph_duplicate_pair_raises_witness :
  exists err, createGraph COLORS_graph
    {| data_nodes := [nd "A"; nd "B"]; data_edges := [ed "A" "B"; ed "A" "B"] |} = Err err.
Proof.
  apply (createGraph_duplicate_pair_raises COLORS_graph
    {| data_nodes := [nd "A"; nd "B"]; data_edges := [ed "A" "B"; ed "A" "B"] |}
    (fromOk emptyGraph (addNodes COLORS_graph emptyGraph [nd "A"; nd "B"]))
    [] [] [] (ed "A" "B") (ed "A" "B")); reflexivity.
Defined.

(** ** Topology is untouched by attribute updates *)

Section Topology.

Variable fN : NodeAttributes -> NodeAttributes.
Variable fE : Edge -> Edge.
Hypothesis fN_key : forall a, nkey (fN a) = nkey a.
Hypothesis fE_src : forall e, source (fE e) = source e.
Hypothesis fE_tgt : forall e, target (fE e) = target e.

Lemma hasNode_forEachNode : forall g n, hasNode (forEachNode g fN) n = hasNode g n.
Proof.
  intros g n. unfold hasNode, forEachNode. simpl.
  induction (gnodes g) as [|a l IH]; simpl; [reflexivity|]. rewrite fN_key, IH. reflexivity.
Qed.

Lemma targets_map : forall n l,
  map target (filter (fun e => String.eqb (source e) n) (map fE l)) =
  map target (filter (fun e => String.eqb (source e) n) l).
Proof.
  intros n l. induction l as [|e l IH]; simpl; [reflexivity|].
  rewrite fE_src. destruct (String.eqb (source e) n); simpl; rewrite ?fE_tgt, IH; reflexivity.
Qed.

Lemma sources_map : forall n l,
  map source (filter (fun e => String.eqb (target e) n) (map fE l)) =
  map source (filter (fun e => String.eqb (target e) n) l).
Proof.
  intros n l. induction l as [|e l IH]; simpl; [reflexivity|].
  rewrite fE_tgt. destruct (String.eqb (target e) n); simpl; rewrite ?fE_src, IH; reflexivity.
Qed.

Lemma outNeighbors_forEach : forall g n,
  outNeighbors (forEachEdge (forEachNode g fN) fE) n = outNeighbors g n.
Proof.
  intros g n. unfold outNeighbors.
  change (hasNode (forEachEdge (forEachNode g fN) fE) n) with (hasNode (forEachNode g fN) n).
  rewrite hasNode_forEachNode. simpl. rewrite targets_map. reflexivity.
Qed.

Lemma inNeighbors_forEach : forall g n,
  inNeighbors (forEachEdge (forEachNode g fN) fE) n = inNeighbors g n.
Proof.
  intros g n. unfold inNeighbors.
  change (hasNode (forEachEdge (forEachNode g fN) fE) n) with (hasNode (forEachNode g fN) n).
  rewrite hasNode_forEachNode. simpl. rewrite sources_map. reflexivity.
Qed.

End Topology.

Lemma filterPackages_ext : forall g g' t,
  (forall n, hasNode g' n = hasNode g n) -> filterPackages g' t = filterPackages g t.
Proof.
  intros g g' t H. unfold filterPackages. apply filter_ext. intros x. rewrite H. reflexivity.
Qed.

Lemma expandNeighbors_ext : forall g g' ps acc,
  (forall n, outNeighbors g' n = outNeighbors g n) ->
  (forall n, inNeighbors g' n = inNeighbors g n) ->
  expandNeighbors g' ps acc = expandNeighbors g ps acc.
Proof.
  intros g g' ps. induction ps as [|p ps IH]; intros acc Ho Hi; simpl; [reflexivity|].
  rewrite Ho, Hi. destruct (outNeighbors g p); simpl; [|reflexivity].
  destruct (inNeighbors g p); simpl; [|reflexivity]. apply IH; assumption.
Qed.

Lemma restore_topology : forall g,
  (forall n, hasNode (forEachEdge (forEachNode g restoreNode) restoreEdge) n = hasNode g n) /\
  (forall n, outNeighbors (forEachEdge (forEachNode g restoreNode) restoreEdge) n = outNeighbors g n) /\
  (forall n, inNeighbors (forEachEdge (forEachNode g restoreNode) restoreEdge) n = inNeighbors g n) /\
  map ekey (gedges (forEachEdge (forEachNode g restoreNode) restoreEdge)) = map ekey (gedges g).
Proof.
  intros g. split; [|split; [|split]].
  - intros n. change (hasNode (forEachEdge (forEachNode g restoreNode) restoreEdge) n)
      with (hasNode (forEachNode g restoreNode) n).
    apply hasNode_forEachNode. reflexivity.
  - intros n. apply outNeighbors_forEach; reflexivity.
  - intros n. apply inNeighbors_forEach; reflexivity.
  - simpl. rewrite map_map. reflexivity.
Qed.

(** ** Sets and the 1-hop expansion *)

Lemma In_fold_setAdd : forall l acc x, In x (fold_left setAdd l acc) <-> In x acc \/ In x l.
Proof.
  intros l. induction l as [|y l IH]; intros acc x; simpl.
  - tauto.
  - rewrite IH. unfold setAdd. destruct (mem y acc) eqn:M.
    + apply mem_In in M. split; [tauto|]. intros [H|[<-|H]]; auto.
    + rewrite in_app_iff. simpl. tauto.
Qed.

Lemma In_setOf : forall l x, In x (setOf l) <-> In x l.
Proof. intros l x. unfold setOf. rewrite In_fold_setAdd. simpl. tauto. Qed.

Lemma expandNeighbors_spec : forall g ps acc,
  (forall p, In p ps -> hasNode g p = true) ->
  exists ex, expandNeighbors g ps acc = Ok ex /\
    forall x, In x ex <-> In x acc \/
      exists p outs ins, In p ps /\ outNeighbors g p = Ok outs /\ inNeighbors g p = Ok ins /\
                         (In x outs \/ In x ins).
Proof.
  intros g ps. induction ps as [|p ps IH]; intros acc Hps.
  - exists acc. split; [reflexivity|]. intros x. split; [tauto|].
    intros [H|[p [outs [ins [[] _]]]]]. exact H.
  - assert (Hp : hasNode g p = true) by (apply Hps; left; reflexivity).
    assert (Ho : outNeighbors g p =
                 Ok (map target (filter (fun e => String.eqb (source e) p) (gedges g))))
      by (unfold outNeighbors; rewrite Hp; reflexivity).
    assert (Hi : inNeighbors g p =
                 Ok (map source (filter (fun e => String.eqb (target e) p) (gedges g))))
      by (unfold inNeighbors; rewrite Hp; reflexivity).
    set (outs := map target (filter (fun e => String.eqb (source e) p) (gedges g))) in *.
    set (ins := map source (filter (fun e => String.eqb (target e) p) (gedges g))) in *.
    destruct (IH (fold_left setAdd ins (fold_left setAdd outs acc))) as [ex [Hex Hx]].
    { intros q Hq. apply Hps. right. exact Hq. }
    exists ex. split.
    + simpl. rewrite Ho, Hi. exact Hex.
    + intros x. rewrite Hx, !In_fold_setAdd. split.
      * intros [[[H|H]|H]|[q [o [i [Hq [Hoq [Hiq Hin]]]]]]].
        -- left. exact H.
        -- right. exists p, outs, ins. simpl. auto.
        -- right. exists p, outs, ins. simpl. auto.
        -- right. exists q, o, i. simpl. auto.
      * intros [H|[q [o [i [[<-|Hq] [Hoq [Hiq Hin]]]]]]].
        -- left. left. left. exact H.
        -- rewrite Ho in Hoq. rewrite Hi in Hiq. injection Hoq as <-. injection Hiq as <-.
           destruct Hin; [left; left; right | left; right]; assumption.
        -- right. exists q, o, i. auto.
Qed.

Lemma NoDup_map_eq : forall (f : Edge -> string) l x y,
  NoDup (map f l) -> In x l -> In y l -> f x = f y -> x = y.
Proof.
  intros f l. induction l as [|z l IH]; intros x y Hnd Hx Hy Hf; [destruct Hx|].
  simpl in Hnd. inversion Hnd as [|? ? Hnot Hnd']; subst.
  destruct Hx as [<-|Hx], Hy as [<-|Hy].
  - reflexivity.
  - exfalso. apply Hnot. rewrite Hf. apply in_map. exact Hy.
  - exfalso. apply Hnot. rewrite <- Hf. apply in_map. exact Hx.
  - apply IH; assumption.
Qed.

(** ** The subgraph filter *)

Lemma teardown_cycles_topology : forall s,
  let g1 := graph (if isCyclesMode s then clearCyclesMode s else s) in
  (forall n, hasNode g1 n = hasNode (graph s) n) /\
  (forall n, outNeighbors g1 n = outNeighbors (graph s) n) /\
  (forall n, inNeighbors g1 n = inNeighbors (graph s) n) /\
  map ekey (gedges g1) = map ekey (gedges (graph s)).
Proof.
  intros s g1. subst g1. destruct (isCyclesMode s).
  - apply restore_topology.
  - repeat split.
Qed.

Lemma filterPackages_empty : forall g, filterPackages g "" = [].
Proof. reflexivity. Qed.

(** Edge keys are unique in every reachable state. *)

Lemma keys_forEachEdge : forall g f, (forall e, ekey (f e) = ekey e) ->
  map ekey (gedges (forEachEdge g f)) = map ekey (gedges g).
Proof.
  intros g f Hf. simpl. rewrite map_map. apply map_ext. exact Hf.
Qed.

Ltac edge_keys :=
  intros; unfold selectEdgeColors, subgraphEdge, cycleEdge, restoreEdge;
  repeat match goal with |- context [if ?b then _ else _] => destruct b end; reflexivity.

Ltac keys_solve :=
  repeat first
    [ rewrite keys_forEachEdge by edge_keys
    | progress cbn [graph gedges set_graph set_selectedNode set_subgraph set_cycles set_waveSystem
                    forEachNode startParticleAnimation fst snd]
    | reflexivity ].

Lemma keys_selectNode : forall C s n,
  map ekey (gedges (graph (fst (selectNode C s n)))) = map ekey (gedges (graph s)).
Proof.
  intros C s n. unfold selectNode.
  destruct (outNeighbors _ n); [|reflexivity]. destruct (inNeighbors _ n); [|reflexivity].
  keys_solve.
Qed.

Lemma keys_focusOnNode : forall C s n,
  map ekey (gedges (graph (fst (focusOnNode C s n)))) = map ekey (gedges (graph s)).
Proof.
  intros C s n. unfold focusOnNode. destruct (negb _); [reflexivity|]. apply keys_selectNode.
Qed.

Lemma keys_clearSelection : forall s,
  map ekey (gedges (graph (clearSelection s))) = map ekey (gedges (graph s)).
Proof. intros s. unfold clearSelection. destruct (isSubgraphMode s); keys_solve. Qed.

Lemma keys_clearSubgraphMode : forall s,
  map ekey (gedges (graph (clearSubgraphMode s))) = map ekey (gedges (graph s)).
Proof. intros s. unfold clearSubgraphMode. keys_solve. Qed.

Lemma keys_clearCyclesMode : forall s,
  map ekey (gedges (graph (clearCyclesMode s))) = map ekey (gedges (graph s)).
Proof. intros s. unfold clearCyclesMode. keys_solve. Qed.

Lemma keys_applySubgraphFilter : forall C s t,
  map ekey (gedges (graph (fst (applySubgraphFilter C s t)))) = map ekey (gedges (graph s)).
Proof.
  intros C s t. unfold applySubgraphFilter.
  assert (H1 : map ekey (gedges (graph (if isCyclesMode s then clearCyclesMode s else s)))
               = map ekey (gedges (graph s)))
    by (destruct (isCyclesMode s); [apply keys_clearCyclesMode | reflexivity]).
  destruct (String.eqb _ ""); [cbn [fst]; rewrite keys_clearSubgraphMode; exact H1|].
  destruct (filterPackages _ _); [exact H1|].
  destruct (expandNeighbors _ _ _); [|exact H1].
  keys_solve. exact H1.
Qed.

Lemma keys_applyCycleVisualization : forall C s,
  map ekey (gedges (graph (applyCycleVisualization C s))) = map ekey (gedges (graph s)).
Proof.
  intros C s. unfold applyCycleVisualization.
  destruct (currentCycleScenario s); [|reflexivity].
  destruct (classifyNodes c) as [[q i] a]. keys_solve.
Qed.

Lemma keys_detectCycles : forall C s t d now,
  map ekey (gedges (graph (fst (detectCycles C s t d now)))) = map ekey (gedges (graph s)).
Proof.
  intros C s t d now. unfold detectCycles.
  assert (H1 : map ekey (gedges (graph (if isSubgraphMode s then clearSubgraphMode s else s)))
               = map ekey (gedges (graph s)))
    by (destruct (isSubgraphMode s); [apply keys_clearSubgraphMode | reflexivity]).
  destruct (String.eqb _ ""); [exact H1|].
  destruct (filter _ _); [exact H1|].
  destruct (findMatchingScenario _ _); [|exact H1].
  destruct (validateScenario _ _) as [valid missing]. destruct (negb valid); [exact H1|].
  cbn [fst]. unfold startParticleAnimation.
  cbn [graph set_waveSystem]. rewrite keys_applyCycleVisualization. exact H1.
Qed.

Lemma keys_toggleCycleVisibility : forall C s c now,
  map ekey (gedges (graph (toggleCycleVisibility C s c now))) = map ekey (gedges (graph s)).
Proof.
  intros C s c now. unfold toggleCycleVisibility.
  destruct (currentCycleScenario s); [|reflexivity].
  destruct (waveSystem _); unfold startParticleAnimation; cbn [graph set_waveSystem];
    rewrite keys_applyCycleVisualization; reflexivity.
Qed.

Lemma hasEdge_false_not_In : forall g k, hasEdge g k = false -> ~ In k (map ekey (gedges g)).
Proof.
  intros g k H Hin. apply in_map_iff in Hin. destruct Hin as [e [He Hin]].
  unfold hasEdge in H. assert (Hx : existsb (fun e => String.eqb (ekey e) k) (gedges g) = true).
  { apply existsb_exists. exists e. split; [exact Hin | apply String.eqb_eq; exact He]. }
  congruence.
Qed.

Lemma addEdge_NoDup : forall g s t i c sz oc g',
  addEdge g s t i c sz oc = Ok g' ->
  NoDup (map ekey (gedges g)) -> NoDup (map ekey (gedges g')).
Proof.
  intros g s t i c sz oc g' H Hnd. unfold addEdge in H.
  destruct (hasNode g s), (hasNode g t), (hasPair g s t); simpl in H; try discriminate.
  destruct (hasEdge g (generatedEdgeKey (gnextEdge g))) eqn:E; [discriminate|].
  injection H as <-. simpl. rewrite map_app. simpl.
  apply NoDup_app; [exact Hnd | constructor; [intros []|constructor] |].
  intros a Ha [<-|[]]. exact (hasEdge_false_not_In _ _ E Ha).
Qed.

Lemma addEdges_NoDup : forall C es g i g',
  addEdges C g i es = Ok g' ->
  NoDup (map ekey (gedges g)) -> NoDup (map ekey (gedges g')).
Proof.
  intros C es. induction es as [|e es IH]; intros g i g' H Hnd.
  - injection H as <-. exact Hnd.
  - rewrite addEdges_cons in H.
    destruct (hasNode g (in_source e) && hasNode g (in_target e)); [|exact (IH g (S i) g' H Hnd)].
    destruct (negb (hasEdge g (edgeIdOf i))); [|exact (IH g (S i) g' H Hnd)].
    destruct (addEdge g _ _ _ _ _ _) as [g1|err] eqn:E; [|discriminate].
    exact (IH g1 (S i) g' H (addEdge_NoDup _ _ _ _ _ _ _ _ E Hnd)).
Qed.

Lemma reachable_edge_keys_NoDup : forall C s, reachable C s -> NoDup (map ekey (gedges (graph s))).
Proof.
  intros C s R. induction R.
  - unfold createGraph in H. destruct (addNodes C emptyGraph (data_nodes data)) as [g0|err] eqn:E;
      [|discriminate].
    simpl in H. apply (addEdges_NoDup _ _ _ _ _ H).
    rewrite (addNodes_edges _ _ _ _ E). constructor.
  - rewrite keys_selectNode. exact IHR.
  - rewrite keys_focusOnNode. exact IHR.
  - rewrite keys_clearSelection. exact IHR.
  - rewrite keys_clearSubgraphMode, keys_clearSelection. exact IHR.
  - rewrite keys_applySubgraphFilter. exact IHR.
  - rewrite keys_clearSubgraphMode. exact IHR.
  - rewrite keys_detectCycles. exact IHR.
  - rewrite keys_toggleCycleVisibility. exact IHR.
  - rewrite keys_clearCyclesMode. exact IHR.
Qed.

(** C5. When at least one line of the filter input names a node of the
    graph, [applySubgraphFilter] enters subgraph mode with the expanded set
    [seeds ∪ outNeighbors(s) ∪ inNeighbors(s)] over the present seeds [s];
    afterwards a node is visible with the highlight colour iff it is in the
    set (and hidden otherwise), and an edge is visible with the highlight
    colour iff both ends are in the set (and hidden otherwise).  The
    hypothesis on edge keys holds in every reachable state
    ([reachable_edge_keys_NoDup]). *)
Theorem applySubgraphFilter_shows_neighbourhood : forall C s input,
  NoDup (map ekey (gedges (graph s))) ->
  filterPackages (graph s) (trim input) <> [] ->
  let packages := filterPackages (graph s) (trim input) in
  let s' := fst (applySubgraphFilter C s input) in
  snd (applySubgraphFilter C s input) = Done /\
  isSubgraphMode s' = true /\
  (forall x, In x (highlightedNodes s') <->
     In x packages \/
     exists p outs ins, In p packages /\ outNeighbors (graph s) p = Ok outs /\
                        inNeighbors (graph s) p = Ok ins /\ (In x outs \/ In x ins)) /\
  (forall a, In a (gnodes (graph s')) ->
     (In (nkey a) (highlightedNodes s') -> hidden a = Some false /\ color a = nodeHighlight C) /\
     (~ In (nkey a) (highlightedNodes s') -> hidden a = Some true)) /\
  (forall e, In e (gedges (graph s')) ->
     (In (source e) (highlightedNodes s') /\ In (target e) (highlightedNodes s') ->
        ehidden e = Some false /\ ecolor e = edgeHighlight C) /\
     (~ (In (source e) (highlightedNodes s') /\ In (target e) (highlightedNodes s')) ->
        ehidden e = Some true)).
Proof.
  intros C s input Hnd Hne packages s'. subst packages s'.
  destruct (teardown_cycles_topology s) as [Th [To [Ti Tk]]].
  unfold applySubgraphFilter.
  set (s1 := if isCyclesMode s then clearCyclesMode s else s) in *.
  destruct (String.eqb (trim input) "") eqn:E.
  { apply String.eqb_eq in E. rewrite E, filterPackages_empty in Hne. congruence. }
  rewrite (filterPackages_ext (graph s) (graph s1)) by exact Th.
  destruct (filterPackages (graph s) (trim input)) as [|p ps] eqn:HP; [congruence|].
  rewrite (expandNeighbors_ext (graph s) (graph s1)) by assumption.
  destruct (expandNeighbors_spec (graph s) (p :: ps) (setOf (p :: ps))) as [ex [Hex Hx]].
  { intros q Hq. rewrite <- HP in Hq. unfold filterPackages in Hq.
    apply filter_In in Hq. destruct Hq as [_ Hq]. apply andb_true_iff in Hq. apply Hq. }
  rewrite Hex. simpl fst. simpl snd.
  assert (Hnd1 : NoDup (map ekey (gedges (graph s1)))) by (rewrite Tk; exact Hnd).
  split; [reflexivity|]. split; [reflexivity|]. split; [|split].
  - intros x. simpl. rewrite Hx, In_setOf. simpl. tauto.
  - intros a Ha. simpl in Ha. apply in_map_iff in Ha. destruct Ha as [a0 [<- _]].
    simpl. unfold subgraphNode. destruct (mem (nkey a0) ex) eqn:M; simpl.
    + split; [intros _; split; reflexivity|]. intros Hn. apply mem_In in M. contradiction.
    + split; [|intros _; reflexivity]. intros Hin. apply mem_false_In in M. contradiction.
  - intros e He. simpl in He. apply in_map_iff in He. destruct He as [e0 [<- He0]].
    simpl. unfold subgraphEdge.
    set (sk := map ekey (filter (fun e1 => mem (source e1) ex && mem (target e1) ex)
                                (gedges (graph s1)))).
    destruct (mem (ekey e0) sk) eqn:M; simpl.
    + split; [intros _; split; reflexivity|]. intros Hnot. exfalso. apply Hnot.
      apply mem_In in M. apply in_map_iff in M. destruct M as [e1 [Hk He1]].
      apply filter_In in He1. destruct He1 as [He1 Hb].
      assert (e1 = e0) as -> by (apply (NoDup_map_eq ekey (gedges (graph s1))); assumption).
      apply andb_true_iff in Hb. destruct Hb as [Hb1 Hb2].
      apply mem_In in Hb1. apply mem_In in Hb2. split; assumption.
    + split; [|intros _; reflexivity]. intros [Hs Ht]. exfalso.
      apply mem_false_In in M. apply M. apply in_map. apply filter_In. split; [exact He0|].
      apply andb_true_iff. split; apply mem_In; assumption.
Qed.

Lemma applySubgraphFilter_shows_neighbourhood_witness :
  NoDup (map ekey (gedges (graph abcState))) /\
  filterPackages (graph abcState) (trim "A") <> [] /\
  isSubgraphMode (fst (applySubgraphFilter COLORS_graph abcState "A")) = true.
Proof.
  assert (Hnd : NoDup (map ekey (gedges (graph abcState)))).
  { vm_compute. constructor; [intros [H|[]]; discriminate H|]. constructor; [intros []|constructor]. }
  assert (Hne : filterPackages (graph abcState) (trim "A") <> []) by (vm_compute; discriminate).
  split; [exact Hnd|]. split; [exact Hne|].
  exact (proj1 (proj2 (applySubgraphFilter_shows_neighbourhood COLORS_graph abcState "A" Hnd Hne))).
Defined.

(** ** Cycle visualization *)

(** The first cycle, in scenario order, that is visible and lists [n]. *)
Definition firstVisibleCycleWith (sc : CycleScenario) (visible : list string) (n : string)
  : option Cycle :=
  find (fun c => mem (cid c) visible && mem n (cnodes c)) (cycles sc).

Lemma lookup_app_single : forall n m k v,
  lookup n (m ++ [(k, v)])%list =
  match lookup n m with Some w => Some w | None => if String.eqb n k then Some v else None end.
Proof.
  intros n m k v. induction m as [|[k' v'] m IH]; simpl; [reflexivity|].
  destruct (String.eqb n k'); [reflexivity|exact IH].
Qed.

Lemma lookup_fold_member : forall n col ns m,
  lookup n (fold_left (fun m' x => mapSetIfAbsent m' x col) ns m) =
  match lookup n m with Some w => Some w | None => if mem n ns then Some col else None end.
Proof.
  intros n col ns. induction ns as [|x ns IH]; intros m; simpl.
  - destruct (lookup n m); reflexivity.
  - rewrite IH. unfold mapSetIfAbsent.
    destruct (lookup x m) as [w|] eqn:Lx.
    + destruct (lookup n m) as [w'|] eqn:Ln; [reflexivity|].
      unfold mem. simpl. destruct (String.eqb n x) eqn:Enx; [|reflexivity].
      apply String.eqb_eq in Enx. subst. congruence.
    + rewrite lookup_app_single. destruct (lookup n m) as [w'|]; [reflexivity|].
      unfold mem. simpl. destruct (String.eqb n x); reflexivity.
Qed.

Lemma lookup_cycleMemberColors_aux : forall n vis cs m,
  lookup n (fold_left (fun m c =>
    if negb (mem (cid c) vis) then m
    else fold_left (fun m' x => mapSetIfAbsent m' x (ccolor c)) (cnodes c) m) cs m) =
  match lookup n m with
  | Some w => Some w
  | None => option_map ccolor (find (fun c => mem (cid c) vis && mem n (cnodes c)) cs)
  end.
Proof.
  intros n vis cs. induction cs as [|c cs IH]; intros m; simpl.
  - destruct (lookup n m); reflexivity.
  - rewrite IH. destruct (mem (cid c) vis) eqn:V; simpl.
    + rewrite lookup_fold_member. destruct (lookup n m); [reflexivity|].
      destruct (mem n (cnodes c)); reflexivity.
    + reflexivity.
Qed.

Lemma lookup_cycleMemberColors : forall sc vis n,
  lookup n (cycleMemberColors sc vis) = option_map ccolor (firstVisibleCycleWith sc vis n).
Proof. intros. apply lookup_cycleMemberColors_aux. Qed.

Lemma mem_setOf : forall x l, mem x (setOf l) = mem x l.
Proof.
  intros x l. destruct (mem x l) eqn:M.
  - apply mem_In. apply In_setOf. apply mem_In. exact M.
  - apply mem_false_In. rewrite In_setOf. apply mem_false_In. exact M.
Qed.

(** C6. Under cycle visualization each node takes the colour of the first
    visible cycle (in scenario order) listing it and 1.3 times its original
    size; otherwise a queried node takes the queried colour and 1.2 times
    its size; otherwise an intermediate node the intermediate colour and
    1.1 times its size; every other node is dimmed and hidden. *)
Theorem applyCycleVisualization_classifies : forall C s sc,
  currentCycleScenario s = Some sc ->
  forall i a, nth_error (gnodes (graph s)) i = Some a ->
  exists a', nth_error (gnodes (graph (applyCycleVisualization C s))) i = Some a' /\
    nkey a' = nkey a /\
    (forall c, firstVisibleCycleWith sc (visibleCycles s) (nkey a) = Some c ->
       color a' = ccolor c /\ size a' = originalSize a * (13#10) /\ hidden a' = Some false) /\
    (firstVisibleCycleWith sc (visibleCycles s) (nkey a) = None ->
     In (nkey a) (queriedPackages sc) ->
       color a' = nodeQueried C /\ size a' = originalSize a * (6#5) /\ hidden a' = Some false) /\
    (firstVisibleCycleWith sc (visibleCycles s) (nkey a) = None ->
     ~ In (nkey a) (queriedPackages sc) -> In (nkey a) (intermediateNodes sc) ->
       color a' = nodeIntermediate C /\ size a' = originalSize a * (11#10) /\ hidden a' = Some false) /\
    (firstVisibleCycleWith sc (visibleCycles s) (nkey a) = None ->
     ~ In (nkey a) (queriedPackages sc) -> ~ In (nkey a) (intermediateNodes sc) ->
       color a' = nodeDimmed C /\ hidden a' = Some true).
Proof.
  intros C s sc Hsc i a Ha. unfold applyCycleVisualization. rewrite Hsc. unfold classifyNodes.
  cbn zeta. simpl gnodes. rewrite nth_error_map, Ha. simpl option_map.
  eexists. split; [reflexivity|].
  unfold cycleNode. rewrite lookup_cycleMemberColors, !mem_setOf.
  destruct (firstVisibleCycleWith sc (visibleCycles s) (nkey a)) as [c|] eqn:F; simpl.
  - split; [reflexivity|]. split; [intros c' Hc'; injection Hc' as <-; repeat split|].
    split; [discriminate|]. split; discriminate.
  - destruct (mem (nkey a) (queriedPackages sc)) eqn:Q; simpl.
    + apply mem_In in Q. split; [reflexivity|]. split; [discriminate|].
      split; [intros _ _; repeat split|]. split; intros _ Hn; contradiction.
    + apply mem_false_In in Q.
      destruct (mem (nkey a) (intermediateNodes sc)) eqn:I; simpl.
      * apply mem_In in I. split; [reflexivity|]. split; [discriminate|].
        split; [intros _ Hq; contradiction|]. split; [intros _ _ _; repeat split|].
        intros _ _ Hn; contradiction.
      * apply mem_false_In in I. split; [reflexivity|]. split; [discriminate|].
        split; [intros _ Hq; contradiction|]. split; [intros _ _ Hi; contradiction|].
        intros _ _ _. split; reflexivity.
Qed.

Lemma applyCycleVisualization_classifies_witness :
  currentCycleScenario abcCycles = Some abScenario /\
  nth_error (gnodes (graph (applyCycleVisualization COLORS_graph abcCycles))) 0 <> None.
Proof.
  split; [reflexivity|].
  destruct (applyCycleVisualization_classifies COLORS_graph abcCycles abScenario eq_refl 0%nat
              {| nkey := "A"; label := "A"; isBase := false; size := 4 * (13#10);
                 color := "#ff0000"; originalColor := "#4a5568"; originalSize := 4;
                 hidden := Some false |} eq_refl) as [a' [Ha' _]].
  rewrite Ha'. discriminate.
Defined.

(** ** Particle progress *)

Lemma inject_Z_S : forall n, inject_Z (Z.of_nat (S n)) == inject_Z (Z.of_nat n) + 1.
Proof. intros n. rewrite Nat2Z.inj_succ, <- Z.add_1_r, inject_Z_plus. reflexivity. Qed.

Lemma inject_Z_nonneg : forall n, 0 <= inject_Z (Z.of_nat n).
Proof. intros n. change 0 with (inject_Z 0). rewrite <- Zle_Qle. lia. Qed.

(** The wrap loop with enough fuel leaves a progress in [[0, 1)] and an
    edge index below the edge count. *)
Lemma wrapLoop_exits : forall fuel n p idx,
  0 <= p -> p < inject_Z (Z.of_nat fuel) -> (0 < n)%nat -> (idx < n)%nat ->
  0 <= fst (wrapLoop fuel n p idx) /\ fst (wrapLoop fuel n p idx) < 1 /\
  (snd (wrapLoop fuel n p idx) < n)%nat.
Proof.
  intros fuel. induction fuel as [|f IH]; intros n p idx H0 Hf Hn Hi.
  - change (inject_Z (Z.of_nat 0)) with 0 in Hf. lra.
  - simpl. destruct (Qle_bool 1 p) eqn:B.
    + apply Qle_bool_iff in B. rewrite inject_Z_S in Hf. apply IH; [lra|lra|exact Hn|].
      apply Nat.mod_upper_bound. lia.
    + simpl. split; [exact H0|]. split; [|exact Hi].
      apply Qnot_le_lt. intros B'. apply Qle_bool_iff in B'. congruence.
Qed.

Lemma wrapFuel_enough : forall p, 0 <= p -> p < inject_Z (Z.of_nat (wrapFuel p)).
Proof.
  intros p Hp. unfold wrapFuel.
  assert (Hz : (0 <= Qfloor p)%Z).
  { rewrite <- (Qfloor_Z 0). apply Qfloor_resp_le. exact Hp. }
  rewrite Nat2Z.inj_succ, Z2Nat.id by exact Hz.
  rewrite <- Z.add_1_r. apply Qlt_floor.
Qed.

Lemma wrapLoop_no_wrap : forall f n p idx, p < 1 -> wrapLoop (S f) n p idx = (p, idx).
Proof.
  intros f n p idx Hp. simpl. destruct (Qle_bool 1 p) eqn:B; [|reflexivity].
  apply Qle_bool_iff in B. lra.
Qed.

Lemma wrapFuel_one_wrap : forall p, 1 <= p -> p < 2 -> wrapFuel p = 2%nat.
Proof.
  intros p H1 H2. unfold wrapFuel.
  assert (Hl : inject_Z (Qfloor p) < 2) by (apply (Qle_lt_trans _ p); [apply Qfloor_le | exact H2]).
  assert (Hu : 1 < inject_Z (Qfloor p + 1)) by (apply (Qle_lt_trans _ p); [exact H1 | apply Qlt_floor]).
  change 2 with (inject_Z 2) in Hl. change 1 with (inject_Z 1) in Hu.
  rewrite <- Zlt_Qlt in Hl, Hu.
  assert (Qfloor p = 1%Z) as -> by lia. reflexivity.
Qed.

Lemma stepParticle_cycleId : forall sc d pt, cycleId (stepParticle sc d pt) = cycleId pt.
Proof.
  intros sc d pt. unfold stepParticle.
  destruct (findCycle sc (cycleId pt)); [|reflexivity].
  destruct (cedges c); [reflexivity|].
  destruct (wrapLoop _ _ _ _). reflexivity.
Qed.

Lemma stepParticle_found : forall sc d pt c,
  findCycle sc (cycleId pt) = Some c -> cedges c <> [] ->
  stepParticle sc d pt =
    let p := progress pt + PARTICLE_SPEED * d in
    let '(p', idx') := wrapLoop (wrapFuel p) (List.length (cedges c)) p (edgeIndex pt) in
    {| cycleId := cycleId pt; edgeIndex := idx'; progress := p'; pcolor := pcolor pt |}.
Proof.
  intros sc d pt c Hf Hne. unfold stepParticle. rewrite Hf.
  destruct (cedges c) eqn:E; [congruence|]. reflexivity.
Qed.

Definition particleInv (sc : CycleScenario) (pt : Particle) : Prop :=
  forall c, findCycle sc (cycleId pt) = Some c -> cedges c <> [] ->
  0 <= progress pt /\ progress pt < 1 /\ (edgeIndex pt < List.length (cedges c))%nat.

Lemma stepParticle_inv : forall sc d pt, 0 <= d -> particleInv sc pt -> particleInv sc (stepParticle sc d pt).
Proof.
  intros sc d pt Hd H c Hf Hne. rewrite stepParticle_cycleId in Hf.
  destruct (H c Hf Hne) as [H0 [_ Hi]].
  rewrite (stepParticle_found sc d pt c Hf Hne). cbn zeta.
  assert (Hp : 0 <= progress pt + PARTICLE_SPEED * d) by (unfold PARTICLE_SPEED; lra).
  assert (Hn : (0 < List.length (cedges c))%nat) by (destruct (cedges c); [congruence | simpl; lia]).
  destruct (wrapLoop_exits (wrapFuel (progress pt + PARTICLE_SPEED * d)) (List.length (cedges c))
              (progress pt + PARTICLE_SPEED * d) (edgeIndex pt) Hp (wrapFuel_enough _ Hp) Hn Hi)
    as [B0 [B1 B2]].
  destruct (wrapLoop _ _ _ _) as [p' i']. simpl in *. auto.
Qed.

Lemma initial_particles_inv : forall sc vis t0,
  Forall (particleInv sc) (particles (initializeParticleSystem sc vis t0)).
Proof.
  intros sc vis t0. apply Forall_forall. intros pt Hin. simpl in Hin.
  apply in_flat_map in Hin. destruct Hin as [c0 [_ Hin]].
  destruct (negb (mem (cid c0) vis)); [destruct Hin|].
  intros c _ Hne.
  assert (Hn : (0 < List.length (cedges c))%nat) by (destruct (cedges c); [congruence | simpl; lia]).
  destruct Hin as [<-|[<-|[<-|[]]]]; simpl; (split; [|split; [|exact Hn]]);
    vm_compute; first [reflexivity | discriminate].
Qed.

Fixpoint nondecr (t : Q) (l : list Q) : Prop :=
  match l with
  | [] => True
  | x :: r => t <= x /\ nondecr x r
  end.

Lemma runUpdates_inv : forall sc nows sys,
  nondecr (lastFrame sys) nows -> Forall (particleInv sc) (particles sys) ->
  Forall (particleInv sc) (particles (runUpdates sys sc nows)).
Proof.
  intros sc nows. induction nows as [|t r IH]; intros sys Hnd Hall; simpl; [exact Hall|].
  destruct Hnd as [Ht Hr]. apply IH; [exact Hr|].
  simpl. apply Forall_map. eapply Forall_impl; [|exact Hall].
  intros pt Hpt. apply stepParticle_inv; [|exact Hpt].
  apply Qle_shift_div_l; [reflexivity|]. lra.
Qed.

(** C9. Starting from [initializeParticleSystem] and running
    [updateParticles] at non-decreasing times, every particle whose cycle
    is found in the scenario with a non-empty edge list has a progress in
    [[0, 1)] and an edge index below that cycle's edge count. *)
Theorem particles_stay_on_their_cycle : forall sc vis t0 nows,
  nondecr t0 nows ->
  forall pt, In pt (particles (runUpdates (initializeParticleSystem sc vis t0) sc nows)) ->
  forall c, findCycle sc (cycleId pt) = Some c -> cedges c <> [] ->
  0 <= progress pt /\ progress pt < 1 /\ (edgeIndex pt < List.length (cedges c))%nat.
Proof.
  intros sc vis t0 nows Hnd pt Hin.
  assert (H : Forall (particleInv sc) (particles (runUpdates (initializeParticleSystem sc vis t0) sc nows))).
  { apply runUpdates_inv; [exact Hnd | apply initial_particles_inv]. }
  rewrite Forall_forall in H. exact (H pt Hin).
Qed.

Lemma particles_stay_on_their_cycle_witness :
  let pt := nth 0 (particles (runUpdates (initializeParticleSystem abcScenario ["c1"] 0)
                                abcScenario [1000; 2500; 7000])) (Build_Particle "" 0 0 "") in
  nondecr 0 [1000; 2500; 7000] /\
  In pt (particles (runUpdates (initializeParticleSystem abcScenario ["c1"] 0) abcScenario [1000; 2500; 7000])) /\
  findCycle abcScenario (cycleId pt) = hd_error (cycles abcScenario) /\
  0 <= progress pt /\ progress pt < 1 /\ (edgeIndex pt < 2)%nat.
Proof.
  intros pt.
  assert (Hnd : nondecr 0 [1000; 2500; 7000]) by (simpl; repeat split; discriminate).
  assert (Hin : In pt (particles (runUpdates (initializeParticleSystem abcScenario ["c1"] 0)
                                   abcScenario [1000; 2500; 7000]))) by (vm_compute; left; reflexivity).
  assert (Hf : findCycle abcScenario (cycleId pt) = hd_error (cycles abcScenario)) by (vm_compute; reflexivity).
  split; [exact Hnd|]. split; [exact Hin|]. split; [exact Hf|].
  exact (particles_stay_on_their_cycle abcScenario ["c1"] 0 [1000; 2500; 7000] Hnd pt Hin _ Hf
           ltac:(discriminate)).
Defined.

Lemma iter_stepParticle_cycleId : forall sc d n pt,
  cycleId (Nat.iter n (stepParticle sc d) pt) = cycleId pt.
Proof.
  intros sc d n pt. induction n as [|n IH]; [reflexivity|].
  simpl. rewrite stepParticle_cycleId. exact IH.
Qed.

Lemma wrapLoop_k : forall n k fuel p idx, (k < fuel)%nat ->
  inject_Z (Z.of_nat k) <= p -> p < inject_Z (Z.of_nat k) + 1 ->
  fst (wrapLoop fuel n p idx) == p - inject_Z (Z.of_nat k) /\
  snd (wrapLoop fuel n p idx) = Nat.iter k (fun i => Nat.modulo (i + 1) n) idx.
Proof.
  intros n k. induction k as [|k IH]; intros fuel p idx Hf H1 H2.
  - destruct fuel as [|f]; [lia|]. change (inject_Z (Z.of_nat 0)) with 0 in *.
    rewrite wrapLoop_no_wrap by lra. simpl. split; [ring | reflexivity].
  - destruct fuel as [|f]; [lia|]. rewrite inject_Z_S in H1, H2.
    assert (HN := inject_Z_nonneg k).
    cbn [wrapLoop]. destruct (Qle_bool 1 p) eqn:B; [|assert (Qle_bool 1 p = true) by (apply Qle_bool_iff; lra); congruence].
    destruct (IH f (p - 1) (Nat.modulo (idx + 1) n)) as [A1 A2]; [lia|lra|lra|].
    split; [rewrite A1, inject_Z_S; ring|].
    rewrite A2. clear. induction k as [|k IH]; [reflexivity|]. simpl. rewrite IH. reflexivity.
Qed.

Lemma iter_succ_mod : forall n k idx, (0 < n)%nat ->
  Nat.iter (S k) (fun i => Nat.modulo (i + 1) n) idx = Nat.modulo (idx + S k) n.
Proof.
  intros n k idx Hn. induction k as [|k IH]; [reflexivity|].
  change (Nat.iter (S (S k)) (fun i => Nat.modulo (i + 1) n) idx)
    with (Nat.modulo (Nat.iter (S k) (fun i => Nat.modulo (i + 1) n) idx + 1) n).
  rewrite IH, Nat.Div0.add_mod_idemp_l. f_equal. lia.
Qed.

Lemma stepParticle_wraps : forall sc d pt c,
  findCycle sc (cycleId pt) = Some c -> cedges c <> [] ->
  1 <= progress pt + PARTICLE_SPEED * d ->
  (1 <= Z.to_nat (Qfloor (progress pt + PARTICLE_SPEED * d)))%nat /\
  progress (stepParticle sc d pt) ==
    progress pt + PARTICLE_SPEED * d - inject_Z (Z.of_nat (Z.to_nat (Qfloor (progress pt + PARTICLE_SPEED * d)))) /\
  0 <= progress (stepParticle sc d pt) /\ progress (stepParticle sc d pt) < 1 /\
  edgeIndex (stepParticle sc d pt) =
    Nat.modulo (edgeIndex pt + Z.to_nat (Qfloor (progress pt + PARTICLE_SPEED * d))) (List.length (cedges c)).
Proof.
  intros sc d pt c Hf Hne H1.
  rewrite (stepParticle_found _ _ _ _ Hf Hne). cbn zeta.
  set (p := progress pt + PARTICLE_SPEED * d) in *.
  assert (F1 : (1 <= Qfloor p)%Z).
  { change 1%Z with (Qfloor 1). apply Qfloor_resp_le. exact H1. }
  set (m := Z.to_nat (Qfloor p)).
  assert (Em : Z.of_nat m = Qfloor p) by (unfold m; apply Z2Nat.id; lia).
  assert (L1 : inject_Z (Z.of_nat m) <= p) by (rewrite Em; apply Qfloor_le).
  assert (L2 : p < inject_Z (Z.of_nat m) + 1).
  { rewrite Em. assert (X := Qlt_floor p). rewrite inject_Z_plus in X. exact X. }
  assert (Hm : (1 <= m)%nat) by lia.
  assert (Hn : (0 < List.length (cedges c))%nat) by (destruct (cedges c); [congruence | simpl; lia]).
  destruct (wrapLoop_k (List.length (cedges c)) m (wrapFuel p) p (edgeIndex pt)) as [A B];
    [unfold wrapFuel; fold m; lia | exact L1 | exact L2 |].
  destruct (wrapLoop (wrapFuel p) (List.length (cedges c)) p (edgeIndex pt)) as [p' i'].
  cbn [fst snd] in A, B. cbn [progress edgeIndex].
  split; [exact Hm|]. split; [exact A|]. split; [lra|]. split; [lra|].
  rewrite B. destruct m as [|m']; [lia|]. apply iter_succ_mod. exact Hn.
Qed.

(** C7. With a constant per-frame delta [d >= 0], [n] frames that never
    reach progress 1 move a particle to [progress + n * PARTICLE_SPEED * d]
    on the same edge. A frame that brings progress to [p >= 1] runs the
    wrap loop [m = floor p >= 1] times, until progress is below 1: progress
    becomes [p - m], in [[0, 1)], and the edge index advances by [m]
    modulo the number of edges of the cycle. *)
Theorem particle_progress_and_wrap : forall sc c pt d n,
  findCycle sc (cycleId pt) = Some c -> cedges c <> [] -> 0 <= d ->
  (progress pt + inject_Z (Z.of_nat n) * (PARTICLE_SPEED * d) < 1 ->
     progress (Nat.iter n (stepParticle sc d) pt)
       == progress pt + inject_Z (Z.of_nat n) * (PARTICLE_SPEED * d) /\
     edgeIndex (Nat.iter n (stepParticle sc d) pt) = edgeIndex pt) /\
  (1 <= progress pt + PARTICLE_SPEED * d ->
     (1 <= Z.to_nat (Qfloor (progress pt + PARTICLE_SPEED * d)))%nat /\
     progress (stepParticle sc d pt) ==
       progress pt + PARTICLE_SPEED * d
       - inject_Z (Z.of_nat (Z.to_nat (Qfloor (progress pt + PARTICLE_SPEED * d)))) /\
     0 <= progress (stepParticle sc d pt) /\ progress (stepParticle sc d pt) < 1 /\
     edgeIndex (stepParticle sc d pt) =
       Nat.modulo (edgeIndex pt + Z.to_nat (Qfloor (progress pt + PARTICLE_SPEED * d)))
                  (List.length (cedges c))).
Proof.
  intros sc c pt d n Hf Hne Hd.
  assert (Hx : 0 <= PARTICLE_SPEED * d) by (unfold PARTICLE_SPEED; lra).
  split.
  - induction n as [|n IH]; intros Hlt.
    + simpl. split; [change (inject_Z (Z.of_nat 0)) with 0; ring | reflexivity].
    + rewrite inject_Z_S in Hlt.
      assert (HN := inject_Z_nonneg n).
      destruct IH as [IHp IHi]; [nra|].
      change (Nat.iter (S n) (stepParticle sc d) pt)
        with (stepParticle sc d (Nat.iter n (stepParticle sc d) pt)).
      assert (Hf' : findCycle sc (cycleId (Nat.iter n (stepParticle sc d) pt)) = Some c)
        by (rewrite iter_stepParticle_cycleId; exact Hf).
      rewrite (stepParticle_found _ _ _ _ Hf' Hne). cbn zeta.
      unfold wrapFuel. rewrite wrapLoop_no_wrap by (rewrite IHp; nra).
      cbn [progress edgeIndex]. split; [|exact IHi].
      rewrite IHp, inject_Z_S. ring.
  - intros H1. exact (stepParticle_wraps sc d pt c Hf Hne H1).
Qed.

Lemma particle_progress_and_wrap_witness :
  let pt := {| cycleId := "c1"; edgeIndex := 0; progress := 0; pcolor := "#ff0000" |} in
  findCycle abcScenario (cycleId pt) = hd_error (cycles abcScenario) /\ 0 <= 10 /\
  1 <= progress pt + PARTICLE_SPEED * 10 /\
  progress (stepParticle abcScenario 10 pt) ==
    progress pt + PARTICLE_SPEED * 10
    - inject_Z (Z.of_nat (Z.to_nat (Qfloor (progress pt + PARTICLE_SPEED * 10)))) /\
  edgeIndex (stepParticle abcScenario 10 pt) = 1%nat.
Proof.
  intros pt.
  assert (Hf : findCycle abcScenario (cycleId pt) = hd_error (cycles abcScenario)) by reflexivity.
  assert (Hd : 0 <= 10) by (vm_compute; discriminate).
  assert (H1 : 1 <= progress pt + PARTICLE_SPEED * 10) by (vm_compute; discriminate).
  split; [exact Hf|]. split; [exact Hd|]. split; [exact H1|].
  destruct (proj2 (particle_progress_and_wrap abcScenario _ pt 10 0 Hf ltac:(discriminate) Hd) H1)
    as [_ [Hp [_ [_ Hi]]]].
  split; [exact Hp|]. rewrite Hi. vm_compute. reflexivity.
Defined.

(** C7 fails as stated: a particle at progress 2/3 on edge 0 of cycle
    [c1], updated 2 seconds later, reaches 2/3 + 0.6 = 19/15 and wraps to
    4/15 on edge 1. It neither keeps 19/15 nor re-enters at a non-positive
    progress [-(spread/2)] on its old edge, whatever [spread >= 0]. *)
Lemma updateParticles_wraps_to_next_edge :
  let sys := {| particles := [{| cycleId := "c1"; edgeIndex := 0; progress := 2#3;
                                 pcolor := "#ff0000" |}];
                lastFrame := 0; animationId := None |} in
  let pt := nth 0 (particles (updateParticles sys abcScenario 2000))
                  {| cycleId := ""; edgeIndex := 0; progress := 0; pcolor := "" |} in
  progress pt == 4#15 /\ edgeIndex pt = 1%nat /\
  forall spread, 0 <= spread ->
    ~ (progress pt == (2#3) + PARTICLE_SPEED * 2) /\ ~ (progress pt == -(spread / 2)) /\
    edgeIndex pt <> 0%nat.
Proof.
  intros sys pt.
  assert (Hp : progress pt == 4#15) by (vm_compute; reflexivity).
  assert (Hi : edgeIndex pt = 1%nat) by reflexivity.
  split; [exact Hp|]. split; [exact Hi|].
  intros spread Hs. split; [|split].
  - rewrite Hp. unfold PARTICLE_SPEED. intros H. vm_compute in H. discriminate.
  - rewrite Hp. intros H.
    assert (H2 : spread / 2 == spread * (1#2)) by (unfold Qdiv; reflexivity).
    rewrite H2 in H. lra.
  - rewrite Hi. discriminate.
Qed.

(** ** Repulsion samples *)

Lemma filterRandom_length : forall rand k b l,
  (List.length (fst (filterRandom rand k b l)) <= List.length l)%nat.
Proof.
  intros rand k b l. revert k. induction l as [|x r IH]; intros k; [simpl; lia|].
  simpl. specialize (IH (S k)).
  destruct (filterRandom rand (S k) b r) as [rest k'] eqn:E. simpl in *.
  destruct (Qlt_le_dec (rand k) b); simpl; lia.
Qed.

Lemma iterationSamples_in : forall rand nodes n1s k s,
  In s (fst (iterationSamples rand k nodes n1s)) -> exists k', s = fst (repulsionSample rand k' nodes).
Proof.
  intros rand nodes n1s. induction n1s as [|x r IH]; intros k s Hin; [destruct Hin|].
  simpl in Hin.
  destruct (repulsionSample rand k nodes) as [smp k1] eqn:E1.
  destruct (iterationSamples rand k1 nodes r) as [rest k2] eqn:E2.
  destruct Hin as [<-|Hin].
  - exists k. rewrite E1. reflexivity.
  - apply (IH k1). rewrite E2. exact Hin.
Qed.

Lemma filterRandom_count : forall rand b l k m,
  (forall j, (k <= j)%nat -> (j < k + m)%nat -> rand j < b) ->
  (forall j, (k + m <= j)%nat -> b <= rand j) ->
  (m <= List.length l)%nat ->
  List.length (fst (filterRandom rand k b l)) = m.
Proof.
  intros rand b l. induction l as [|x r IH]; intros k m Hlo Hhi Hm.
  - simpl in Hm. simpl. lia.
  - cbn [filterRandom].
    destruct (filterRandom rand (S k) b r) as [rest k'] eqn:E. cbn [fst].
    destruct m as [|m'].
    + destruct (Qlt_le_dec (rand k) b) as [L|L].
      * assert (X := Hhi k ltac:(lia)). lra.
      * change rest with (fst (rest, k')). rewrite <- E. apply IH; [intros j A B; lia | |simpl; lia].
        intros j A. apply Hhi. lia.
    + destruct (Qlt_le_dec (rand k) b) as [L|L].
      * cbn [List.length]. f_equal. change rest with (fst (rest, k')). rewrite <- E.
        apply IH; [intros j A B; apply Hlo; lia | intros j A; apply Hhi; lia | simpl in Hm; lia].
      * assert (X := Hlo k ltac:(lia) ltac:(lia)). lra.
Qed.

Lemma repulsion_sample_any_size : forall k nodes n1s,
  (50 < List.length nodes)%nat -> n1s <> [] -> forall m, (m <= List.length nodes)%nat ->
  exists rand, validRandom rand /\
    exists s, In s (fst (iterationSamples rand k nodes n1s)) /\ List.length s = m.
Proof.
  intros k nodes n1s H50 Hne m Hm.
  set (b := inject_Z (Z.of_nat (Nat.min 50 (List.length nodes))) / inject_Z (Z.of_nat (List.length nodes))).
  assert (Hmin : Nat.min 50 (List.length nodes) = 50%nat) by lia.
  assert (Lpos : 0 < inject_Z (Z.of_nat (List.length nodes))).
  { change 0 with (inject_Z 0). rewrite <- Zlt_Qlt. lia. }
  assert (B0 : 0 < b).
  { unfold b. rewrite Hmin. apply Qlt_shift_div_l; [exact Lpos|]. rewrite Qmult_0_l. reflexivity. }
  assert (B1 : b < 1).
  { unfold b. rewrite Hmin. apply Qlt_shift_div_r; [exact Lpos|]. rewrite Qmult_1_l.
    rewrite <- Zlt_Qlt. lia. }
  exists (fun j => if Nat.ltb j (k + m) then 0 else b). split.
  - intros j. destruct (Nat.ltb j (k + m)); split; lra.
  - destruct n1s as [|n1 r]; [congruence|].
    exists (fst (repulsionSample (fun j => if Nat.ltb j (k + m) then 0 else b) k nodes)). split.
    + cbn [iterationSamples].
      destruct (repulsionSample _ k nodes) as [smp k1].
      destruct (iterationSamples _ k1 nodes r) as [rest k2]. left. reflexivity.
    + unfold repulsionSample.
      destruct (Nat.leb_spec (List.length nodes) (Nat.min 50 (List.length nodes))) as [Hle|_]; [lia|].
      fold b. apply filterRandom_count; [| |exact Hm].
      * intros j A B. destruct (Nat.ltb_spec j (k + m)); [exact B0 | lia].
      * intros j A. destruct (Nat.ltb_spec j (k + m)); [lia | apply Qle_refl].
Qed.

(** C8. Every sample of an iteration is the whole node list when there
    are at most 50 nodes. With more nodes it is the node list filtered by
    one random test per node against [50 / n], so it never holds more
    than the [n] nodes; and every size from 0 to [n] occurs: for each [m]
    up to [n] some valid random source makes the first sample of the
    iteration hold exactly [m] nodes. *)
Theorem repulsion_sample_shape : forall rand k nodes n1s,
  (forall s, In s (fst (iterationSamples rand k nodes n1s)) ->
    ((List.length nodes <= 50)%nat -> s = nodes) /\
    ((50 < List.length nodes)%nat -> exists k',
       s = fst (filterRandom rand k' (inject_Z 50 / inject_Z (Z.of_nat (List.length nodes))) nodes)) /\
    (List.length s <= List.length nodes)%nat) /\
  ((50 < List.length nodes)%nat -> n1s <> [] -> forall m, (m <= List.length nodes)%nat ->
    exists rand', validRandom rand' /\
      exists s, In s (fst (iterationSamples rand' k nodes n1s)) /\ List.length s = m).
Proof.
  intros rand k nodes n1s. split; [|apply repulsion_sample_any_size].
  intros s Hin.
  destruct (iterationSamples_in rand nodes n1s k s Hin) as [k' ->].
  unfold repulsionSample.
  destruct (Nat.leb_spec (List.length nodes) (Nat.min 50 (List.length nodes))) as [Hle|Hgt].
  - split; [reflexivity|]. split; [intros; lia | simpl; lia].
  - split; [intros; lia|]. split.
    + intros H50. exists k'. rewrite Nat.min_l by lia. reflexivity.
    + apply filterRandom_length.
Qed.

Lemma repulsion_sample_shape_witness :
  let nodes := map (fun i => "n" ++ string_of_nat i) (seq 0 51) in
  (In ["A"; "B"; "C"] (fst (iterationSamples (fun _ => 0) 0 ["A"; "B"; "C"] ["A"; "B"; "C"])) /\
   ["A"; "B"; "C"] = ["A"; "B"; "C"] /\
   (List.length ["A"; "B"; "C"] <= List.length ["A"; "B"; "C"])%nat) /\
  (50 < List.length nodes)%nat /\ nodes <> [] /\ (7 <= List.length nodes)%nat /\
  exists rand', validRandom rand' /\
    exists s, In s (fst (iterationSamples rand' 0 nodes nodes)) /\ List.length s = 7%nat.
Proof.
  intros nodes.
  assert (Hin : In ["A"; "B"; "C"] (fst (iterationSamples (fun _ => 0) 0 ["A"; "B"; "C"] ["A"; "B"; "C"])))
    by (simpl; left; reflexivity).
  destruct (proj1 (repulsion_sample_shape (fun _ => 0) 0 ["A"; "B"; "C"] ["A"; "B"; "C"]) _ Hin)
    as [H1 [_ H3]].
  split; [split; [exact Hin|]; split; [apply H1; simpl; lia | exact H3]|].
  assert (L : List.length nodes = 51%nat) by (unfold nodes; rewrite length_map, length_seq; reflexivity).
  assert (Ne : nodes <> []) by (unfold nodes; simpl; discriminate).
  split; [rewrite L; lia|]. split; [exact Ne|]. split; [rewrite L; lia|].
  exact (proj2 (repulsion_sample_shape (fun _ => 0) 0 nodes nodes) ltac:(rewrite L; lia) Ne 7%nat
           ltac:(rewrite L; lia)).
Defined.

(** C8 fails as stated: on 51 nodes, with a random source that always
    returns 0 (a valid outcome of [Math.random()]), every node passes the
    test [0 < 50/51] and the first sample holds all 51 nodes. *)
Lemma repulsion_sample_exceeds_50 :
  let nodes := map (fun i => "n" ++ string_of_nat i) (seq 0 51) in
  validRandom (fun _ => 0) /\
  In nodes (fst (iterationSamples (fun _ => 0) 0 nodes nodes)) /\
  List.length nodes = 51%nat.
Proof.
  intros nodes. split; [intros k; split; [apply Qle_refl | reflexivity]|].
  split; [|reflexivity].
  vm_compute. left. reflexivity.
Qed.

(** ** Scenario matching and validation *)

Lemma NoDup_fold_setAdd : forall l acc, NoDup acc -> NoDup (fold_left setAdd l acc).
Proof.
  intros l. induction l as [|y l IH]; intros acc H; simpl; [exact H|].
  apply IH. unfold setAdd. destruct (mem y acc) eqn:M; [exact H|].
  apply mem_false_In in M. apply NoDup_app; [exact H | constructor; [intros []|constructor] |].
  intros a Ha [<-|[]]. exact (M Ha).
Qed.

Lemma NoDup_setOf : forall l, NoDup (setOf l).
Proof. intros l. apply NoDup_fold_setAdd. constructor. Qed.

Lemma setEqual_spec : forall q sc,
  setEqual q sc = true <-> (forall x, In x q <-> In x sc).
Proof.
  intros q sc. unfold setEqual. rewrite andb_true_iff, Nat.eqb_eq, forallb_forall. split.
  - intros [Hl Hin].
    assert (Hi : incl (setOf q) (setOf sc)) by (intros x Hx; apply mem_In; exact (Hin x Hx)).
    assert (Hr : incl (setOf sc) (setOf q))
      by (apply NoDup_length_incl; [apply NoDup_setOf | lia | exact Hi]).
    intros x. rewrite <- (In_setOf q x), <- (In_setOf sc x). split; [apply Hi | apply Hr].
  - intros H. split.
    + apply Nat.le_antisymm; apply NoDup_incl_length; try apply NoDup_setOf;
        intros x Hx; rewrite In_setOf in *; apply H; exact Hx.
    + intros x Hx. apply mem_In. rewrite In_setOf in *. apply H. exact Hx.
Qed.

Lemma findMatchingScenario_aux_spec : forall l q,
  match findMatchingScenario_aux l q with
  | Some sc => exists pre post, l = (pre ++ sc :: post)%list /\
                 (forall x, In x q <-> In x (queriedPackages sc)) /\
                 (forall sc', In sc' pre -> ~ (forall x, In x q <-> In x (queriedPackages sc')))
  | None => forall sc', In sc' l -> ~ (forall x, In x q <-> In x (queriedPackages sc'))
  end.
Proof.
  intros l q. induction l as [|sc l IH]; simpl; [intros _ []|].
  destruct (setEqual q (queriedPackages sc)) eqn:E.
  - exists [], l. split; [reflexivity|]. split; [apply setEqual_spec; exact E | intros _ []].
  - assert (Hn : ~ (forall x, In x q <-> In x (queriedPackages sc))).
    { intros H. apply setEqual_spec in H. congruence. }
    destruct (findMatchingScenario_aux l q) as [sc'|].
    + destruct IH as [pre [post [Hl [Hs Hp]]]]. exists (sc :: pre), post.
      split; [rewrite Hl; reflexivity|]. split; [exact Hs|].
      intros sc'' [<-|Hin]; [exact Hn | exact (Hp _ Hin)].
    + intros sc' [<-|Hin]; [exact Hn | exact (IH _ Hin)].
Qed.

(** [findMatchingScenario] returns the first scenario whose queried
    package set equals the set of the query, and null when there is none. *)
Theorem findMatchingScenario_first_set_match : forall d q,
  match findMatchingScenario d q with
  | Some sc => exists pre post, scenarios d = (pre ++ sc :: post)%list /\
                 (forall x, In x q <-> In x (queriedPackages sc)) /\
                 (forall sc', In sc' pre -> ~ (forall x, In x q <-> In x (queriedPackages sc')))
  | None => forall sc', In sc' (scenarios d) -> ~ (forall x, In x q <-> In x (queriedPackages sc'))
  end.
Proof. intros d q. apply findMatchingScenario_aux_spec. Qed.

Lemma setEqual_ext : forall q q' sc, (forall x, In x q <-> In x q') ->
  setEqual q sc = setEqual q' sc.
Proof.
  intros q q' sc H. destruct (setEqual q sc) eqn:E1, (setEqual q' sc) eqn:E2; try reflexivity.
  - exfalso. rewrite setEqual_spec in E1. assert (setEqual q' sc = true) by
      (apply setEqual_spec; intros x; rewrite <- H; apply E1). congruence.
  - exfalso. rewrite setEqual_spec in E2. assert (setEqual q sc = true) by
      (apply setEqual_spec; intros x; rewrite H; apply E2). congruence.
Qed.

(** The scenario found depends only on the set of queried names: order
    and repetitions of the query lines do not matter. *)
Theorem findMatchingScenario_set_invariant : forall d q q',
  (forall x, In x q <-> In x q') -> findMatchingScenario d q = findMatchingScenario d q'.
Proof.
  intros d q q' H. unfold findMatchingScenario. induction (scenarios d) as [|sc l IH]; [reflexivity|].
  simpl. rewrite (setEqual_ext q q' _ H). destruct (setEqual q' _); [reflexivity | exact IH].
Qed.

Lemma findMatchingScenario_set_invariant_witness :
  (forall x, In x ["A"; "A"] <-> In x ["A"]) /\
  findMatchingScenario abcCatalog ["A"; "A"] = findMatchingScenario abcCatalog ["A"].
Proof.
  assert (H : forall x, In x ["A"; "A"] <-> In x ["A"]) by (intros x; simpl; tauto).
  split; [exact H | exact (findMatchingScenario_set_invariant abcCatalog _ _ H)].
Defined.

Lemma validate_missing_eq : forall sc all,
  (filter (fun p => negb (mem p all)) (queriedPackages sc) ++
   filter (fun p => negb (mem p all)) (intermediateNodes sc) ++
   flat_map (fun c => filter (fun p => negb (mem p all)) (cnodes c)) (cycles sc))%list
  = filter (fun p => negb (mem p all)) (scenarioPackages sc).
Proof.
  intros sc all. unfold scenarioPackages. rewrite !filter_app. f_equal. f_equal.
  induction (cycles sc) as [|c l IH]; [reflexivity|]. simpl. rewrite filter_app, IH. reflexivity.
Qed.

(** [validateScenario] accepts a scenario iff every queried package,
    intermediate node and cycle node is in the package set; the missing
    list holds each absent one exactly once. *)
Theorem validateScenario_spec : forall sc all,
  (fst (validateScenario sc all) = true <-> forall p, In p (scenarioPackages sc) -> In p all) /\
  (forall p, In p (snd (validateScenario sc all)) <-> In p (scenarioPackages sc) /\ ~ In p all) /\
  NoDup (snd (validateScenario sc all)).
Proof.
  intros sc all. unfold validateScenario. cbn [fst snd]. rewrite validate_missing_eq.
  split; [|split].
  - rewrite Nat.eqb_eq, length_zero_iff_nil. split.
    + intros H p Hp. destruct (mem p all) eqn:M; [apply mem_In; exact M|].
      assert (Hin : In p (filter (fun p => negb (mem p all)) (scenarioPackages sc)))
        by (apply filter_In; rewrite M; split; [exact Hp | reflexivity]).
      rewrite H in Hin. destruct Hin.
    + intros H. destruct (filter _ _) as [|p r] eqn:F; [reflexivity|].
      exfalso. assert (Hin : In p (filter (fun p => negb (mem p all)) (scenarioPackages sc)))
        by (rewrite F; left; reflexivity).
      apply filter_In in Hin. destruct Hin as [Hp Hm].
      rewrite (proj2 (mem_In p all) (H p Hp)) in Hm. discriminate.
  - intros p. rewrite In_setOf, filter_In, negb_true_iff, mem_false_In. tauto.
  - apply NoDup_setOf.
Qed.

(** ** Toggling cycle visibility *)

Lemma In_listRemove : forall x c l, In x (listRemove c l) <-> In x l /\ x <> c.
Proof.
  intros x c l. unfold listRemove. rewrite filter_In, negb_true_iff, String.eqb_neq. tauto.
Qed.

Lemma In_setAdd : forall x l c, In x (setAdd l c) <-> In x l \/ x = c.
Proof.
  intros x l c. unfold setAdd. destruct (mem c l) eqn:M.
  - apply mem_In in M. split; [tauto|]. intros [H| ->]; [exact H | exact M].
  - rewrite in_app_iff. simpl. split; intros [H|H]; auto; destruct H as [H|[]]; auto.
Qed.

Lemma visible_applyCycleVisualization : forall C s,
  visibleCycles (applyCycleVisualization C s) = visibleCycles s /\
  currentCycleScenario (applyCycleVisualization C s) = currentCycleScenario s /\
  isCyclesMode (applyCycleVisualization C s) = isCyclesMode s /\
  isSubgraphMode (applyCycleVisualization C s) = isSubgraphMode s /\
  highlightedNodes (applyCycleVisualization C s) = highlightedNodes s /\
  allPackages (applyCycleVisualization C s) = allPackages s /\
  waveSystem (applyCycleVisualization C s) = waveSystem s.
Proof.
  intros C s. unfold applyCycleVisualization.
  destruct (currentCycleScenario s) eqn:E; [|repeat split; auto].
  destruct (classifyNodes c) as [[q i] a]. simpl. repeat split; auto.
Qed.

Lemma toggle_fields : forall C s sc c now,
  currentCycleScenario s = Some sc ->
  let s' := toggleCycleVisibility C s c now in
  visibleCycles s' = toggledVisible c (visibleCycles s) /\
  currentCycleScenario s' = Some sc /\ isCyclesMode s' = isCyclesMode s /\
  isSubgraphMode s' = isSubgraphMode s /\ highlightedNodes s' = highlightedNodes s /\
  allPackages s' = allPackages s /\
  match waveSystem s with
  | None => waveSystem s' = None
  | Some _ => waveSystem s' = Some (initializeParticleSystem sc (visibleCycles s') now)
  end.
Proof.
  intros C s sc c now Hsc s'. subst s'. unfold toggleCycleVisibility. rewrite Hsc.
  set (s1 := set_cycles (isCyclesMode s) (Some sc) (toggledVisible c (visibleCycles s)) s).
  change (if mem c (visibleCycles s) then listRemove c (visibleCycles s) else setAdd (visibleCycles s) c)
    with (toggledVisible c (visibleCycles s)).
  fold s1.
  destruct (visible_applyCycleVisualization C s1) as [V [S [M [G [H [A W]]]]]].
  assert (F : visibleCycles s1 = toggledVisible c (visibleCycles s) /\ currentCycleScenario s1 = Some sc /\
              isCyclesMode s1 = isCyclesMode s /\ isSubgraphMode s1 = isSubgraphMode s /\
              highlightedNodes s1 = highlightedNodes s /\ allPackages s1 = allPackages s /\
              waveSystem s1 = waveSystem s) by (subst s1; repeat split).
  destruct F as [V1 [S1 [M1 [G1 [H1 [A1 W1]]]]]].
  assert (EW0 : waveSystem (applyCycleVisualization C s1) = waveSystem s) by (rewrite W; exact W1).
  rewrite EW0. clear W.
  destruct (waveSystem s) eqn:EW; unfold startParticleAnimation;
    cbn [set_waveSystem visibleCycles currentCycleScenario isCyclesMode isSubgraphMode
         highlightedNodes allPackages waveSystem];
    rewrite ?V, ?S, ?M, ?G, ?H, ?A, ?V1, ?S1, ?M1, ?G1, ?H1, ?A1, ?EW0; repeat split.
Qed.

Lemma In_toggledVisible : forall x c vis,
  In x (toggledVisible c vis) <-> (if String.eqb x c then ~ In c vis else In x vis).
Proof.
  intros x c vis. unfold toggledVisible. destruct (String.eqb_spec x c) as [->|Hne].
  - destruct (mem c vis) eqn:M.
    + apply mem_In in M. rewrite In_listRemove. tauto.
    + apply mem_false_In in M. rewrite In_setAdd. tauto.
  - destruct (mem c vis).
    + rewrite In_listRemove. tauto.
    + rewrite In_setAdd. tauto.
Qed.

(** In cycles mode, toggling a cycle id flips the membership of that id
    in the visible set and leaves every other id as it was; the scenario
    and the modes are kept, and a running wave system is rebuilt from the
    new visible set. *)
Theorem toggleCycleVisibility_flips : forall C s sc c now,
  currentCycleScenario s = Some sc ->
  let s' := toggleCycleVisibility C s c now in
  (forall x, In x (visibleCycles s') <->
     (if String.eqb x c then ~ In c (visibleCycles s) else In x (visibleCycles s))) /\
  currentCycleScenario s' = Some sc /\ isCyclesMode s' = isCyclesMode s /\
  isSubgraphMode s' = isSubgraphMode s /\
  match waveSystem s with
  | None => waveSystem s' = None
  | Some _ => waveSystem s' = Some (initializeParticleSystem sc (visibleCycles s') now)
  end.
Proof.
  intros C s sc c now Hsc s'.
  destruct (toggle_fields C s sc c now Hsc) as [V [S [M [G [_ [_ W]]]]]].
  split; [intros x; subst s'; rewrite V; apply In_toggledVisible|].
  split; [exact S|]. split; [exact M|]. split; [exact G | exact W].
Qed.

Lemma toggleCycleVisibility_flips_witness :
  currentCycleScenario abcCycles = Some abScenario /\
  (forall x, In x (visibleCycles (toggleCycleVisibility COLORS_graph abcCycles "c1" 5)) <->
     (if String.eqb x "c1" then ~ In "c1" (visibleCycles abcCycles) else In x (visibleCycles abcCycles))).
Proof.
  assert (H : currentCycleScenario abcCycles = Some abScenario) by (vm_compute; reflexivity).
  split; [exact H|].
  exact (proj1 (toggleCycleVisibility_flips COLORS_graph abcCycles abScenario "c1" 5 H)).
Defined.

(** Toggling the same cycle twice gives back the visible set (as a set;
    a re-added id moves to the end of the JS Set's insertion order). *)
Theorem toggleCycleVisibility_twice : forall C s sc c t1 t2,
  currentCycleScenario s = Some sc ->
  forall x, In x (visibleCycles (toggleCycleVisibility C (toggleCycleVisibility C s c t1) c t2))
            <-> In x (visibleCycles s).
Proof.
  intros C s sc c t1 t2 Hsc x.
  destruct (toggle_fields C s sc c t1 Hsc) as [V1 [S1 _]].
  destruct (toggle_fields C _ sc c t2 S1) as [V2 _].
  rewrite V2, In_toggledVisible, V1.
  destruct (String.eqb_spec x c) as [->|Hne].
  - pose proof (In_toggledVisible c c (visibleCycles s)) as T. rewrite String.eqb_refl in T.
    rewrite T.
    destruct (in_dec String.string_dec c (visibleCycles s)); tauto.
  - pose proof (In_toggledVisible x c (visibleCycles s)) as T.
    destruct (String.eqb_spec x c); [congruence|]. exact T.
Qed.

Lemma toggleCycleVisibility_twice_witness :
  currentCycleScenario abcCycles = Some abScenario /\
  (In "c1" (visibleCycles (toggleCycleVisibility COLORS_graph
      (toggleCycleVisibility COLORS_graph abcCycles "c1" 5) "c1" 6)) <-> In "c1" (visibleCycles abcCycles)).
Proof.
  assert (H : currentCycleScenario abcCycles = Some abScenario) by (vm_compute; reflexivity).
  split; [exact H | exact (toggleCycleVisibility_twice COLORS_graph abcCycles abScenario "c1" 5 6 H "c1")].
Defined.

(** ** Particle initialisation and [detectCycles] outcomes *)

Lemma filter_all_true : forall {A} (f : A -> bool) l, (forall x, In x l -> f x = true) -> filter f l = l.
Proof.
  intros A f l H. induction l as [|x r IH]; [reflexivity|]. simpl.
  rewrite (H x (or_introl eq_refl)), IH; [reflexivity|]. intros y Hy. apply H. right. exact Hy.
Qed.

Lemma initial_particles_length : forall sc vis now,
  List.length (particles (initializeParticleSystem sc vis now)) =
  (3 * List.length (filter (fun c => mem (cid c) vis) (cycles sc)))%nat.
Proof.
  intros sc vis now. simpl. induction (cycles sc) as [|c r IH]; [reflexivity|].
  simpl. rewrite length_app, IH. destruct (mem (cid c) vis); simpl; lia.
Qed.

Lemma initial_particles_structure : forall sc vis now,
  map (fun pt => (cycleId pt, edgeIndex pt, pcolor pt)) (particles (initializeParticleSystem sc vis now))
    = flat_map (fun c => repeat (cid c, 0%nat, ccolor c) 3) (filter (fun c => mem (cid c) vis) (cycles sc)) /\
  map (fun pt => Qred (progress pt)) (particles (initializeParticleSystem sc vis now))
    = flat_map (fun _ => [0; 1#3; 2#3]) (filter (fun c => mem (cid c) vis) (cycles sc)).
Proof.
  intros sc vis now. unfold initializeParticleSystem. cbn [particles].
  induction (cycles sc) as [|c r [IH1 IH2]]; [split; reflexivity|].
  cbn [flat_map filter]. destruct (mem (cid c) vis); cbn [negb].
  - cbn [flat_map]. rewrite !map_app, IH1, IH2. split; reflexivity.
  - exact (conj IH1 IH2).
Qed.

(** [initializeParticleSystem] creates, for each visible cycle in
    scenario order, three particles on edge 0 of that cycle with the
    cycle's id and colour, at progress 0, 1/3 and 2/3 (so three per
    visible cycle in total); it records the start time and no animation
    id. *)
Theorem initializeParticleSystem_shape : forall sc vis now,
  let sys := initializeParticleSystem sc vis now in
  let vc := filter (fun c => mem (cid c) vis) (cycles sc) in
  map (fun pt => (cycleId pt, edgeIndex pt, pcolor pt)) (particles sys)
    = flat_map (fun c => repeat (cid c, 0%nat, ccolor c) 3) vc /\
  map (fun pt => Qred (progress pt)) (particles sys) = flat_map (fun _ => [0; 1#3; 2#3]) vc /\
  List.length (particles sys) = (3 * List.length vc)%nat /\
  lastFrame sys = now /\ animationId sys = None /\
  (forall pt, In pt (particles sys) ->
     edgeIndex pt = 0%nat /\
     (exists c, In c (cycles sc) /\ In (cid c) vis /\ cycleId pt = cid c /\ pcolor pt = ccolor c) /\
     (progress pt == 0 \/ progress pt == 1#3 \/ progress pt == 2#3)).
Proof.
  intros sc vis now sys vc. subst sys vc.
  destruct (initial_particles_structure sc vis now) as [S1 S2].
  split; [exact S1|]. split; [exact S2|].
  split; [|split; [reflexivity | split; [reflexivity|]]].
  - apply initial_particles_length.
  - intros pt Hin. simpl in Hin. apply in_flat_map in Hin. destruct Hin as [c [Hc Hin]].
    destruct (mem (cid c) vis) eqn:M; [|destruct Hin].
    apply mem_In in M. simpl in Hin.
    destruct Hin as [<-|[<-|[<-|[]]]]; (split; [reflexivity|]);
      (split; [exists c; repeat split; assumption|]); simpl.
    + left. reflexivity.
    + right. left. reflexivity.
    + right. right. reflexivity.
Qed.

(** [detectCycles] never throws: it ends with an alert or normally. A
    normal end means the query matched a scenario whose packages all exist;
    the state is then in cycles mode (and out of subgraph mode) on that
    scenario with every cycle visible, and its wave system, started at
    [now], holds for each cycle of the scenario, in order, three particles
    on edge 0 of that cycle with its id and colour, at progress 0, 1/3 and
    2/3. *)
Theorem detectCycles_outcome : forall C s t d now,
  let r := detectCycles C s t d now in
  (forall e, snd r <> Raised e) /\
  (snd r = Done ->
   exists sc, findMatchingScenario d (queriedOf t) = Some sc /\
     (forall p, In p (scenarioPackages sc) -> In p (allPackages s)) /\
     isCyclesMode (fst r) = true /\ isSubgraphMode (fst r) = false /\
     currentCycleScenario (fst r) = Some sc /\
     (forall x, In x (visibleCycles (fst r)) <-> In x (map cid (cycles sc))) /\
     exists w, waveSystem (fst r) = Some w /\ lastFrame w = now /\
       map (fun pt => (cycleId pt, edgeIndex pt, pcolor pt)) (particles w)
         = flat_map (fun c => repeat (cid c, 0%nat, ccolor c) 3) (cycles sc) /\
       map (fun pt => Qred (progress pt)) (particles w) = flat_map (fun _ => [0; 1#3; 2#3]) (cycles sc) /\
       List.length (particles w) = (3 * List.length (cycles sc))%nat).
Proof.
  intros C s t d now r. subst r. unfold detectCycles.
  set (s1 := if isSubgraphMode s then clearSubgraphMode s else s).
  assert (A1 : allPackages s1 = allPackages s /\ isSubgraphMode s1 = false)
    by (subst s1; destruct (isSubgraphMode s) eqn:E; split; try reflexivity; exact E).
  destruct A1 as [A1 G1].
  unfold queriedOf.
  destruct (String.eqb (trim t) ""); [split; [intros e; discriminate | intros H; discriminate]|].
  destruct (filter _ _) as [|q qs] eqn:Q; [split; [intros e; discriminate | intros H; discriminate]|].
  destruct (findMatchingScenario d (q :: qs)) as [sc|] eqn:F;
    [|split; [intros e; discriminate | intros H; discriminate]].
  destruct (validateScenario sc (setOf (allPackages s1))) as [valid missing] eqn:V.
  destruct valid eqn:Vb; cbn [negb fst snd]; [|split; [intros e; discriminate | intros H; discriminate]].
  split; [intros e; discriminate|]. intros _.
  destruct (validateScenario_spec sc (setOf (allPackages s1))) as [Vs _].
  rewrite V in Vs. simpl in Vs. destruct Vs as [Vs _]. specialize (Vs eq_refl).
  set (s2 := set_cycles true (Some sc) (setOf (map cid (cycles sc))) s1).
  destruct (visible_applyCycleVisualization C s2) as [VV [SS [MM [GG _]]]].
  exists sc. split; [reflexivity|]. split.
  { intros p Hp. rewrite <- A1. apply (In_setOf (allPackages s1) p). apply Vs. exact Hp. }
  unfold startParticleAnimation. cbn [set_waveSystem isCyclesMode isSubgraphMode
    currentCycleScenario visibleCycles waveSystem].
  rewrite VV, SS, MM, GG. subst s2. cbn [set_cycles isCyclesMode isSubgraphMode
    currentCycleScenario visibleCycles].
  split; [reflexivity|]. split; [exact G1|]. split; [reflexivity|].
  split; [intros x; apply In_setOf|].
  eexists. split; [reflexivity|]. split; [reflexivity|].
  destruct (initial_particles_structure sc (setOf (map cid (cycles sc))) now) as [S1 S2].
  assert (Fa : filter (fun c => mem (cid c) (setOf (map cid (cycles sc)))) (cycles sc) = cycles sc)
    by (apply filter_all_true; intros c Hc; apply mem_In, In_setOf, in_map; exact Hc).
  rewrite Fa in S1, S2. split; [exact S1|]. split; [exact S2|].
  rewrite initial_particles_length, Fa. reflexivity.
Qed.

(** ** Handler outcomes and mode invariants of reachable states *)

Lemma expand_filtered_ok : forall g text acc,
  exists ex, expandNeighbors g (filterPackages g text) acc = Ok ex.
Proof.
  intros g text acc.
  destruct (expandNeighbors_spec g (filterPackages g text) acc) as [ex [H _]].
  - intros p Hp. unfold filterPackages in Hp. apply filter_In in Hp.
    destruct Hp as [_ Hp]. apply andb_true_iff in Hp. exact (proj2 Hp).
  - exists ex. exact H.
Qed.

(** Of the handlers wired to user events, only selectNode can throw,
    and it throws exactly when the node is absent from the graph;
    focusOnNode and applySubgraphFilter never throw. *)
Theorem handlers_raise_only_on_absent_node : forall C s n t,
  (forall e, snd (focusOnNode C s n) <> Raised e) /\
  (forall e, snd (applySubgraphFilter C s t) <> Raised e) /\
  ((exists e, snd (selectNode C s n) = Raised e) <-> hasNode (graph s) n = false).
Proof.
  intros C s n t.
  assert (Sel : hasNode (graph s) n = true -> snd (selectNode C s n) = Done).
  { intros H. unfold selectNode, outNeighbors, inNeighbors. cbn [graph set_selectedNode].
    rewrite H. reflexivity. }
  split; [|split].
  - intros e. unfold focusOnNode. destruct (hasNode (graph s) n) eqn:H; simpl; [|discriminate].
    rewrite (Sel eq_refl). discriminate.
  - intros e. unfold applySubgraphFilter.
    destruct (String.eqb _ ""); [discriminate|].
    destruct (filterPackages _ _) as [|p ps] eqn:F; [discriminate|].
    destruct (expand_filtered_ok (graph (if isCyclesMode s then clearCyclesMode s else s))
                (trim t) (setOf (p :: ps))) as [ex Hex].
    rewrite F in Hex. rewrite Hex. discriminate.
  - split.
    + intros [e He]. destruct (hasNode (graph s) n) eqn:H; [|reflexivity].
      rewrite (Sel eq_refl) in He. discriminate.
    + intros H. exists (NotFoundGraphError "outNeighbors: node not found").
      unfold selectNode, outNeighbors. cbn [graph set_selectedNode]. rewrite H. reflexivity.
Qed.

Lemma modeInv_congr : forall s s', modeFields s' = modeFields s -> modeInv s -> modeInv s'.
Proof.
  intros s s' H I. unfold modeFields in H.
  injection H as Ha Hh Hs Hc Hsc Hv Hw Hk. unfold modeInv.
  rewrite Ha, Hh, Hs, Hc, Hsc, Hv, Hw, Hk. exact I.
Qed.

Lemma nkeys_forEachNode : forall g f, (forall a, nkey (f a) = nkey a) ->
  map nkey (gnodes (forEachNode g f)) = map nkey (gnodes g).
Proof. intros g f Hf. simpl. rewrite map_map. apply map_ext. exact Hf. Qed.

Ltac node_keys :=
  intros; unfold selectNodeColors, subgraphNode, cycleNode, restoreNode;
  repeat match goal with |- context [match ?x with _ => _ end] => destruct x end; reflexivity.

Ltac fields_solve :=
  unfold modeFields;
  repeat first
    [ rewrite nkeys_forEachNode by node_keys
    | progress cbn [graph gnodes gedges set_graph set_selectedNode set_subgraph set_cycles
                    set_waveSystem forEachEdge startParticleAnimation fst snd allPackages
                    highlightedNodes isSubgraphMode isCyclesMode currentCycleScenario
                    visibleCycles waveSystem]
    | reflexivity ].

Lemma fields_selectNode : forall C s n, modeFields (fst (selectNode C s n)) = modeFields s.
Proof.
  intros C s n. unfold selectNode.
  destruct (outNeighbors _ n); [|fields_solve]. destruct (inNeighbors _ n); fields_solve.
Qed.

Lemma fields_focusOnNode : forall C s n, modeFields (fst (focusOnNode C s n)) = modeFields s.
Proof.
  intros C s n. unfold focusOnNode. destruct (negb _); [reflexivity|]. apply fields_selectNode.
Qed.

Lemma fields_clearSelection : forall s, modeFields (clearSelection s) = modeFields s.
Proof.
  intros s. unfold clearSelection. destruct (isSubgraphMode s); [reflexivity|].
  unfold modeFields. cbn [graph set_graph set_selectedNode allPackages highlightedNodes
    isSubgraphMode isCyclesMode currentCycleScenario visibleCycles waveSystem gnodes forEachEdge].
  rewrite nkeys_forEachNode by reflexivity. reflexivity.
Qed.

Lemma fields_applyCycleVisualization : forall C s,
  modeFields (applyCycleVisualization C s) = modeFields s.
Proof.
  intros C s. unfold applyCycleVisualization.
  destruct (currentCycleScenario s); [|reflexivity].
  destruct (classifyNodes c) as [[q i] a]. fields_solve.
Qed.

Lemma nkeys_clearSubgraphMode : forall s,
  map nkey (gnodes (graph (clearSubgraphMode s))) = map nkey (gnodes (graph s)).
Proof. intros s. unfold clearSubgraphMode. cbn. rewrite map_map. reflexivity. Qed.

Lemma nkeys_clearCyclesMode : forall s,
  map nkey (gnodes (graph (clearCyclesMode s))) = map nkey (gnodes (graph s)).
Proof. intros s. unfold clearCyclesMode. cbn. rewrite map_map. reflexivity. Qed.

Lemma inv_clearSubgraphMode : forall s, modeInv s -> modeInv (clearSubgraphMode s).
Proof.
  intros s [I1 [I2 [I3 [I4 [I5 I6]]]]].
  unfold modeInv. rewrite nkeys_clearSubgraphMode. unfold clearSubgraphMode.
  cbn [graph set_graph set_subgraph allPackages highlightedNodes isSubgraphMode isCyclesMode
       currentCycleScenario visibleCycles waveSystem].
  split; [intros H; discriminate|]. split; [exact I2|]. split; [exact I3|].
  split; [reflexivity|]. split; [exact I5 | exact I6].
Qed.

Lemma inv_clearCyclesMode : forall s, modeInv s -> modeInv (clearCyclesMode s).
Proof.
  intros s [I1 [I2 [I3 [I4 [I5 I6]]]]].
  unfold modeInv. rewrite nkeys_clearCyclesMode. unfold clearCyclesMode.
  cbn [graph set_graph set_cycles set_waveSystem allPackages highlightedNodes isSubgraphMode
       isCyclesMode currentCycleScenario visibleCycles waveSystem].
  split; [reflexivity|]. split; [split; intros H; [discriminate | congruence]|].
  split; [split; intros H; [discriminate | congruence]|].
  split; [exact I4|]. split; [intros sc w pt H1; discriminate | exact I6].
Qed.

Lemma inv_selectNode : forall C s n, modeInv s -> modeInv (fst (selectNode C s n)).
Proof. intros C s n. apply modeInv_congr. apply fields_selectNode. Qed.

Lemma findCycle_member : forall sc c, In c (cycles sc) -> findCycle sc (cid c) <> None.
Proof.
  intros sc c Hc. unfold findCycle. destruct (find _ _) eqn:F; [discriminate|].
  intros _. pose proof (find_none _ _ F c Hc) as H. simpl in H.
  rewrite String.eqb_refl in H. discriminate.
Qed.

Lemma initial_particles_visible : forall sc vis now pt,
  In pt (particles (initializeParticleSystem sc vis now)) ->
  In (cycleId pt) vis /\ findCycle sc (cycleId pt) <> None.
Proof.
  intros sc vis now pt Hin. simpl in Hin. apply in_flat_map in Hin. destruct Hin as [c [Hc Hin]].
  destruct (mem (cid c) vis) eqn:M; [|destruct Hin].
  apply mem_In in M. simpl in Hin.
  destruct Hin as [<-|[<-|[<-|[]]]]; (split; [exact M | apply findCycle_member; exact Hc]).
Qed.

Lemma teardown_cycles_inv : forall s, modeInv s ->
  let s1 := if isCyclesMode s then clearCyclesMode s else s in
  modeInv s1 /\ isCyclesMode s1 = false /\ currentCycleScenario s1 = None /\ waveSystem s1 = None /\
  allPackages s1 = allPackages s /\ map nkey (gnodes (graph s1)) = map nkey (gnodes (graph s)).
Proof.
  intros s I s1. subst s1. destruct (isCyclesMode s) eqn:E.
  - split; [apply inv_clearCyclesMode; exact I|]. rewrite nkeys_clearCyclesMode.
    repeat split; reflexivity.
  - change (if false then clearCyclesMode s else s) with s.
    split; [exact I|]. destruct I as [I1 [I2 [I3 _]]]. split; [exact E|].
    split; [destruct (currentCycleScenario s) eqn:Sc; [exfalso|reflexivity];
      assert (isCyclesMode s = true) by (apply I2; congruence); congruence|].
    split; [destruct (waveSystem s) eqn:Ws; [exfalso|reflexivity];
      assert (isCyclesMode s = true) by (apply I3; congruence); congruence|].
    split; reflexivity.
Qed.

Lemma inv_applySubgraphFilter : forall C s t, modeInv s -> modeInv (fst (applySubgraphFilter C s t)).
Proof.
  intros C s t I. destruct (teardown_cycles_inv s I) as [I1 [C1 [S1 [W1 [A1 K1]]]]].
  unfold applySubgraphFilter.
  set (s1 := if isCyclesMode s then clearCyclesMode s else s) in *.
  destruct (String.eqb _ ""); [apply inv_clearSubgraphMode; exact I1|].
  destruct (filterPackages _ _) as [|p ps]; [exact I1|].
  destruct (expandNeighbors _ _ _) as [ex|e]; [|exact I1].
  destruct I1 as [_ [_ [_ [_ [_ I6]]]]].
  unfold modeInv. cbn [fst graph set_graph set_subgraph allPackages highlightedNodes
    isSubgraphMode isCyclesMode currentCycleScenario visibleCycles waveSystem gnodes forEachEdge].
  rewrite nkeys_forEachNode by node_keys.
  rewrite C1, S1, W1.
  split; [intros _; reflexivity|]. split; [split; intros H; [discriminate | congruence]|].
  split; [split; intros H; [discriminate | congruence]|].
  split; [intros H; discriminate|]. split; [intros sc w pt H; discriminate | exact I6].
Qed.

Lemma inv_detectCycles : forall C s t d now, modeInv s -> modeInv (fst (detectCycles C s t d now)).
Proof.
  intros C s t d now I. unfold detectCycles.
  set (s1 := if isSubgraphMode s then clearSubgraphMode s else s).
  assert (I1 : modeInv s1 /\ isSubgraphMode s1 = false).
  { subst s1. destruct (isSubgraphMode s) eqn:E.
    - split; [apply inv_clearSubgraphMode; exact I | reflexivity].
    - split; [exact I | exact E]. }
  destruct I1 as [I1 G1].
  destruct (String.eqb _ ""); [exact I1|].
  destruct (filter _ _); [exact I1|].
  destruct (findMatchingScenario _ _) as [sc|]; [|exact I1].
  destruct (validateScenario _ _) as [valid missing]. destruct valid; cbn [negb fst snd]; [|exact I1].
  set (s2 := set_cycles true (Some sc) (setOf (map cid (cycles sc))) s1).
  destruct (visible_applyCycleVisualization C s2) as [Fv [Fsc [Fc [Fs [Fh [Fa _]]]]]].
  assert (Fk : map nkey (gnodes (graph (applyCycleVisualization C s2))) = map nkey (gnodes (graph s2)))
    by exact (f_equal (fun x => match x with (_, _, _, _, _, _, _, k) => k end)
                (fields_applyCycleVisualization C s2)).
  destruct I1 as [_ [_ [_ [I4 [_ I6]]]]].
  unfold startParticleAnimation, modeInv.
  cbn [graph set_waveSystem allPackages highlightedNodes isSubgraphMode isCyclesMode
       currentCycleScenario visibleCycles waveSystem].
  rewrite Fa, Fh, Fs, Fc, Fsc, Fv, Fk. subst s2.
  cbn [graph set_cycles allPackages highlightedNodes isSubgraphMode isCyclesMode
       currentCycleScenario visibleCycles waveSystem].
  rewrite G1.
  split; [intros H; discriminate|]. split; [split; [intros _; discriminate | reflexivity]|].
  split; [split; [intros _; discriminate | reflexivity]|]. split; [intros _; exact (I4 G1)|].
  split; [|exact I6].
  intros sc' w pt Hsc Hw Hin. injection Hsc as <-. injection Hw as <-.
  exact (initial_particles_visible _ _ _ _ Hin).
Qed.

Lemma inv_toggle : forall C s c now, modeInv s -> modeInv (toggleCycleVisibility C s c now).
Proof.
  intros C s c now I. destruct (currentCycleScenario s) as [sc|] eqn:Hsc;
    [|unfold toggleCycleVisibility; rewrite Hsc; exact I].
  destruct (toggle_fields C s sc c now Hsc) as [V [S [M [G [H [A W]]]]]].
  assert (K : map nkey (gnodes (graph (toggleCycleVisibility C s c now))) = map nkey (gnodes (graph s))).
  { unfold toggleCycleVisibility. rewrite Hsc.
    destruct (waveSystem _); unfold startParticleAnimation; cbn [graph set_waveSystem];
      exact (f_equal (fun x => match x with (_, _, _, _, _, _, _, k) => k end)
                   (fields_applyCycleVisualization C _)). }
  destruct I as [I1 [I2 [I3 [I4 [I5 I6]]]]].
  unfold modeInv. rewrite K, S, M, G, H, A.
  split; [exact I1|]. split; [rewrite Hsc in I2; exact I2|].
  split; [|split; [exact I4|split; [|exact I6]]].
  - rewrite I3. destruct (waveSystem s); rewrite W; split; intros X; try discriminate; exact X.
  - intros sc' w pt Hsc' Hw Hin. injection Hsc' as <-.
    destruct (waveSystem s); rewrite W in Hw; [|discriminate].
    injection Hw as <-. exact (initial_particles_visible _ _ _ _ Hin).
Qed.

Lemma addNodes_nkeys : forall C ns g g', addNodes C g ns = Ok g' ->
  map nkey (gnodes g') = (map nkey (gnodes g) ++ map in_id ns)%list.
Proof.
  intros C ns. induction ns as [|n ns IH]; intros g g' H.
  - injection H as <-. rewrite app_nil_r. reflexivity.
  - simpl in H. unfold addNode in H. destruct (hasNode g _); simpl in H; [discriminate|].
    rewrite (IH _ _ H). simpl. rewrite map_app, <- app_assoc. reflexivity.
Qed.

Lemma reachable_modeInv : forall C s, reachable C s -> modeInv s.
Proof.
  intros C s R. induction R.
  - unfold createGraph in H. destruct (addNodes C emptyGraph (data_nodes data)) as [g0|err] eqn:E;
      [|discriminate].
    simpl in H. destruct (addEdges_ok _ _ _ _ _ H) as [Hn _].
    unfold modeInv, initState.
    cbn [isSubgraphMode isCyclesMode currentCycleScenario waveSystem highlightedNodes
         allPackages graph visibleCycles].
    split; [intros X; discriminate|].
    split; [split; [intros X; discriminate | intros X; exfalso; apply X; reflexivity]|].
    split; [split; [intros X; discriminate | intros X; exfalso; apply X; reflexivity]|].
    split; [intros _; reflexivity|]. split; [intros sc w pt X; discriminate|].
    intros p Hp. rewrite Hn, (addNodes_nkeys _ _ _ _ E). exact Hp.
  - apply inv_selectNode. exact IHR.
  - unfold focusOnNode. destruct (negb _); [exact IHR | apply inv_selectNode; exact IHR].
  - apply (modeInv_congr s); [apply fields_clearSelection | exact IHR].
  - apply inv_clearSubgraphMode. apply (modeInv_congr s); [apply fields_clearSelection | exact IHR].
  - apply inv_applySubgraphFilter. exact IHR.
  - apply inv_clearSubgraphMode. exact IHR.
  - apply inv_detectCycles. exact IHR.
  - apply inv_toggle. exact IHR.
  - apply inv_clearCyclesMode. exact IHR.
Qed.

Lemma hasNode_In_nkeys : forall g p, In p (map nkey (gnodes g)) -> hasNode g p = true.
Proof.
  intros g p H. apply in_map_iff in H. destruct H as [a [<- Ha]].
  unfold hasNode. apply existsb_exists. exists a. split; [exact Ha | apply String.eqb_refl].
Qed.



(** ** [createGraph]: nodes and edges *)

Lemma digit_value : forall n, (n < 10)%nat -> (nat_of_ascii (ascii_of_nat (48 + n)) - 48)%nat = n.
Proof.
  intros n H. rewrite nat_ascii_embedding; lia.
Qed.

Lemma decimalValue_digits_aux : forall f n acc,
  (n < 10 ^ f)%nat -> decimalValue_aux 0 (digits_aux f n acc) = decimalValue_aux n acc.
Proof.
  induction f as [|f IH]; intros n acc H.
  - simpl in H. assert (n = 0%nat) by lia. subst n. reflexivity.
  - cbn [digits_aux]. pose proof (Nat.mod_upper_bound n 10 ltac:(lia)) as Hm.
    destruct (Nat.ltb n 10) eqn:L.
    + apply Nat.ltb_lt in L. cbn [decimalValue_aux]. rewrite digit_value by exact Hm.
      rewrite Nat.mod_small by exact L. reflexivity.
    + apply Nat.ltb_ge in L. rewrite IH.
      * cbn [decimalValue_aux]. rewrite digit_value by exact Hm.
        f_equal. pose proof (Nat.div_mod_eq n 10). lia.
      * rewrite Nat.pow_succ_r' in H. apply Nat.Div0.div_lt_upper_bound. lia.
Qed.

Lemma string_of_nat_decimal : forall n, decimalValue (string_of_nat n) = n.
Proof.
  intros n. unfold decimalValue, string_of_nat. rewrite decimalValue_digits_aux; [reflexivity|].
  apply Nat.lt_le_trans with (10 ^ n)%nat; [apply Nat.pow_gt_lin_r; lia | apply Nat.pow_le_mono_r; lia].
Qed.

Lemma generatedEdgeKey_inj : forall i j, generatedEdgeKey i = generatedEdgeKey j -> i = j.
Proof.
  intros i j H. unfold generatedEdgeKey in H. simpl in H.
  repeat match goal with H : String _ _ = String _ _ |- _ => injection H as H end.
  rewrite <- (string_of_nat_decimal i), <- (string_of_nat_decimal j), H. reflexivity.
Qed.

Lemma keysBelow_generated : forall g, keysBelow g -> keysGenerated g.
Proof.
  intros g K e Hin. destruct (K e Hin) as [j [_ Hj]]. exists j. exact Hj.
Qed.

Lemma keysBelow_fresh : forall g, keysBelow g -> hasEdge g (generatedEdgeKey (gnextEdge g)) = false.
Proof.
  intros g K. unfold hasEdge.
  destruct (existsb _ _) eqn:X; [|reflexivity].
  apply existsb_exists in X. destruct X as [e [Hin Heq]]. apply String.eqb_eq in Heq.
  destruct (K e Hin) as [j [Hj Hk]]. rewrite Hk in Heq. apply generatedEdgeKey_inj in Heq. lia.
Qed.

Lemma hasPair_In : forall g s t, hasPair g s t = true <-> In (s, t) (map (fun e => (source e, target e)) (gedges g)).
Proof.
  intros g s t. unfold hasPair. rewrite existsb_exists. split.
  - intros [e [Hin He]]. apply andb_true_iff in He. destruct He as [H1 H2].
    apply String.eqb_eq in H1, H2. apply in_map_iff. exists e. subst. split; [reflexivity | exact Hin].
  - intros Hin. apply in_map_iff in Hin. destruct Hin as [e [He Hin]]. injection He as <- <-.
    exists e. split; [exact Hin|]. rewrite !String.eqb_refl. reflexivity.
Qed.

Lemma addNodes_cases : forall C ns g, NoDup (map nkey (gnodes g)) ->
  (NoDup (map nkey (gnodes g) ++ map in_id ns)%list /\
   addNodes C g ns = Ok {| gnodes := (gnodes g ++ map (createNodeAttrs C) ns)%list;
                           gedges := gedges g; gnextEdge := gnextEdge g |}) \/
  (~ NoDup (map nkey (gnodes g) ++ map in_id ns)%list /\
   addNodes C g ns = Err (UsageGraphError "addNode: the node already exist")).
Proof.
  intros C ns. induction ns as [|n ns IH]; intros g Hg.
  - left. rewrite !app_nil_r. split; [exact Hg|]. destruct g. reflexivity.
  - simpl addNodes. unfold addNode. cbn [nkey createNodeAttrs].
    destruct (hasNode g (in_id n)) eqn:Hn.
    + right. split; [|reflexivity]. intros ND. simpl in ND. apply NoDup_remove_2 in ND.
      apply ND. apply in_or_app. left. unfold hasNode in Hn. apply existsb_exists in Hn.
      destruct Hn as [a [Ha Heq]]. apply String.eqb_eq in Heq. rewrite <- Heq.
      apply in_map. exact Ha.
    + simpl bindR.
      assert (Hg1 : NoDup (map nkey (gnodes g ++ [createNodeAttrs C n])%list)).
      { rewrite map_app. simpl. apply NoDup_app; [exact Hg | constructor; [intros [] | constructor]|].
        intros x Hx [<-|[]]. unfold hasNode in Hn.
        apply in_map_iff in Hx. destruct Hx as [a [Ha Hin]].
        assert (existsb (fun a0 => String.eqb (nkey a0) (in_id n)) (gnodes g) = true) as Y.
        { apply existsb_exists. exists a. split; [exact Hin|]. rewrite Ha. cbn. apply String.eqb_refl. }
        rewrite Y in Hn. discriminate. }
      destruct (IH {| gnodes := (gnodes g ++ [createNodeAttrs C n])%list; gedges := gedges g; gnextEdge := gnextEdge g |} Hg1) as [[ND E] | [ND E]]; cbn [gnodes gedges gnextEdge] in ND, E;
        rewrite map_app, <- app_assoc in ND; simpl in ND.
      * left. split; [exact ND|]. rewrite E, <- app_assoc. reflexivity.
      * right. split; [exact ND | exact E].
Qed.

Lemma createdEdges_ext : forall f f' es i, (forall p, f p = f' p) ->
  createdEdges f i es = createdEdges f' i es.
Proof.
  intros f f' es. induction es as [|e es IH]; intros i H; [reflexivity|].
  simpl. rewrite !H, IH by exact H. reflexivity.
Qed.

Lemma addEdges_result : forall C es g i g', keysBelow g ->
  addEdges C g i es = Ok g' ->
  map edgeTriple (gedges g') = (map edgeTriple (gedges g) ++ createdEdges (hasNode g) i es)%list /\
  (forall e, In e (gedges g') -> In e (gedges g) \/
     (ecolor e = edgeDefault C /\ esize e = 1#2 /\ eoriginalColor e = edgeDefault C /\ ehidden e = None)).
Proof.
  intros C es. induction es as [|e es IH]; intros g i g' K H.
  - injection H as <-. rewrite app_nil_r. split; [reflexivity | left; assumption].
  - rewrite addEdges_cons in H. rewrite (hasEdge_edgeId_false g i (keysBelow_generated g K)) in H.
    simpl createdEdges. destruct (hasNode g (in_source e) && hasNode g (in_target e)) eqn:P.
    + simpl negb in H. cbv iota in H. unfold addEdge in H. apply andb_true_iff in P.
      destruct P as [P1 P2]. rewrite P1, P2 in H. simpl negb in H. cbv iota in H.
      destruct (hasPair g (in_source e) (in_target e)); [discriminate|].
      rewrite (keysBelow_fresh g K) in H. simpl bindR in H.
      set (g1 := {| gnodes := gnodes g; gedges := _; gnextEdge := _ |}) in H.
      assert (K1 : keysBelow g1).
      { intros x Hx. simpl in Hx. apply in_app_or in Hx. destruct Hx as [Hx | [<- | []]].
        - destruct (K x Hx) as [j [Hj Hk]]. exists j. simpl. split; [lia | exact Hk].
        - exists (gnextEdge g). simpl. split; [lia | reflexivity]. }
      destruct (IH g1 (S i) g' K1 H) as [E1 E2].
      rewrite (createdEdges_ext (hasNode g1) (hasNode g)) in E1
        by (intros p; apply hasNode_same_nodes; reflexivity).
      split.
      * rewrite E1. simpl. rewrite map_app, <- app_assoc. reflexivity.
      * intros x Hx. destruct (E2 x Hx) as [Hx1 | D]; [|right; exact D].
        simpl in Hx1. apply in_app_or in Hx1. destruct Hx1 as [Hx1 | [<- | []]].
        -- left. exact Hx1.
        -- right. simpl. repeat split.
    + simpl bindR in H. exact (IH g (S i) g' K H).
Qed.

Lemma addEdges_succeeds : forall C es g i, keysBelow g ->
  NoDup (map (fun e => (source e, target e)) (gedges g)) ->
  ((exists g', addEdges C g i es = Ok g') <->
   NoDup (map (fun e => (source e, target e)) (gedges g) ++ map fst (createdEdges (hasNode g) i es))%list).
Proof.
  intros C es. induction es as [|e es IH]; intros g i K ND.
  - simpl. rewrite app_nil_r. split; [intros _; exact ND | intros _; exists g; reflexivity].
  - rewrite addEdges_cons. rewrite (hasEdge_edgeId_false g i (keysBelow_generated g K)).
    simpl createdEdges. destruct (hasNode g (in_source e) && hasNode g (in_target e)) eqn:P.
    + simpl negb. cbv iota. unfold addEdge. apply andb_true_iff in P.
      destruct P as [P1 P2]. rewrite P1, P2. simpl negb. cbv iota.
      destruct (hasPair g (in_source e) (in_target e)) eqn:HP.
      * simpl. split; [intros [g' Hg']; discriminate|].
        intros ND2. exfalso. apply hasPair_In in HP. apply NoDup_remove_2 in ND2.
        apply ND2. apply in_or_app. left. exact HP.
      * rewrite (keysBelow_fresh g K). simpl bindR.
        set (g1 := {| gnodes := gnodes g; gedges := _; gnextEdge := _ |}).
        assert (K1 : keysBelow g1).
        { intros x Hx. simpl in Hx. apply in_app_or in Hx. destruct Hx as [Hx | [<- | []]].
          - destruct (K x Hx) as [j [Hj Hk]]. exists j. simpl. split; [lia | exact Hk].
          - exists (gnextEdge g). simpl. split; [lia | reflexivity]. }
        assert (ND1 : NoDup (map (fun e => (source e, target e)) (gedges g1))).
        { simpl. rewrite map_app. simpl. apply NoDup_app; [exact ND | constructor; [intros [] | constructor]|].
          intros x Hx [<-|[]]. assert (hasPair g (in_source e) (in_target e) = true) as Y
            by (apply hasPair_In; exact Hx). rewrite Y in HP. discriminate. }
        rewrite (IH g1 (S i) K1 ND1).
        rewrite (createdEdges_ext (hasNode g1) (hasNode g))
          by (intros p; apply hasNode_same_nodes; reflexivity).
        simpl. rewrite map_app, <- app_assoc. reflexivity.
    + simpl bindR. exact (IH g (S i) K ND).
Qed.

Lemma hasNode_mem : forall l p, hasNode {| gnodes := l; gedges := []; gnextEdge := 0 |} p =
  mem p (map nkey l).
Proof.
  intros l p. unfold hasNode, mem. simpl. induction l as [|a l IH]; [reflexivity|].
  simpl. rewrite IH, String.eqb_sym. reflexivity.
Qed.

Lemma nkeys_createNodeAttrs : forall C ns, map nkey (map (createNodeAttrs C) ns) = map in_id ns.
Proof. intros C ns. rewrite map_map. reflexivity. Qed.

(** createGraph, node phase: construction raises graphology's
    [UsageGraphError] exactly when two input nodes share an id; when it
    succeeds, the graph's nodes are the input nodes in input order, each
    with size 8 for a base package and 4 otherwise, the default colour as
    colour and original colour, and no hidden flag. *)
Theorem createGraph_nodes : forall C data,
  (~ NoDup (map in_id (data_nodes data)) ->
   createGraph C data = Err (UsageGraphError "addNode: the node already exist")) /\
  (forall g, createGraph C data = Ok g ->
   NoDup (map in_id (data_nodes data)) /\ gnodes g = map (createNodeAttrs C) (data_nodes data)).
Proof.
  intros C data. unfold createGraph.
  destruct (addNodes_cases C (data_nodes data) emptyGraph (NoDup_nil _)) as [[ND E] | [ND E]];
    simpl in ND; rewrite E; simpl bindR.
  - split; [intros N; contradiction|].
    intros g H. split; [exact ND|]. destruct (addEdges_ok _ _ _ _ _ H) as [Hn _]. exact Hn.
  - split; [intros _; reflexivity | intros g H; discriminate].
Qed.

(** createGraph, edge phase: once the node ids are distinct, construction
    succeeds exactly when the input edges whose two endpoints are nodes
    carry pairwise distinct (source, target) pairs. The graph then holds
    exactly those edges, in input order, the one of input index [i] with
    the id ["e" ++ i], the default colour as colour and original colour,
    size 0.5 and no hidden flag; edges with a missing endpoint are
    skipped. *)
Theorem createGraph_edges : forall C data,
  NoDup (map in_id (data_nodes data)) ->
  let kept := createdEdges (fun p => mem p (map in_id (data_nodes data))) 0 (data_edges data) in
  ((exists g, createGraph C data = Ok g) <-> NoDup (map fst kept)) /\
  (forall g, createGraph C data = Ok g ->
   map edgeTriple (gedges g) = kept /\
   (forall e, In e (gedges g) ->
      ecolor e = edgeDefault C /\ esize e = 1#2 /\ eoriginalColor e = edgeDefault C /\ ehidden e = None)).
Proof.
  intros C data Hnd kept. unfold createGraph.
  destruct (addNodes_cases C (data_nodes data) emptyGraph (NoDup_nil _)) as [[ND E] | [ND E]];
    simpl in ND; [|contradiction]. rewrite E. simpl bindR. cbn [gnodes gedges gnextEdge emptyGraph].
  set (g0 := {| gnodes := map (createNodeAttrs C) (data_nodes data); gedges := []; gnextEdge := 0 |}).
  assert (K0 : keysBelow g0) by (intros x []).
  assert (Ek : createdEdges (hasNode g0) 0 (data_edges data) = kept).
  { apply createdEdges_ext. intros p. unfold g0. rewrite hasNode_mem, nkeys_createNodeAttrs. reflexivity. }
  split.
  - rewrite (addEdges_succeeds C (data_edges data) g0 0 K0 (NoDup_nil _)), Ek. reflexivity.
  - intros g H. destruct (addEdges_result C _ g0 0 g K0 H) as [E1 E2].
    split; [rewrite E1, Ek; reflexivity|].
    intros x Hx. destruct (E2 x Hx) as [[] | D]. exact D.
Qed.

Definition dupNodeData : GraphData :=
  {| data_nodes := [nd "A"; nd "B"; nd "A"]; data_edges := [ed "A" "B"] |}.
Definition skipData : GraphData :=
  {| data_nodes := [nd "A"; nd "B"]; data_edges := [ed "A" "Z"; ed "A" "B"; ed "B" "A"; ed "A" "B"] |}.

Lemma createGraph_nodes_witness :
  ~ NoDup (map in_id (data_nodes dupNodeData)) /\
  createGraph COLORS_graph dupNodeData = Err (UsageGraphError "addNode: the node already exist").
Proof.
  assert (N : ~ NoDup (map in_id (data_nodes dupNodeData))).
  { simpl. intros H. inversion H as [|x l Hx _]. apply Hx. right. left. reflexivity. }
  split; [exact N|]. exact (proj1 (createGraph_nodes COLORS_graph dupNodeData) N).
Defined.

Lemma createGraph_edges_witness :
  NoDup (map in_id (data_nodes skipData)) /\
  ~ (exists g, createGraph COLORS_graph skipData = Ok g).
Proof.
  assert (N : NoDup (map in_id (data_nodes skipData))).
  { simpl. constructor; [intros [H|[]]; discriminate | constructor; [intros [] | constructor]]. }
  split; [exact N|]. intros Hex.
  apply (proj1 (proj1 (createGraph_edges COLORS_graph skipData N))) in Hex.
  vm_compute in Hex. inversion Hex as [|x l Hx _]. apply Hx. right. left. reflexivity.
Defined.

(** ** Search, package list, generated data, particle drawing *)

Lemma mapR_ok : forall {A B} (f : A -> Result B) (h : A -> B) l,
  (forall x, In x l -> f x = Ok (h x)) -> mapR f l = Ok (map h l).
Proof.
  intros A B f h l. induction l as [|x l IH]; intros H; [reflexivity|].
  simpl. rewrite (H x (or_introl eq_refl)). simpl.
  rewrite IH by (intros y Hy; apply H; right; exact Hy). reflexivity.
Qed.

Lemma mapR_err : forall {A B} (f : A -> Result B) l e,
  mapR f l = Err e -> exists x, In x l /\ f x = Err e.
Proof.
  intros A B f l. induction l as [|x l IH]; intros e H; [discriminate|].
  simpl in H. destruct (f x) as [y|e1] eqn:F; simpl in H.
  - destruct (mapR f l) as [ys|e2] eqn:M; simpl in H; [discriminate|].
    injection H as ->. destruct (IH e eq_refl) as [z [Hz Fz]]. exists z. split; [right; exact Hz | exact Fz].
  - injection H as ->. exists x. split; [left; reflexivity | exact F].
Qed.

Lemma degree_items_ok : forall g l, (forall p, In p l -> hasNode g p = true) ->
  mapR (fun pkg => bindR (outDegree g pkg) (fun deps => Ok (pkg, deps))) l =
  Ok (map (fun p => (p, outDegreeCount g p)) l).
Proof.
  intros g l H. apply mapR_ok. intros x Hx. unfold outDegree. rewrite (H x Hx). reflexivity.
Qed.

Lemma In_degree_items : forall g l p d,
  In (p, d) (map (fun p => (p, outDegreeCount g p)) l) -> In p l /\ d = outDegreeCount g p.
Proof.
  intros g l p d H. apply in_map_iff in H. destruct H as [x [Hx Hin]]. injection Hx as <- <-.
  split; [exact Hin | reflexivity].
Qed.

Lemma map_fst_degree_items : forall g l, map fst (map (fun p => (p, outDegreeCount g p)) l) = l.
Proof. intros g l. rewrite map_map. apply map_id. Qed.

Lemma firstn_In : forall {A} n (l : list A) x, In x (firstn n l) -> In x l.
Proof.
  intros A n l x H. rewrite <- (firstn_skipn n l). apply in_or_app. left. exact H.
Qed.

Lemma reachable_packages_nodes : forall C s p, reachable C s -> In p (allPackages s) ->
  hasNode (graph s) p = true.
Proof.
  intros C s p R Hp. apply hasNode_In_nkeys.
  destruct (reachable_modeInv C s R) as [_ [_ [_ [_ [_ I6]]]]]. exact (I6 p Hp).
Qed.

Lemma pickAt_In : forall l r, l <> [] -> 0 <= r -> r < 1 -> In (pickAt l r) l.
Proof.
  intros l r Hl H0 H1. unfold pickAt.
  set (len := inject_Z (Z.of_nat (List.length l))).
  assert (Hlen : (0 < List.length l)%nat) by (destruct l; [congruence | simpl; lia]).
  assert (Lpos : 0 < len) by (unfold len; change 0 with (inject_Z 0); rewrite <- Zlt_Qlt; lia).
  assert (X0 : 0 <= r * len) by (apply Qmult_le_0_compat; lra).
  assert (X1 : r * len < len) by nra.
  assert (Z0 : (0 <= Qfloor (r * len))%Z).
  { pose proof (Qfloor_resp_le 0 (r * len) X0) as F. exact F. }
  assert (Z1 : (Qfloor (r * len) < Z.of_nat (List.length l))%Z).
  { destruct (Z_lt_le_dec (Qfloor (r * len)) (Z.of_nat (List.length l))) as [Y|Y]; [exact Y|].
    exfalso. rewrite Zle_Qle in Y. pose proof (Qfloor_le (r * len)). fold len in Y. lra. }
  destruct (Z.ltb_spec (Qfloor (r * len)) 0) as [Y|_]; [lia|].
  destruct (nth_error l (Z.to_nat (Qfloor (r * len)))) eqn:N.
  - eapply nth_error_In. exact N.
  - apply nth_error_None in N. lia.
Qed.

Definition plainIds : list string := flat_map (fun p => map (fun nm => p ++ nm) names) prefixes.

Lemma append_empty_r : forall s, s ++ "" = s.
Proof. induction s as [|c s IH]; [reflexivity | simpl; rewrite IH; reflexivity]. Qed.

Lemma noSuffix_plain : forall rand n k, validRandom rand ->
  (noSuffixCount rand k n <=
   List.length (filter (fun id => mem id plainIds) (map in_id (fst (genNodes rand k n)))))%nat.
Proof.
  intros rand n. induction n as [|n IH]; intros k V; [simpl; lia|].
  simpl noSuffixCount. simpl genNodes.
  destruct (Qlt_le_dec (1#2) (rand (k + 2)%nat)).
  - destruct (genNodes rand (k + 4) n) as [rest k2] eqn:G. cbn [fst map filter].
    pose proof (IH (k + 4)%nat V) as I. rewrite G in I. cbn [fst] in I.
    match goal with |- context [if mem ?x plainIds then _ else _] => destruct (mem x plainIds) end;
      cbn [length]; [apply le_S|]; exact I.
  - destruct (genNodes rand (k + 3) n) as [rest k2] eqn:G. cbn [fst map filter].
    pose proof (IH (k + 3)%nat V) as I. rewrite G in I. cbn [fst] in I.
    assert (M : mem (pickAt prefixes (rand k) ++ pickAt names (rand (S k)) ++ "") plainIds = true).
    { apply mem_In. rewrite append_empty_r. unfold plainIds. apply in_flat_map.
      exists (pickAt prefixes (rand k)). destruct (V k) as [A B]. destruct (V (S k)) as [A' B'].
      split; [apply pickAt_In; [discriminate | exact A | exact B]|].
      apply in_map. apply pickAt_In; [discriminate | exact A' | exact B']. }
    cbn [in_id]. rewrite M. cbn [length]. apply le_n_S. exact I.
Qed.

Lemma between_interp : forall a b p, 0 <= p -> p <= 1 -> between a b (a + (b - a) * p).
Proof.
  intros a b p H0 H1. unfold between. destruct (Qlt_le_dec a b) as [L|L].
  - left. split; nra.
  - right. split; nra.
Qed.

(** handleSearch: on every reachable state the search never raises: a
    trimmed, lower-cased query shorter than two characters, or one no
    package contains (compared in lower case), closes the dropdown;
    otherwise it lists the first 15 matching packages in [allPackages]
    order, each with its out-degree. *)
Theorem handleSearch_reachable : forall C s input, reachable C s ->
  let query := trim (toLower input) in
  let hits := filter (fun pkg => includes (toLower pkg) query) (allPackages s) in
  exists v, handleSearch s input = Ok v /\
  (v = SearchClosed <-> ((String.length query < 2)%nat \/ hits = [])) /\
  (forall items, v = SearchOpen items ->
     map fst items = firstn 15 hits /\ (List.length items <= 15)%nat /\
     forall p d, In (p, d) items ->
       In p (allPackages s) /\ includes (toLower p) query = true /\
       d = List.length (filter (fun e => String.eqb (source e) p) (gedges (graph s)))).
Proof.
  intros C s input R query hits. unfold handleSearch. fold query. fold hits.
  destruct (Nat.ltb_spec (String.length query) 2) as [L|L].
  - exists SearchClosed. split; [reflexivity|]. split; [split; [intros _; left; exact L | reflexivity]|].
    intros items H. discriminate.
  - assert (Hn : forall p, In p (firstn 15 hits) -> hasNode (graph s) p = true).
    { intros p Hp. apply (reachable_packages_nodes C s p R).
      apply firstn_In in Hp. unfold hits in Hp. apply filter_In in Hp. exact (proj1 Hp). }
    destruct (firstn 15 hits) as [|h t] eqn:F.
    + exists SearchClosed. split; [reflexivity|]. split.
      * split; [intros _; right | reflexivity].
        destruct hits as [|x r]; [reflexivity | discriminate].
      * intros items H. discriminate.
    + rewrite (degree_items_ok _ _ Hn).
      exists (SearchOpen (map (fun p => (p, outDegreeCount (graph s) p)) (h :: t))).
      split; [reflexivity|]. split.
      * split; [intros H; discriminate|]. intros [H|H]; [lia|]. rewrite H in F. discriminate.
      * intros items H.
        assert (E : items = map (fun p => (p, outDegreeCount (graph s) p)) (h :: t)) by congruence.
        rewrite E. clear H E.
        split; [exact (map_fst_degree_items (graph s) (h :: t))|].
        split.
        -- rewrite length_map, <- F, length_firstn. lia.
        -- intros p d Hpd. apply In_degree_items in Hpd. destruct Hpd as [Hp ->].
           rewrite <- F in Hp. apply firstn_In in Hp. unfold hits in Hp. apply filter_In in Hp.
           split; [exact (proj1 Hp)|]. split; [exact (proj2 Hp) | reflexivity].
Qed.

Lemma degree_items_err : forall g l, (exists p, In p l /\ hasNode g p = false) ->
  mapR (fun pkg => bindR (outDegree g pkg) (fun deps => Ok (pkg, deps))) l =
  Err (NotFoundGraphError "outDegree: node not found").
Proof.
  intros g l. induction l as [|x r IH]; intros [p [Hp Hn]]; [destruct Hp|].
  cbn [mapR]. unfold outDegree at 1. destruct (hasNode g x) eqn:Hx.
  - destruct Hp as [<-|Hp]; [congruence|].
    cbn [bindR]. rewrite IH by (exists p; split; assumption). reflexivity.
  - reflexivity.
Qed.

(** renderPackageList: the call succeeds exactly when each of the first
    500 packages is a node of the graph (later packages are never looked
    up). It then renders one item per package among the first 500, in
    order, with the package's out-degree, and sets the counter to the
    full package count followed by [" total"]; otherwise it raises
    graphology's not-found error. *)
Theorem renderPackageList_spec : forall allPkgs g,
  ((forall p, In p (firstn 500 allPkgs) -> hasNode g p = true) ->
   exists items, renderPackageList allPkgs g = Ok (items, string_of_nat (List.length allPkgs) ++ " total") /\
   map fst items = firstn 500 allPkgs /\ List.length items = Nat.min 500 (List.length allPkgs) /\
   forall p d, In (p, d) items -> d = List.length (filter (fun e => String.eqb (source e) p) (gedges g))) /\
  (forall e, renderPackageList allPkgs g = Err e ->
   e = NotFoundGraphError "outDegree: node not found" /\
   exists p, In p (firstn 500 allPkgs) /\ hasNode g p = false) /\
  ((exists p, In p (firstn 500 allPkgs) /\ hasNode g p = false) ->
   renderPackageList allPkgs g = Err (NotFoundGraphError "outDegree: node not found")).
Proof.
  intros allPkgs g. split; [|split; [|intros H; unfold renderPackageList;
    rewrite (degree_items_err g _ H); reflexivity]].
  - intros H. exists (map (fun p => (p, outDegreeCount g p)) (firstn 500 allPkgs)).
    unfold renderPackageList. rewrite (degree_items_ok _ _ H). split; [reflexivity|].
    split; [apply map_fst_degree_items|]. split.
    + rewrite length_map, length_firstn. reflexivity.
    + intros p d Hpd. apply In_degree_items in Hpd. exact (proj2 Hpd).
  - intros e H. unfold renderPackageList in H.
    destruct (mapR _ (firstn 500 allPkgs)) eqn:M; simpl in H; [discriminate|].
    injection H as ->. apply mapR_err in M. destruct M as [p [Hp Fp]].
    unfold outDegree in Fp. destruct (hasNode g p) eqn:Hn; simpl in Fp; [discriminate|].
    injection Fp as <-. split; [reflexivity|]. exists p. split; [exact Hp | exact Hn].
Qed.

(** loadGraphData: when more generated packages take the no-suffix branch
    than there are prefix/name combinations (7 x 15 = 105), two generated
    ids coincide, so [createGraph] on the generated data raises
    graphology's duplicate-node error, whatever the edges. *)
Theorem loadGraphData_duplicate_ids : forall C rand edges,
  validRandom rand ->
  (List.length prefixes * List.length names < noSuffixCount rand 0 (800 - List.length basePackages))%nat ->
  ~ NoDup (map in_id (loadGraphDataNodes rand)) /\
  createGraph C {| data_nodes := loadGraphDataNodes rand; data_edges := edges |} =
    Err (UsageGraphError "addNode: the node already exist").
Proof.
  intros C rand edges V Hc.
  assert (ND : ~ NoDup (map in_id (loadGraphDataNodes rand))).
  { intros ND. unfold loadGraphDataNodes in ND. rewrite map_app in ND.
    apply NoDup_app_remove_l in ND.
    set (gen := map in_id (fst (genNodes rand 0 (800 - List.length basePackages)))) in ND.
    assert (L1 : (List.length (filter (fun id => mem id plainIds) gen) <= List.length plainIds)%nat).
    { apply NoDup_incl_length; [apply NoDup_filter; exact ND|].
      intros x Hx. apply filter_In in Hx. apply mem_In. exact (proj2 Hx). }
    pose proof (noSuffix_plain rand (800 - List.length basePackages) 0 V) as L2. fold gen in L2.
    assert (L3 : List.length plainIds = (List.length prefixes * List.length names)%nat) by reflexivity.
    lia. }
  split; [exact ND|]. unfold createGraph. simpl data_nodes.
  destruct (addNodes_cases C (loadGraphDataNodes rand) emptyGraph (NoDup_nil _)) as [[N _] | [_ E]].
  - simpl in N. contradiction.
  - rewrite E. reflexivity.
Qed.

(** renderParticles: in a particle run started by
    [initializeParticleSystem] and advanced by [updateParticles] at
    non-decreasing times, a particle of a cycle with edges always has a
    current edge (the [!edge] skip never fires) and is drawn whenever both
    of that edge's endpoints are nodes; every drawn point belongs to such a
    particle, carries its colour, and lies on its current edge, between
    the two endpoints' coordinates. *)
Theorem renderParticles_on_cycle_edges : forall pos g sc vis t0 nows,
  nondecr t0 nows ->
  let sys := runUpdates (initializeParticleSystem sc vis t0) sc nows in
  (forall pt c, In pt (particles sys) -> findCycle sc (cycleId pt) = Some c -> cedges c <> [] ->
     exists e, nth_error (cedges c) (edgeIndex pt) = Some e /\
       (hasNode g (cfrom e) = true -> hasNode g (cto e) = true ->
        In (fst (pos (cfrom e)) + (fst (pos (cto e)) - fst (pos (cfrom e))) * progress pt,
            snd (pos (cfrom e)) + (snd (pos (cto e)) - snd (pos (cfrom e))) * progress pt,
            pcolor pt) (renderParticles pos g sc sys))) /\
  (forall x y col, In (x, y, col) (renderParticles pos g sc sys) ->
     exists pt c e, In pt (particles sys) /\ findCycle sc (cycleId pt) = Some c /\
       nth_error (cedges c) (edgeIndex pt) = Some e /\
       hasNode g (cfrom e) = true /\ hasNode g (cto e) = true /\ col = pcolor pt /\
       between (fst (pos (cfrom e))) (fst (pos (cto e))) x /\
       between (snd (pos (cfrom e))) (snd (pos (cto e))) y).
Proof.
  intros pos g sc vis t0 nows Hnd sys.
  assert (Inv : Forall (particleInv sc) (particles sys)).
  { apply runUpdates_inv; [exact Hnd | apply initial_particles_inv]. }
  rewrite Forall_forall in Inv. split.
  - intros pt c Hin Hf Hne. destruct (Inv pt Hin c Hf Hne) as [_ [_ Hi]].
    destruct (nth_error (cedges c) (edgeIndex pt)) as [e|] eqn:N;
      [|apply nth_error_None in N; lia].
    exists e. split; [reflexivity|]. intros H1 H2.
    unfold renderParticles. apply in_flat_map. exists pt. split; [exact Hin|].
    unfold renderParticle. rewrite Hf. destruct (cedges c) as [|e0 es] eqn:Ec; [congruence|].
    rewrite N, H1, H2. cbn [negb orb].
    destruct (pos (cfrom e)) as [fx fy]. destruct (pos (cto e)) as [tx ty]. left. reflexivity.
  - intros x y col H. unfold renderParticles in H. apply in_flat_map in H.
    destruct H as [pt [Hin H]]. unfold renderParticle in H.
    destruct (findCycle sc (cycleId pt)) as [c|] eqn:Hf; [|destruct H].
    destruct (cedges c) as [|e0 es] eqn:Ec; [destruct H|].
    destruct (nth_error (e0 :: es) (edgeIndex pt)) as [e|] eqn:N; [|destruct H].
    destruct (hasNode g (cfrom e)) eqn:H1; [|destruct H].
    destruct (hasNode g (cto e)) eqn:H2; [|destruct H]. simpl in H.
    destruct (Inv pt Hin c Hf ltac:(rewrite Ec; discriminate)) as [P0 [P1 _]].
    exists pt, c, e. split; [exact Hin|]. split; [exact Hf|]. split; [rewrite Ec; exact N|].
    split; [exact H1|]. split; [exact H2|].
    destruct (pos (cfrom e)) as [fx fy]. destruct (pos (cto e)) as [tx ty].
    destruct H as [H|[]]. injection H as <- <- <-. simpl.
    split; [reflexivity|]. split; apply between_interp; lra.
Qed.

Definition libData : GraphData :=
  {| data_nodes := [nd "libfoo"; nd "libbar"; nd "zlib"]; data_edges := [ed "libfoo" "zlib"] |}.
Definition libState : AppState := initState (fromOk emptyGraph (createGraph COLORS_graph libData)) libData.

Lemma libState_reachable : reachable COLORS_graph libState.
Proof. apply (r_init COLORS_graph libData). vm_compute. reflexivity. Qed.

Lemma handleSearch_reachable_witness :
  reachable COLORS_graph libState /\ exists v, handleSearch libState " LIB " = Ok v.
Proof.
  split; [exact libState_reachable|].
  destruct (handleSearch_reachable COLORS_graph libState " LIB " libState_reachable) as [v [Hv _]].
  exists v. exact Hv.
Defined.

Lemma renderPackageList_spec_witness :
  (exists items, renderPackageList ["A"; "B"] abcGraph = Ok (items, "2 total")) /\
  renderPackageList ["A"; "Z"; "B"] abcGraph = Err (NotFoundGraphError "outDegree: node not found").
Proof.
  assert (H : forall p, In p (firstn 500 ["A"; "B"]) -> hasNode abcGraph p = true).
  { intros p [<-|[<-|[]]]; vm_compute; reflexivity. }
  destruct (proj1 (renderPackageList_spec ["A"; "B"] abcGraph) H) as [items [E _]].
  split; [exists items; exact E|].
  apply (proj2 (proj2 (renderPackageList_spec ["A"; "Z"; "B"] abcGraph))).
  exists "Z". split; [right; left; reflexivity | vm_compute; reflexivity].
Defined.

(** The random source that always returns 0. *)
Definition zeroRandom : RandomSource := fun _ => 0.

Lemma loadGraphData_duplicate_ids_witness :
  validRandom zeroRandom /\
  (List.length prefixes * List.length names < noSuffixCount zeroRandom 0 (800 - List.length basePackages))%nat /\
  createGraph COLORS_graph {| data_nodes := loadGraphDataNodes zeroRandom; data_edges := [] |} =
    Err (UsageGraphError "addNode: the node already exist").
Proof.
  assert (V : validRandom zeroRandom) by (intros k; split; [apply Qle_refl | reflexivity]).
  assert (Hc : (List.length prefixes * List.length names <
                noSuffixCount zeroRandom 0 (800 - List.length basePackages))%nat)
    by (apply Nat.ltb_lt; vm_compute; reflexivity).
  split; [exact V|]. split; [exact Hc|].
  exact (proj2 (loadGraphData_duplicate_ids COLORS_graph zeroRandom [] V Hc)).
Defined.

Definition abRun : ParticleSystem :=
  runUpdates (initializeParticleSystem abScenario ["c1"] 0) abScenario [1000].

Lemma renderParticles_on_cycle_edges_witness :
  nondecr 0 [1000] /\
  exists pt c e, In pt (particles abRun) /\ findCycle abScenario (cycleId pt) = Some c /\
    nth_error (cedges c) (edgeIndex pt) = Some e.
Proof.
  assert (H : nondecr 0 [1000]) by (split; [lra | exact I]).
  set (pt := hd {| cycleId := ""; edgeIndex := 0; progress := 0; pcolor := "" |} (particles abRun)).
  assert (Hin : In pt (particles abRun)) by (vm_compute; left; reflexivity).
  destruct (findCycle abScenario (cycleId pt)) as [c|] eqn:Hf; [|vm_compute in Hf; discriminate].
  assert (Hne : cedges c <> []) by (vm_compute in Hf; injection Hf as <-; discriminate).
  destruct (proj1 (renderParticles_on_cycle_edges (fun _ => (0, 0)) abcGraph abScenario ["c1"] 0 [1000] H)
              pt c Hin Hf Hne) as [e [He _]].
  split; [exact H|]. exists pt, c, e. split; [exact Hin|]. split; [exact Hf | exact He].
Defined.

(** ** Exiting a mode undoes it *)

Lemma clearCyclesMode_view : forall s s', cyclesView s = cyclesView s' ->
  clearCyclesMode s = clearCyclesMode s'.
Proof.
  intros s s' H. unfold cyclesView, restoredGraph in H.
  injection H as Ha Hh Hs Hm Hn He Hk.
  unfold clearCyclesMode, set_graph, set_waveSystem, set_cycles, forEachEdge, forEachNode.
  cbn [graph gnodes gedges gnextEdge allPackages highlightedNodes selectedNode isSubgraphMode].
  rewrite Ha, Hh, Hs, Hm, Hn, He, Hk. reflexivity.
Qed.

Lemma clearSubgraphMode_view : forall s s', subgraphView s = subgraphView s' ->
  clearSubgraphMode s = clearSubgraphMode s'.
Proof.
  intros s s' H. unfold subgraphView, restoredGraph in H.
  injection H as Ha Hs Hc Hsc Hv Hw Hn He Hk.
  unfold clearSubgraphMode, set_graph, set_subgraph, forEachEdge, forEachNode.
  cbn [graph gnodes gedges gnextEdge allPackages selectedNode isCyclesMode currentCycleScenario
       visibleCycles waveSystem].
  rewrite Ha, Hs, Hc, Hsc, Hv, Hw, Hn, He, Hk. reflexivity.
Qed.

Lemma clearSelection_view : forall s s', isSubgraphMode s = false -> isSubgraphMode s' = false ->
  selectionView s = selectionView s' -> clearSelection s = clearSelection s'.
Proof.
  intros s s' H1 H2 H. unfold clearSelection. rewrite H1, H2.
  unfold selectionView in H. injection H as Ha Hh Hm Hc Hsc Hv Hw Hn He Hk.
  unfold set_graph, set_selectedNode, forEachEdge, forEachNode.
  cbn [graph gnodes gedges gnextEdge allPackages highlightedNodes isSubgraphMode isCyclesMode
       currentCycleScenario visibleCycles waveSystem].
  change (fun a => setSize (originalSize a) (setColor (originalColor a) a)) with unselectNode.
  change (fun e => setESize (1#2) (setEColor (eoriginalColor e) e)) with unselectEdge.
  rewrite Ha, Hh, Hm, Hc, Hsc, Hv, Hw, Hn, He, Hk. reflexivity.
Qed.

Ltac restore_by_cases :=
  intros;
  unfold selectNodeColors, selectEdgeColors, subgraphNode, subgraphEdge, cycleNode, cycleEdge,
         restoreNode, restoreEdge, unselectNode, unselectEdge;
  repeat match goal with |- context [if ?x then _ else _] => destruct x end;
  repeat match goal with |- context [match ?x with _ => _ end] => destruct x end;
  reflexivity.

Lemma restored_forEach : forall g f h,
  (forall a, restoreNode (f a) = restoreNode a) -> (forall e, restoreEdge (h e) = restoreEdge e) ->
  restoredGraph (forEachEdge (forEachNode g f) h) = restoredGraph g.
Proof.
  intros g f h Hf Hh. unfold restoredGraph, forEachEdge, forEachNode. cbn [gnodes gedges gnextEdge].
  rewrite !map_map. rewrite (map_ext _ _ Hf), (map_ext _ _ Hh). reflexivity.
Qed.

Lemma cyclesView_applyCycleVisualization : forall C s,
  cyclesView (applyCycleVisualization C s) = cyclesView s.
Proof.
  intros C s. unfold applyCycleVisualization. destruct (currentCycleScenario s) as [sc|]; [|reflexivity].
  destruct (classifyNodes sc) as [[q i] a]. unfold cyclesView. cbn [set_graph graph allPackages
    highlightedNodes selectedNode isSubgraphMode].
  rewrite restored_forEach by restore_by_cases. reflexivity.
Qed.

Lemma cyclesView_clearCyclesMode : forall s, cyclesView (clearCyclesMode s) = cyclesView s.
Proof.
  intros s. unfold clearCyclesMode, cyclesView. cbn [set_graph set_waveSystem set_cycles graph
    allPackages highlightedNodes selectedNode isSubgraphMode].
  rewrite restored_forEach by restore_by_cases. reflexivity.
Qed.

Lemma subgraphView_clearSubgraphMode : forall s, subgraphView (clearSubgraphMode s) = subgraphView s.
Proof.
  intros s. unfold clearSubgraphMode, subgraphView. cbn [set_graph set_subgraph graph
    allPackages selectedNode isCyclesMode currentCycleScenario visibleCycles waveSystem].
  rewrite restored_forEach by restore_by_cases. reflexivity.
Qed.

Lemma selectionView_selectNode : forall C s n, selectionView (fst (selectNode C s n)) = selectionView s.
Proof.
  intros C s n. unfold selectNode.
  destruct (outNeighbors _ n) as [deps|]; [|reflexivity].
  destruct (inNeighbors _ n) as [rdeps|]; [|reflexivity].
  unfold selectionView, forEachEdge, forEachNode.
  cbn [fst set_graph set_selectedNode graph gnodes gedges gnextEdge allPackages highlightedNodes
       isSubgraphMode isCyclesMode currentCycleScenario visibleCycles waveSystem].
  rewrite !map_map.
  rewrite (map_ext (fun x => unselectNode (selectNodeColors C n deps rdeps x)) unselectNode)
    by restore_by_cases.
  rewrite (map_ext (fun x => unselectEdge (selectEdgeColors C n x)) unselectEdge)
    by restore_by_cases.
  reflexivity.
Qed.

Lemma isSubgraphMode_selectNode : forall C s n, isSubgraphMode (fst (selectNode C s n)) = isSubgraphMode s.
Proof.
  intros C s n. unfold selectNode.
  destruct (outNeighbors _ n); [|reflexivity]. destruct (inNeighbors _ n); reflexivity.
Qed.

(** Leaving cycles mode undoes cycles mode: exiting after a
    [toggleCycleVisibility] gives the same state as exiting directly, and
    exiting after [detectCycles] gives the state of exiting right after its
    subgraph-mode teardown, whether the detection succeeded or was refused
    with an alert. *)
Theorem clearCyclesMode_undoes_cycles : forall C s c t d now,
  clearCyclesMode (toggleCycleVisibility C s c now) = clearCyclesMode s /\
  clearCyclesMode (fst (detectCycles C s t d now)) =
    clearCyclesMode (if isSubgraphMode s then clearSubgraphMode s else s).
Proof.
  intros C s c t d now. split.
  - apply clearCyclesMode_view. unfold toggleCycleVisibility.
    destruct (currentCycleScenario s) as [sc|]; [|reflexivity].
    set (s1 := applyCycleVisualization C (set_cycles (isCyclesMode s) (Some sc) _ s)).
    assert (V1 : cyclesView s1 = cyclesView s) by (unfold s1; rewrite cyclesView_applyCycleVisualization; reflexivity).
    destruct (waveSystem s1); [|exact V1].
    unfold startParticleAnimation. rewrite <- V1. reflexivity.
  - unfold detectCycles. cbv zeta.
    set (s1 := if isSubgraphMode s then clearSubgraphMode s else s).
    destruct (String.eqb (trim t) ""); [reflexivity|].
    destruct (filter _ _) as [|q qs]; [reflexivity|].
    destruct (findMatchingScenario d (q :: qs)) as [sc|]; [|reflexivity].
    destruct (validateScenario sc (setOf (allPackages s1))) as [valid missing].
    destruct (negb valid); [reflexivity|].
    apply clearCyclesMode_view. cbn [fst]. unfold startParticleAnimation.
    set (s2 := applyCycleVisualization C _).
    assert (V2 : cyclesView s2 = cyclesView s1) by (unfold s2; rewrite cyclesView_applyCycleVisualization; reflexivity).
    rewrite <- V2. reflexivity.
Qed.

(** Leaving subgraph mode undoes [applySubgraphFilter]: exiting after a
    filter attempt (applied, refused, raised, or with empty input) gives
    the state of exiting right after the filter's cycles-mode teardown. *)
Theorem clearSubgraphMode_undoes_filter : forall C s t,
  clearSubgraphMode (fst (applySubgraphFilter C s t)) =
    clearSubgraphMode (if isCyclesMode s then clearCyclesMode s else s).
Proof.
  intros C s t. unfold applySubgraphFilter. cbv zeta.
  set (s1 := if isCyclesMode s then clearCyclesMode s else s).
  destruct (String.eqb (trim t) "").
  - apply clearSubgraphMode_view. cbn [fst]. apply subgraphView_clearSubgraphMode.
  - destruct (filterPackages (graph s1) (trim t)) as [|p ps]; [reflexivity|].
    destruct (expandNeighbors _ _ _) as [ex|err]; [|reflexivity].
    apply clearSubgraphMode_view. cbn [fst]. unfold subgraphView.
    cbn [set_graph set_subgraph graph allPackages selectedNode isCyclesMode currentCycleScenario
         visibleCycles waveSystem].
    rewrite restored_forEach by restore_by_cases. reflexivity.
Qed.

(** A background click undoes a selection: outside subgraph mode,
    [clearSelection] after [selectNode] (on a present or an absent node) or
    after [focusOnNode] gives the same state as [clearSelection] alone. *)
Theorem clearSelection_undoes_selection : forall C s n,
  isSubgraphMode s = false ->
  clearSelection (fst (selectNode C s n)) = clearSelection s /\
  clearSelection (fst (focusOnNode C s n)) = clearSelection s.
Proof.
  intros C s n H.
  assert (E : clearSelection (fst (selectNode C s n)) = clearSelection s).
  { apply clearSelection_view; [rewrite isSubgraphMode_selectNode; exact H | exact H |].
    apply selectionView_selectNode. }
  split; [exact E|]. unfold focusOnNode. destruct (negb _); [reflexivity | exact E].
Qed.

Lemma clearSelection_undoes_selection_witness :
  isSubgraphMode abcState = false /\
  clearSelection (fst (selectNode COLORS_graph abcState "B")) = clearSelection abcState.
Proof.
  split; [reflexivity|].
  exact (proj1 (clearSelection_undoes_selection COLORS_graph abcState "B" eq_refl)).
Defined.

(** ** Selecting again *)

Lemma selectNodeColors_twice : forall C n m d1 r1 d2 r2 a,
  selectNodeColors C m d2 r2 (selectNodeColors C n d1 r1 a) = selectNodeColors C m d2 r2 a.
Proof.
  intros. unfold selectNodeColors.
  destruct (String.eqb (nkey a) n); destruct (mem (nkey a) d1); destruct (mem (nkey a) r1);
  reflexivity.
Qed.

Lemma selectEdgeColors_twice : forall C n m e,
  selectEdgeColors C m (selectEdgeColors C n e) = selectEdgeColors C m e.
Proof.
  intros. unfold selectEdgeColors.
  destruct (String.eqb (source e) n || String.eqb (target e) n); reflexivity.
Qed.

Lemma ends_selectEdgeColors : forall C n e,
  source (selectEdgeColors C n e) = source e /\ target (selectEdgeColors C n e) = target e.
Proof. intros. unfold selectEdgeColors. destruct (_ || _); split; reflexivity. Qed.

Lemma neighbors_selectEdgeColors : forall C n m es,
  map target (filter (fun e => String.eqb (source e) m) (map (selectEdgeColors C n) es)) =
    map target (filter (fun e => String.eqb (source e) m) es) /\
  map source (filter (fun e => String.eqb (target e) m) (map (selectEdgeColors C n) es)) =
    map source (filter (fun e => String.eqb (target e) m) es).
Proof.
  intros C n m es. induction es as [|e es [IH1 IH2]]; [split; reflexivity|].
  destruct (ends_selectEdgeColors C n e) as [Es Et]. cbn [map filter].
  rewrite Es, Et. split.
  - destruct (String.eqb (source e) m); cbn [map]; rewrite ?Et, IH1; reflexivity.
  - destruct (String.eqb (target e) m); cbn [map]; rewrite ?Es, IH2; reflexivity.
Qed.

Lemma hasNode_selectNodeColors : forall C n d r g m,
  hasNode (forEachEdge (forEachNode g (selectNodeColors C n d r)) (selectEdgeColors C n)) m = hasNode g m.
Proof.
  intros. unfold hasNode, forEachEdge, forEachNode. cbn [gnodes].
  induction (gnodes g) as [|a l IH]; [reflexivity|]. cbn [map existsb]. rewrite IH.
  unfold selectNodeColors. destruct (String.eqb (nkey a) n); [reflexivity|].
  destruct (mem (nkey a) d); [reflexivity|]. destruct (mem (nkey a) r); reflexivity.
Qed.

(** Selecting a node of the graph does not depend on the selection made
    before: selecting [m] right after selecting any [n] (present or
    absent) gives the same state and outcome as selecting [m] directly,
    since every node and edge colour and size is recomputed from the
    original attributes and the unchanged edges. *)
Theorem selectNode_reselect : forall C s n m,
  hasNode (graph s) m = true ->
  selectNode C (fst (selectNode C s n)) m = selectNode C s m.
Proof.
  intros C s n m Hm.
  unfold selectNode at 2. unfold outNeighbors at 1, inNeighbors at 1.
  cbn [set_selectedNode graph].
  destruct (hasNode (graph s) n) eqn:Hn; cbn [fst].
  - set (d := map target (filter (fun e => String.eqb (source e) n) (gedges (graph s)))).
    set (r := map source (filter (fun e => String.eqb (target e) n) (gedges (graph s)))).
    set (g2 := forEachEdge (forEachNode (graph s) (selectNodeColors C n d r)) (selectEdgeColors C n)).
    assert (Hm2 : hasNode g2 m = true) by (unfold g2; rewrite hasNode_selectNodeColors; exact Hm).
    assert (En : gnodes g2 = map (selectNodeColors C n d r) (gnodes (graph s))) by reflexivity.
    assert (Ee : gedges g2 = map (selectEdgeColors C n) (gedges (graph s))) by reflexivity.
    assert (Ek : gnextEdge g2 = gnextEdge (graph s)) by reflexivity.
    clearbody g2.
    unfold selectNode, outNeighbors, inNeighbors.
    cbn [set_selectedNode set_graph graph]. rewrite Hm, Hm2, Ee.
    destruct (neighbors_selectEdgeColors C n m (gedges (graph s))) as [N1 N2].
    rewrite N1, N2.
    unfold set_graph, set_selectedNode, forEachEdge, forEachNode.
    cbn [graph gnodes gedges gnextEdge allPackages highlightedNodes selectedNode isSubgraphMode
         isCyclesMode currentCycleScenario visibleCycles waveSystem].
    rewrite En, Ee, Ek, !map_map.
    rewrite (map_ext (fun x => selectNodeColors C m _ _ (selectNodeColors C n _ _ x)) _
               (fun x => selectNodeColors_twice C n m _ _ _ _ x)).
    rewrite (map_ext (fun x => selectEdgeColors C m (selectEdgeColors C n x)) _
               (fun x => selectEdgeColors_twice C n m x)).
    reflexivity.
  - unfold selectNode. cbn [set_selectedNode graph allPackages highlightedNodes isSubgraphMode
      isCyclesMode currentCycleScenario visibleCycles waveSystem]. reflexivity.
Qed.

Lemma selectNode_reselect_witness :
  hasNode (graph abcState) "A" = true /\
  selectNode COLORS_graph (fst (selectNode COLORS_graph abcState "B")) "A" =
    selectNode COLORS_graph abcState "A".
Proof.
  split; [reflexivity|]. exact (selectNode_reselect COLORS_graph abcState "B" "A" eq_refl).
Defined.
